(** * Resume analyzer backend: extraction, ATS scoring and ranking pipeline

    A shallow embedding of the scoring pipeline of [backend/server.js]
    (text extraction dispatch, the upload validation gate, skill and contact
    extraction, the ATS heuristic of the analyze route, the TF-IDF cosine
    score and the recruiter ranking), followed by the properties proved
    about it.

    Conventions.
    - A JavaScript string is a [string]: a sequence of 8-bit code units, read
      as the Latin-1 range of UTF-16; [length] is the number of code units.
    - A JavaScript number that is an integer counter or the ATS score is a
      [Z] or a [nat]; the match score is a binary64 [float], with the IEEE
      operations of the kernel ([+], [*], [/], [sqrt], comparisons).
    - Third-party packages (pdf-parse, mammoth, tesseract.js, natural) are
      not part of the repository: they are arguments of the functions that
      call them, as records of functions returning a value or an exception. *)

From Stdlib Require Import Reals Lra.
From Stdlib Require Import ZArith Ascii String List Bool Lia Floats.
From Stdlib Require Import Sorting.Sorted Sorting.Permutation DecimalString.
From stdpp Require Import base tactics list strings.

Local Open Scope string_scope.
Local Open Scope list_scope.

(* ================================================================== *)
(** * JavaScript built-ins used by the server *)
(* ================================================================== *)

Module JS.

(** ** Characters *)

Definition code (c : ascii) : nat := nat_of_ascii c.

Definition inRange (lo hi : nat) (c : ascii) : bool :=
  (lo <=? code c)%nat && (code c <=? hi)%nat.

Definition isDigit (c : ascii) : bool := inRange 48 57 c.
Definition isUpperAZ (c : ascii) : bool := inRange 65 90 c.
Definition isLowerAZ (c : ascii) : bool := inRange 97 122 c.

(** [\w]: the word characters of ECMAScript regular expressions. *)
Definition isWordChar (c : ascii) : bool :=
  isUpperAZ c || isLowerAZ c || isDigit c || (code c =? 95)%nat.

(** [\s], and the characters removed by [String.prototype.trim]: white
    space and line terminators (TAB, LF, VT, FF, CR, SP, NBSP below 256). *)
Definition isSpace (c : ascii) : bool :=
  inRange 9 13 c || (code c =? 32)%nat || (code c =? 160)%nat.

(** Letters with a lower-case counterpart in Latin-1: A-Z, and U+00C0 to
    U+00DE except the multiplication sign U+00D7. *)
Definition hasLower (c : ascii) : bool :=
  isUpperAZ c || (inRange 192 222 c && negb (code c =? 215)%nat).

Definition lowerChar (c : ascii) : ascii :=
  if hasLower c then ascii_of_nat (code c + 32) else c.

(** Letters whose upper-case form is a single Latin-1 code unit: a-z, and
    U+00E0 to U+00FE except the division sign U+00F7. *)
Definition hasUpper (c : ascii) : bool :=
  isLowerAZ c || (inRange 224 254 c && negb (code c =? 247)%nat).

(** [Canonicalize] of a regular expression with the [i] flag and without
    the [u] flag: the upper-case form when it is one code unit. *)
Definition canonicalize (c : ascii) : ascii :=
  if hasUpper c then ascii_of_nat (code c - 32) else c.

(** ** Strings *)

Fixpoint toLowerCase (s : string) : string :=
  match s with
  | EmptyString => EmptyString
  | String c s' => String (lowerChar c) (toLowerCase s')
  end.

(** [s.startsWith(p)] *)
Fixpoint startsWith (s p : string) : bool :=
  match p, s with
  | EmptyString, _ => true
  | String _ _, EmptyString => false
  | String a p', String b s' => Ascii.eqb a b && startsWith s' p'
  end.

(** [s.includes(p)] *)
Fixpoint includes (s p : string) : bool :=
  startsWith s p ||
  match s with
  | EmptyString => false
  | String _ s' => includes s' p
  end.

Fixpoint trimStart (s : string) : string :=
  match s with
  | EmptyString => EmptyString
  | String c s' => if isSpace c then trimStart s' else s
  end.

(** Drops the trailing white space: a character is kept when something
    that is kept follows it, or when it is not white space. *)
Fixpoint trimEnd (s : string) : string :=
  match s with
  | EmptyString => EmptyString
  | String c s' =>
      match trimEnd s' with
      | EmptyString => if isSpace c then EmptyString else String c EmptyString
      | t => String c t
      end
  end.

Definition trim (s : string) : string := trimEnd (trimStart s).

(** A string is falsy exactly when it is empty: [!s]. *)
Definition falsy (s : string) : bool :=
  match s with EmptyString => true | _ => false end.

(** ** Arrays *)

(** [[...new Set(l)]]: the distinct elements of [l], each at the place of
    its first occurrence. [seen] is the set built so far. *)
Fixpoint setAdd (seen l : list string) : list string :=
  match l with
  | [] => seen
  | x :: l' =>
      if existsb (String.eqb x) seen then setAdd seen l'
      else setAdd (seen ++ [x]) l'
  end.

Definition setValues (l : list string) : list string := setAdd [] l.

(** [l.slice(0, n)] *)
Definition slice0 {A} (n : nat) (l : list A) : list A := take n l.

(** [Array.prototype.sort(cmp)] as the stable insertion sort. [after y x]
    is [cmp(y, x) > 0]: the comparator asks for [x] to come before [y].
    A result of [cmp] that is zero, negative or [NaN] leaves [y] first.
    For a consistent comparator every conforming [sort] returns this
    list (the sort is stable since ES2019). For a comparator that is not
    consistent the order is left to the engine, and need not be the one
    of this list. *)
Section Sort.
Context {A : Type} (after : A -> A -> bool).

Fixpoint insert (x : A) (l : list A) : list A :=
    match l with
    | [] => [x]
    | y :: l' => if after y x then x :: y :: l' else y :: insert x l'
    end.

Definition sort (l : list A) : list A :=
    fold_left (fun acc x => insert x acc) l [].
End Sort.

End JS.


(* ================================================================== *)
(** * Regular expressions *)
(* ================================================================== *)

(** The fragment of ECMAScript regular expressions the server uses:
    character classes, concatenation, alternation, greedy repetition and
    the word-boundary assertion, matched by backtracking. *)
Module Regex.

Inductive regex : Type :=
| Empty : regex
| Class : (ascii -> bool) -> regex
| Cat : regex -> regex -> regex
| Or : regex -> regex -> regex
| Star : regex -> regex
| WordBoundary : regex.

(** A position in the subject: the characters before it, nearest first,
    and the characters from it on. *)
Record pos : Type := mkPos { before : list ascii; after : list ascii }.

Definition wordAt (l : list ascii) : bool :=
  match l with
  | [] => false
  | c :: _ => JS.isWordChar c
  end.

(** Greedy iteration: the continuations of [s] by one more non-empty match
    of the body, tried before stopping at [s]. *)
Fixpoint iterate (body : pos -> list pos) (fuel : nat) (s : pos) : list pos :=
  match fuel with
  | O => [s]
  | S n =>
      flat_map
        (fun s' =>
           if (length (after s') <? length (after s))%nat
           then iterate body n s' else [])
        (body s) ++ [s]
  end.

(** [run r s]: the positions at which a match of [r] started at [s] can
    end, in the order in which backtracking tries them. *)
Fixpoint run (r : regex) (s : pos) : list pos :=
  match r with
  | Empty => [s]
  | Class p =>
      match after s with
      | c :: rest => if p c then [mkPos (c :: before s) rest] else []
      | [] => []
      end
  | Cat r1 r2 => flat_map (run r2) (run r1 s)
  | Or r1 r2 => run r1 s ++ run r2 s
  | Star r1 => iterate (run r1) (length (after s)) s
  | WordBoundary =>
      if xorb (wordAt (before s)) (wordAt (after s)) then [s] else []
  end.

(** Derived forms. *)
Definition Plus (r : regex) : regex := Cat r (Star r).
Definition Opt (r : regex) : regex := Or r Empty.

Fixpoint Times (n : nat) (r : regex) : regex :=
  match n with
  | O => Empty
  | S n' => Cat r (Times n' r)
  end.

(** [r{0,n}], greedy. *)
Fixpoint UpTo (n : nat) (r : regex) : regex :=
  match n with
  | O => Empty
  | S n' => Opt (Cat r (UpTo n' r))
  end.

Definition Between (lo hi : nat) (r : regex) : regex :=
  Cat (Times lo r) (UpTo (hi - lo) r).
Definition AtLeast (n : nat) (r : regex) : regex := Cat (Times n r) (Star r).

Definition Chr (c : ascii) : regex := Class (Ascii.eqb c).

(** A character of a pattern compiled with the [i] flag. *)
Definition ChrI (c : ascii) : regex :=
  Class (fun x => Ascii.eqb (JS.canonicalize x) (JS.canonicalize c)).

(** A pattern without metacharacters, with the [i] flag:
    [new RegExp(source, 'i')] for such a source. *)
Fixpoint LitI (source : string) : regex :=
  match source with
  | EmptyString => Empty
  | String c s' => Cat (ChrI c) (LitI s')
  end.

Fixpoint Alternatives (l : list regex) : regex :=
  match l with
  | [] => Empty
  | [r] => r
  | r :: l' => Or r (Alternatives l')
  end.

(** The first match that starts at the current position or later: where it
    starts and where it ends. *)
Fixpoint search (r : regex) (bef aft : list ascii) : option (pos * pos) :=
  match run r (mkPos bef aft) with
  | e :: _ => Some (mkPos bef aft, e)
  | [] =>
      match aft with
      | [] => None
      | c :: rest => search r (c :: bef) rest
      end
  end.

Definition exec (r : regex) (text : string) : option (pos * pos) :=
  search r [] (list_ascii_of_string text).

(** [r.test(text)] *)
Definition test (r : regex) (text : string) : bool :=
  match exec r text with Some _ => true | None => false end.

(** The matched substring. *)
Definition matched (m : pos * pos) : string :=
  let (s, e) := m in
  string_of_list_ascii
    (take (length (after s) - length (after e)) (after s)).

(** [text.match(r)[0]] for a pattern [r] with the [g] flag, when there is
    a match. *)
Definition firstMatch (r : regex) (text : string) : option string :=
  option_map matched (exec r text).

End Regex.


(* ================================================================== *)
(** * Results of calls that may throw, and route responses *)
(* ================================================================== *)

(** A JavaScript [Error], by its message. *)
Record error : Type := Error { message : string }.

(** The outcome of a call: a value, or an exception. *)
Inductive result (A : Type) : Type :=
| Return : A -> result A
| Throw : error -> result A.
Arguments Return {A} _.
Arguments Throw {A} _.

(** [try { c } catch (e) { h e }] *)
Definition tryCatch {A} (c : result A) (h : error -> result A) : result A :=
  match c with
  | Return a => Return a
  | Throw e => h e
  end.

(* ================================================================== *)
(** * Contact and skill extraction *)
(* ================================================================== *)

Definition oneOf (cs : string) (c : ascii) : bool :=
  existsb (Ascii.eqb c) (list_ascii_of_string cs).

Definition alnum (c : ascii) : bool :=
  JS.isUpperAZ c || JS.isLowerAZ c || JS.isDigit c.

Definition digit : Regex.regex := Regex.Class JS.isDigit.

(** [/\b[A-Za-z0-9._%+-]+@[A-Za-z0-9.-]+\.[A-Z|a-z]{2,}\b/]. The classes are
    closed under case, so the [i] flag of the analyze route leaves the
    pattern as it is. *)
Definition emailRegex : Regex.regex :=
  Regex.Cat Regex.WordBoundary
 (Regex.Cat (Regex.Plus (Regex.Class (fun c => alnum c || oneOf "._%+-" c)))
 (Regex.Cat (Regex.Chr "@")
 (Regex.Cat (Regex.Plus (Regex.Class (fun c => alnum c || oneOf ".-" c)))
 (Regex.Cat (Regex.Chr ".")
 (Regex.Cat (Regex.AtLeast 2
               (Regex.Class (fun c => JS.isUpperAZ c || JS.isLowerAZ c || oneOf "|" c)))
            Regex.WordBoundary))))).

(** [[-.\s]] *)
Definition phoneSep : Regex.regex :=
  Regex.Class (fun c => oneOf "-." c || JS.isSpace c).

(** [/\b(?:\+?\d{1,3}[-.\s]?)?\(?\d{3}\)?[-.\s]?\d{3}[-.\s]?\d{4}\b/] *)
Definition phoneRegex : Regex.regex :=
  Regex.Cat Regex.WordBoundary
 (Regex.Cat (Regex.Opt
               (Regex.Cat (Regex.Opt (Regex.Chr "+"))
               (Regex.Cat (Regex.Between 1 3 digit) (Regex.Opt phoneSep))))
 (Regex.Cat (Regex.Opt (Regex.Chr "("))
 (Regex.Cat (Regex.Times 3 digit)
 (Regex.Cat (Regex.Opt (Regex.Chr ")"))
 (Regex.Cat (Regex.Opt phoneSep)
 (Regex.Cat (Regex.Times 3 digit)
 (Regex.Cat (Regex.Opt phoneSep)
 (Regex.Cat (Regex.Times 4 digit)
            Regex.WordBoundary)))))))).

Record ContactInfo : Type := mkContact { email : string; phone : string }.

(** [x || 'N/A'] for [x = matches[0]], which is [undefined] without a
    match. *)
Definition orNA (m : option string) : string :=
  match m with
  | Some s => if JS.falsy s then "N/A" else s
  | None => "N/A"
  end.

Definition extractContactInfo (text : string) : ContactInfo :=
  {| email := orNA (Regex.firstMatch emailRegex text);
     phone := orNA (Regex.firstMatch phoneRegex text) |}.

Definition commonSkills : list string :=
  [ "python"; "java"; "javascript"; "typescript"; "c++"; "c#"; "ruby"; "php"; "swift"; "kotlin";
    "react"; "angular"; "vue"; "svelte"; "nextjs"; "gatsby"; "redux";
    "nodejs"; "node.js"; "express"; "nestjs"; "django"; "flask"; "spring"; "laravel";
    "mongodb"; "mysql"; "postgresql"; "redis"; "dynamodb"; "cassandra"; "sql"; "nosql";
    "aws"; "azure"; "gcp"; "google cloud"; "heroku"; "digitalocean";
    "docker"; "kubernetes"; "jenkins"; "gitlab ci"; "github actions"; "terraform"; "ansible";
    "git"; "github"; "bitbucket"; "jira"; "confluence";
    "html"; "css"; "sass"; "less"; "bootstrap"; "tailwind"; "material-ui";
    "rest api"; "graphql"; "grpc"; "soap"; "websocket";
    "microservices"; "serverless"; "devops"; "ci/cd"; "agile"; "scrum"; "kanban";
    "machine learning"; "deep learning"; "ai"; "data science"; "tensorflow"; "pytorch"; "keras";
    "pandas"; "numpy"; "scikit-learn"; "opencv";
    "testing"; "jest"; "mocha"; "pytest"; "junit"; "selenium"; "cypress";
    "linux"; "unix"; "bash"; "shell scripting"; "windows"; "macos" ].

Definition extractSkills (text : string) : list string :=
  let textLower := JS.toLowerCase text in
  let foundSkills := List.filter (fun skill => JS.includes textLower skill) commonSkills in
  JS.slice0 12 (JS.setValues foundSkills).


(* ================================================================== *)
(** * The analyze route: ATS score, notes and keywords *)
(* ================================================================== *)

(** [/summary|objective|about|profile/i] and its siblings. *)
Definition anyOfI (words : list string) : Regex.regex :=
  Regex.Alternatives (map Regex.LitI words).

Definition summaryRegex : Regex.regex :=
  anyOfI ["summary"; "objective"; "about"; "profile"].
Definition experienceRegex : Regex.regex :=
  anyOfI ["experience"; "employment"; "work history"].
Definition educationRegex : Regex.regex :=
  anyOfI ["education"; "degree"; "university"; "college"].
Definition skillsRegex : Regex.regex :=
  anyOfI ["skills"; "technical"; "technologies"; "tools"].

(** [/\d+%|\d+\+|\$\d+|[0-9]+/] *)
Definition numbersRegex : Regex.regex :=
  Regex.Alternatives
    [ Regex.Cat (Regex.Plus digit) (Regex.Chr "%");
      Regex.Cat (Regex.Plus digit) (Regex.Chr "+");
      Regex.Cat (Regex.Chr "$") (Regex.Plus digit);
      Regex.Plus digit ].

Definition actionVerbs : list string :=
  [ "developed"; "created"; "managed"; "led"; "implemented"; "designed";
    "built"; "improved"; "increased"; "reduced" ].

(** [actionVerbs.filter(verb => new RegExp(verb, 'i').test(text)).length] *)
Definition actionVerbCount (text : string) : nat :=
  length (List.filter (fun verb => Regex.test (Regex.LitI verb) text) actionVerbs).

(** [Math.min(actionVerbCount * 2, 10)] *)
Definition actionVerbBonus (text : string) : Z :=
  Z.min (Z.of_nat (actionVerbCount text) * 2) 10.

Record Signals : Type := mkSignals {
  hasEmail : bool;
  hasPhone : bool;
  hasSummary : bool;
  hasExperience : bool;
  hasEducation : bool;
  hasSkills : bool;
  hasNumbers : bool
}.

Definition signals (text : string) : Signals :=
  {| hasEmail := Regex.test emailRegex text;
     hasPhone := Regex.test phoneRegex text;
     hasSummary := Regex.test summaryRegex text;
     hasExperience := Regex.test experienceRegex text;
     hasEducation := Regex.test educationRegex text;
     hasSkills := Regex.test skillsRegex text;
     hasNumbers := Regex.test numbersRegex text |}.

(** [if (b) atsScore += n] *)
Definition addIf (b : bool) (n : Z) (score : Z) : Z :=
  if b then (score + n)%Z else score.

(** The ATS score of a text: the statements of the route from
    [let atsScore = 50] to [atsScore = Math.min(atsScore, 100)]. *)
Definition atsScore (text : string) : Z :=
  let sg := signals text in
  let atsScore := 50%Z in
  let atsScore := addIf (hasEmail sg) 5 atsScore in
  let atsScore := addIf (hasPhone sg) 5 atsScore in
  let atsScore := addIf (hasSummary sg) 5 atsScore in
  let atsScore := addIf (hasExperience sg) 10 atsScore in
  let atsScore := addIf (hasEducation sg) 5 atsScore in
  let atsScore := addIf (hasSkills sg) 10 atsScore in
  let atsScore := (atsScore + actionVerbBonus text)%Z in
  let atsScore := addIf (hasNumbers sg) 5 atsScore in
  Z.min atsScore 100.

(** [if (b) notes.push(s)] *)
Definition pushIf (b : bool) (s : string) (notes : list string) : list string :=
  if b then notes ++ [s] else notes.

Definition decimal (n : nat) : string :=
  DecimalString.NilZero.string_of_uint (Nat.to_uint n).

Definition strengthsOf (text : string) (skills : list string) : list string :=
  let sg := signals text in
  let n := actionVerbCount text in
  let strengths := [] in
  let strengths := pushIf (hasEmail sg && hasPhone sg)
                     "Complete contact information provided" strengths in
  let strengths := pushIf (hasExperience sg)
                     "Work experience section is present" strengths in
  let strengths := pushIf (hasSkills sg)
                     "Technical skills are clearly listed" strengths in
  let strengths := pushIf (5 <=? length skills)%nat
                     ("Strong technical profile with " ++ decimal (length skills)
                      ++ " identified skills") strengths in
  let strengths := pushIf (3 <=? n)%nat "Uses strong action verbs" strengths in
  pushIf (hasNumbers sg) "Includes quantifiable achievements" strengths.

Definition improvementsOf (text : string) (skills : list string) : list string :=
  let sg := signals text in
  let n := actionVerbCount text in
  let improvements := [] in
  let improvements := pushIf (negb (hasEmail sg) || negb (hasPhone sg))
                        "Add complete contact information" improvements in
  let improvements := pushIf (negb (hasSummary sg))
                        "Include a professional summary" improvements in
  let improvements := pushIf (negb (hasExperience sg))
                        "Add work experience section" improvements in
  let improvements := pushIf (negb (hasEducation sg))
                        "Include education background" improvements in
  let improvements := pushIf (negb (hasSkills sg))
                        "Create a dedicated skills section" improvements in
  let improvements := pushIf (length skills <? 5)%nat
                        "List more relevant technical skills" improvements in
  let improvements := pushIf (n <? 3)%nat "Use more action verbs" improvements in
  let improvements := pushIf (negb (hasNumbers sg))
                        "Add quantifiable achievements" improvements in
  match improvements with
  | [] => [ "Tailor resume for specific job descriptions";
            "Keep skills section updated" ]
  | _ => improvements
  end.

(** ** Keywords *)

(** [.replace(/[^a-z\s]/g, ' ')] *)
Fixpoint blankNonLetters (s : string) : string :=
  match s with
  | EmptyString => EmptyString
  | String c s' =>
      String (if JS.isLowerAZ c || JS.isSpace c then c else " "%char)
             (blankNonLetters s')
  end.

(** [.split(/\s+/)]: the pieces between the maximal runs of white space,
    empty pieces at both ends included. [tok] is the piece being read and
    [inSep] tells that the last character was white space. *)
Fixpoint splitFrom (inSep : bool) (tok : string) (s : string) : list string :=
  match s with
  | EmptyString => [tok]
  | String c s' =>
      if JS.isSpace c
      then if inSep then splitFrom true "" s' else tok :: splitFrom true "" s'
      else splitFrom false (tok ++ String c "") s'
  end.

Definition splitSpaces (s : string) : list string := splitFrom false "" s.

(** The value of a property of [wordFreq]: a count, or the text that
    [+ 1] makes of a value that is not a number. *)
Inductive freq : Type :=
| Count : nat -> freq
| Text : string -> freq.

(** What [wordFreq[word]] finds on [Object.prototype] when [wordFreq] has
    no property [word] of its own: among the names made of more than three
    letters a-z only [constructor] is there, and it is a function. *)
Definition inherited (word : string) : option string :=
  if String.eqb word "constructor"
  then Some "function Object() { [native code] }"
  else None.

(** [v + 1] *)
Definition plusOne (v : freq) : freq :=
  match v with
  | Count n => Count (n + 1)
  | Text s => Text (s ++ "1")
  end.

(** [wordFreq[word] = (wordFreq[word] || 0) + 1] on the own properties of
    [wordFreq], kept in creation order. *)
Fixpoint bump (word : string) (own : list (string * freq)) : option (list (string * freq)) :=
  match own with
  | [] => None
  | (w, v) :: own' =>
      if String.eqb w word then Some ((w, plusOne v) :: own')
      else option_map (cons (w, v)) (bump word own')
  end.

Definition countWord (own : list (string * freq)) (word : string) : list (string * freq) :=
  match bump word own with
  | Some own' => own'
  | None =>
      match inherited word with
      | Some f => own ++ [(word, plusOne (Text f))]
      | None => own ++ [(word, Count 1)]
      end
  end.

Definition stopWords : list string :=
  [ "this"; "that"; "with"; "from"; "have"; "been"; "were"; "they"; "your"; "will" ].

(** [(a, b) => b[1] - a[1]] is positive: both values are counts and the
    count of [b] is the larger one. With a text the difference is [NaN]. *)
Definition moreFrequent (a b : string * freq) : bool :=
  match snd a, snd b with
  | Count m, Count n => (m <? n)%nat
  | _, _ => false
  end.

(** The keywords of the analysis. In a text with the word [constructor]
    the count of that word is a text, the comparator of the sort is not
    consistent, and the order of the keywords is the engine's: the list
    below then has the keywords of the route in an order that need not
    be theirs. *)
Definition keywordsOf (text : string) : list string :=
  let words := List.filter (fun word => (3 <? String.length word)%nat)
                 (splitSpaces (blankNonLetters (JS.toLowerCase text))) in
  let wordFreq := fold_left countWord words [] in
  map fst
    (JS.slice0 8
       (JS.sort moreFrequent
          (List.filter (fun e => negb (existsb (String.eqb (fst e)) stopWords))
             wordFreq))).

(** ** The route *)

Record Analysis : Type := mkAnalysis {
  analysis_atsScore : Z;
  analysis_strengths : list string;
  analysis_improvements : list string;
  analysis_skills : list string;
  analysis_keywords : list string
}.

Definition analyze (text : string) : Analysis :=
  let skills := extractSkills text in
  {| analysis_atsScore := atsScore text;
     analysis_strengths := JS.slice0 5 (strengthsOf text skills);
     analysis_improvements := JS.slice0 5 (improvementsOf text skills);
     analysis_skills := skills;
     analysis_keywords := keywordsOf text |}.

Inductive analyzeResponse : Type :=
| AnalyzeNotFound : analyzeResponse          (* 404 'Resume not found' *)
| AnalyzeNoText : analyzeResponse            (* 400 'Cannot analyze: ...' *)
| AnalyzeOk : Analysis -> analyzeResponse.   (* 200 { analysis } *)

(** [GET /api/candidate/analyze/:id], from the resume that [findOne]
    returned; [extractedText] is the text stored with it. *)
Definition analyzeRoute (extractedText : option string) : analyzeResponse :=
  match extractedText with
  | None => AnalyzeNotFound
  | Some text =>
      if JS.falsy text || (String.length text <? 100)%nat then AnalyzeNoText
      else AnalyzeOk (analyze text)
  end.


(* ================================================================== *)
(** * Numbers *)
(* ================================================================== *)

Module Num.

Definition two52 : float := 4503599627370496%float.

(** [Math.floor] for [|x| < 2^52]: adding and removing [2^52] rounds to an
    integer, which is lowered by one when it lies above [x]. Beyond that
    range, and for [NaN] and the infinities, [x] is its own floor. *)
Definition floor (x : float) : float :=
  if (abs x <? two52)%float then
    let r := if (0 <=? x)%float then ((x + two52) - two52)%float
             else ((x - two52) + two52)%float in
    if (x <? r)%float then (r - 1)%float else r
  else x.

(** [Math.round]: the nearest integer, a tie going up; an integer, [NaN]
    and the infinities are returned as they are, and a negative [x] that
    rounds to zero gives [-0]. *)
Definition round (x : float) : float :=
  let f := floor x in
  if (f =? x)%float then x
  else if (x - f <? 0.5)%float then f
  else if (f =? (-1))%float then (-0)%float
  else (f + 1)%float.

(** [x === 0] *)
Definition isZero (x : float) : bool := (x =? 0)%float.

(** [l.reduce((acc, val, i) => f(acc, val, i), init)] *)
Fixpoint reduceFrom {A B} (f : A -> B -> nat -> A) (l : list B) (i : nat) (acc : A) : A :=
  match l with
  | [] => acc
  | v :: l' => reduceFrom f l' (S i) (f acc v i)
  end.

Definition reduce {A B} (f : A -> B -> nat -> A) (l : list B) (init : A) : A :=
  reduceFrom f l 0 init.

(** [v[i]] in an arithmetic expression: [undefined] counts as [NaN]. *)
Definition at_ (v : list float) (i : nat) : float := nth i v nan.

End Num.

(* ================================================================== *)
(** * Match score *)
(* ================================================================== *)

(** An item of [tfidf.listTerms(d)]. *)
Record Term : Type := mkTerm { term : string; tfidf : float }.

(** The package natural, as far as [calculateMatchScore] uses it: a
    [TfIdf] to which two documents are added, and [listTerms(0)] and
    [listTerms(1)] of it, or the exception one of these calls raised. *)
Record Natural : Type := mkNatural {
  listTerms : string -> string -> result (list Term * list Term)
}.

(** [terms.find(t => t.term === term)] *)
Definition findTerm (terms : list Term) (name : string) : option Term :=
  List.find (fun t => String.eqb (term t) name) terms.

(** [found ? found.tfidf : 0] *)
Definition weightOf (found : option Term) : float :=
  match found with
  | Some t => tfidf t
  | None => 0%float
  end.

Definition vectorOf (terms : list Term) (allTerms : list string) : list float :=
  map (fun name => weightOf (findTerm terms name)) allTerms.

Definition allTermsOf (terms1 terms2 : list Term) : list string :=
  JS.setValues (map term terms1 ++ map term terms2).

Definition dotProduct (vector1 vector2 : list float) : float :=
  Num.reduce (fun sum val i => (sum + val * Num.at_ vector2 i)%float) vector1 0%float.

Definition sumOfSquares (vector : list float) : float :=
  Num.reduce (fun sum val (_ : nat) => (sum + val * val)%float) vector 0%float.

Definition magnitude (vector : list float) : float := sqrt (sumOfSquares vector).

(** The statements of [calculateMatchScore] after the two term lists are
    there. *)
Definition cosineScore (terms1 terms2 : list Term) : float :=
  let allTerms := allTermsOf terms1 terms2 in
  let vector1 := vectorOf terms1 allTerms in
  let vector2 := vectorOf terms2 allTerms in
  let dotProduct := dotProduct vector1 vector2 in
  let magnitude1 := magnitude vector1 in
  let magnitude2 := magnitude vector2 in
  if Num.isZero magnitude1 || Num.isZero magnitude2 then 0%float
  else
    let similarity := (dotProduct / (magnitude1 * magnitude2))%float in
    (Num.round (similarity * 100 * 100) / 100)%float.

(** The body of the [try] block. *)
Definition scoreOrThrow (N : Natural) (resumeText jobDescription : string) : result float :=
  if JS.falsy resumeText || JS.falsy jobDescription then Return 0%float
  else
    match listTerms N (JS.toLowerCase resumeText) (JS.toLowerCase jobDescription) with
    | Throw e => Throw e
    | Return (terms1, terms2) => Return (cosineScore terms1 terms2)
    end.

Definition calculateMatchScore (N : Natural) (resumeText jobDescription : string) : result float :=
  tryCatch (scoreOrThrow N resumeText jobDescription)
           (fun _ => Return 0%float).


(* ================================================================== *)
(** * Stored resumes and the ranking route *)
(* ================================================================== *)

Record User : Type := mkUser { username : string; userEmail : string }.

(** A document of the [Resume] collection. [owner] is [userId] after
    [populate('userId', 'username email')]. *)
Record Resume : Type := mkResume {
  resumeId : nat;
  owner : User;
  filename : string;
  pdfData : list Byte.byte;
  extractedText : string;
  jobTitle : string;
  uploadedAt : nat
}.

(** An item of [rankedResumes]. *)
Record Ranked : Type := mkRanked {
  ranked_id : nat;
  ranked_filename : string;
  ranked_candidateName : string;
  ranked_candidateEmail : string;
  ranked_jobTitle : string;
  matchScore : float;
  ranked_uploadedAt : nat;
  ranked_email : string;
  ranked_phone : string;
  ranked_skills : list string
}.

(** The callback of [resumes.map]. *)
Definition rankOne (N : Natural) (jobDescription : string) (r : Resume) : result Ranked :=
  match calculateMatchScore N (extractedText r) jobDescription with
  | Throw e => Throw e
  | Return score =>
      let contactInfo := extractContactInfo (extractedText r) in
      let skills := extractSkills (extractedText r) in
      Return {| ranked_id := resumeId r;
                ranked_filename := filename r;
                ranked_candidateName := username (owner r);
                ranked_candidateEmail := userEmail (owner r);
                ranked_jobTitle := jobTitle r;
                matchScore := score;
                ranked_uploadedAt := uploadedAt r;
                ranked_email := email contactInfo;
                ranked_phone := phone contactInfo;
                ranked_skills := skills |}
  end.

(** [l.map(f)] for a callback that may throw: the first exception ends
    the loop. *)
Fixpoint mapM {A B} (f : A -> result B) (l : list A) : result (list B) :=
  match l with
  | [] => Return []
  | a :: l' =>
      match f a with
      | Throw e => Throw e
      | Return b =>
          match mapM f l' with
          | Throw e => Throw e
          | Return bs => Return (b :: bs)
          end
      end
  end.

(** [(a, b) => b.matchScore - a.matchScore] is positive. *)
Definition scoreBelow (a b : Ranked) : bool :=
  (0 <? matchScore b - matchScore a)%float.

Inductive rankResponse : Type :=
| RankNoDescription : rankResponse                  (* 400 *)
| RankFailed : rankResponse                         (* 500 *)
| RankOk : list Ranked -> nat -> rankResponse.      (* rankedResumes, totalResumes *)

(** [POST /api/recruiter/rank]. [jobDescription] is the field of the
    request body, when it is there; [resumes] is what [Resume.find()]
    returned. *)
Definition rankRoute (N : Natural) (jobDescription : option string)
    (resumes : result (list Resume)) : rankResponse :=
  match jobDescription with
  | None => RankNoDescription
  | Some jd =>
      if JS.falsy jd || (String.length (JS.trim jd) =? 0)%nat then RankNoDescription
      else
        match resumes with
        | Throw _ => RankFailed
        | Return resumes =>
            match mapM (rankOne N jd) resumes with
            | Throw _ => RankFailed
            | Return rankedResumes =>
                let rankedResumes := JS.sort scoreBelow rankedResumes in
                RankOk rankedResumes (length rankedResumes)
            end
        end
  end.

(* ================================================================== *)
(** * Text extraction and the upload route *)
(* ================================================================== *)

(** The extraction packages: [pdfParse(buffer)] with the [text] of its
    result, [mammoth.extractRawText({buffer})] with the [value] of its
    result, and [Tesseract.recognize(buffer, 'eng', ...)] with [data.text]. *)
Record Extractors : Type := mkExtractors {
  pdfParse : list Byte.byte -> result string;
  mammothRawText : list Byte.byte -> result string;
  tesseractRecognize : list Byte.byte -> result string
}.

Definition extractTextFromWord (X : Extractors) (buffer : list Byte.byte) : result string :=
  tryCatch (mammothRawText X buffer)
    (fun _ => Throw (Error "Failed to extract text from Word document")).

Definition extractTextFromImage (X : Extractors) (buffer : list Byte.byte) : result string :=
  tryCatch (tesseractRecognize X buffer)
    (fun _ => Throw (Error "Failed to extract text from image using OCR")).

Definition docxType : string :=
  "application/vnd.openxmlformats-officedocument.wordprocessingml.document".

Definition extractTextFromFile (X : Extractors) (buffer : list Byte.byte)
    (mimetype filename : string) : result string :=
  tryCatch
    (if String.eqb mimetype "application/pdf" then pdfParse X buffer
     else if String.eqb mimetype "application/msword" || String.eqb mimetype docxType
     then extractTextFromWord X buffer
     else if JS.startsWith mimetype "image/" then extractTextFromImage X buffer
     else Throw (Error "Unsupported file type"))
    (fun error => Throw error).

(** [req.file], as multer leaves it. *)
Record File : Type := mkFile {
  originalname : string;
  mimetype : string;
  buffer : list Byte.byte
}.

(** The responses of the upload route, by their cause. *)
Inductive uploadResponse : Type :=
| NoFileUploaded : uploadResponse                   (* 400 'No file uploaded' *)
| OcrFailed : uploadResponse                        (* 400 'OCR text extraction failed...' *)
| ExtractionFailed : string -> uploadResponse       (* 400 'Failed to extract text: ' + message *)
| InsufficientText : nat -> uploadResponse          (* 400 'Could not extract sufficient text...', with the length *)
| UploadFailed : string -> uploadResponse           (* 500 'Failed to upload resume: ' + message *)
| Uploaded : Resume -> uploadResponse.              (* 201 *)

(** The collection: [save] validates and stores a document, giving it its
    [_id] and [uploadedAt], or throws. *)
Record Store : Type := mkStore {
  save : list Resume -> Resume -> result Resume
}.

(** [jobTitle || 'Not Specified'] *)
Definition orNotSpecified (jobTitle : option string) : string :=
  match jobTitle with
  | Some t => if JS.falsy t then "Not Specified" else t
  | None => "Not Specified"
  end.

(** [POST /api/candidate/upload] after the middleware: the response and
    the collection afterwards. *)
Definition uploadRoute (X : Extractors) (S : Store) (user : User)
    (file : option File) (jobTitle : option string) (db : list Resume)
    : uploadResponse * list Resume :=
  match file with
  | None => (NoFileUploaded, db)
  | Some f =>
      match extractTextFromFile X (buffer f) (mimetype f) (originalname f) with
      | Throw extractError =>
          if JS.startsWith (mimetype f) "image/" then (OcrFailed, db)
          else (ExtractionFailed (message extractError), db)
      | Return extractedText =>
          if JS.falsy extractedText || (String.length (JS.trim extractedText) <? 50)%nat
          then (InsufficientText (String.length extractedText), db)
          else
            let newResume :=
              {| resumeId := 0;
                 owner := user;
                 filename := originalname f;
                 pdfData := buffer f;
                 extractedText := extractedText;
                 jobTitle := orNotSpecified jobTitle;
                 uploadedAt := 0 |} in
            match save S db newResume with
            | Throw e => (UploadFailed (message e), db)
            | Return saved => (Uploaded saved, db ++ [saved])
            end
      end
  end.


(* ================================================================== *)
(** * Sample collaborators *)
(* ================================================================== *)

(** Instances of the package records on which the routes can be run. No
    theorem about an arbitrary [Natural] or [Extractors] depends on
    them. *)
Module Sample.

(** Splits at the runs of characters that are not word characters and
    drops the empty pieces, as a word tokenizer does. *)
Fixpoint tokensFrom (tok : string) (s : string) : list string :=
  match s with
  | EmptyString => if JS.falsy tok then [] else [tok]
  | String c s' =>
      if JS.isWordChar c then tokensFrom (tok ++ String c "") s'
      else if JS.falsy tok then tokensFrom "" s'
      else tok :: tokensFrom "" s'
  end.

Definition tokenize (s : string) : list string := tokensFrom "" s.

Fixpoint addToken (w : string) (doc : list (string * nat)) : list (string * nat) :=
  match doc with
  | [] => [(w, 1)]
  | (w', n) :: doc' =>
      if String.eqb w' w then (w', n + 1) :: doc' else (w', n) :: addToken w doc'
  end.

(** The terms of a document with their numbers of occurrences. *)
Definition buildDocument (s : string) : list (string * nat) :=
  fold_left (fun doc w => addToken w doc) (tokenize s) [].

Definition hasTerm (w : string) (doc : list (string * nat)) : bool :=
  existsb (fun e => String.eqb (fst e) w) doc.

Definition ofNat (n : nat) : float := of_uint63 (Uint63.of_Z (Z.of_nat n)).

(** [1 + Math.log(2 / (1 + df))] for the two documents: [1] for a term of
    one document, and the double nearest to [1 + ln(2/3)] for a term of
    both. *)
Definition idf (inBoth : bool) : float :=
  if inBoth then 0x1.3066e09a033dap-1%float else 1%float.

(** [listTerms] of a document: every term with [tf * idf], the larger
    weights first. *)
Definition termsOf (doc other : list (string * nat)) : list Term :=
  JS.sort (fun y x => (0 <? tfidf x - tfidf y)%float)
    (map (fun e => mkTerm (fst e) (ofNat (snd e) * idf (hasTerm (fst e) other))%float) doc).

(** A TF-IDF over words, after the documented behaviour of
    [natural.TfIdf] on two documents: the weight of a term is its number
    of occurrences times [1 + ln(2 / (1 + df))], and [listTerms] lists the
    terms of a document by descending weight. The package drops the stop
    words of its own list before it counts; this one keeps every word,
    and is run on texts without stop words only. *)
Definition wordTfIdf : Natural :=
  {| listTerms := fun d0 d1 =>
       let doc0 := buildDocument d0 in
       let doc1 := buildDocument d1 in
       Return (termsOf doc0 doc1, termsOf doc1 doc0) |}.

(** A vectorizer whose calls throw. *)
Definition failingTfIdf : Natural :=
  {| listTerms := fun _ _ => Throw (Error "vectorizer failure") |}.

(** Extractors for which the text of a Word file is its bytes; they are
    given no file that the PDF parser can read, and no image in which
    text is recognised. *)
Definition textOfBytes (b : list Byte.byte) : string :=
  string_of_list_ascii (map ascii_of_byte b).

Definition plainExtractors : Extractors :=
  {| pdfParse := fun _ => Throw (Error "Invalid PDF structure");
     mammothRawText := fun b => Return (textOfBytes b);
     tesseractRecognize := fun _ => Throw (Error "no text recognized") |}.

(** A store that accepts every document and numbers it. *)
Definition listStore : Store :=
  {| save := fun db r =>
       Return {| resumeId := length db;
                 owner := owner r;
                 filename := filename r;
                 pdfData := pdfData r;
                 extractedText := extractedText r;
                 jobTitle := jobTitle r;
                 uploadedAt := length db |} |}.

Definition bytesOf (s : string) : list Byte.byte :=
  map byte_of_ascii (list_ascii_of_string s).

Definition alice : User := mkUser "alice" "alice@example.org".

(** Two texts over five words, with the term frequencies (1, 1, 1, 5, 6)
    and (2, 1, 1, 3, 1), and their term lists: every word is in both
    texts, so every weight is the frequency times [idf true]. *)
Definition textA : string :=
  "java react node sql sql sql sql sql aws aws aws aws aws aws".
Definition textB : string :=
  "java java react node sql sql sql aws".

Definition weighted (name : string) (tf : nat) : Term :=
  mkTerm name (ofNat tf * idf true)%float.

Definition termsA : list Term :=
  [ weighted "aws" 6; weighted "sql" 5; weighted "java" 1; weighted "react" 1;
    weighted "node" 1 ].
Definition termsB : list Term :=
  [ weighted "sql" 3; weighted "java" 2; weighted "react" 1; weighted "node" 1;
    weighted "aws" 1 ].

Definition resumeOf (n : nat) (text : string) : Resume :=
  {| resumeId := n; owner := alice; filename := "cv.pdf"; pdfData := [];
     extractedText := text; jobTitle := "Not Specified"; uploadedAt := n |}.

End Sample.

(* ================================================================== *)
(** * The upload filter, the recruiter listing and the ranking form *)
(* ================================================================== *)

(** [l.includes(x)] for an array of strings. *)
Definition arrayIncludes (l : list string) (x : string) : bool :=
  existsb (String.eqb x) l.

(** [allowedTypes] of the multer configuration. *)
Definition allowedTypes : list string :=
  [ "application/pdf";
    "application/msword";
    "application/vnd.openxmlformats-officedocument.wordprocessingml.document";
    "image/jpeg";
    "image/jpg";
    "image/png";
    "image/tiff";
    "image/bmp" ].

(** [fileFilter(req, file, cb)]: the file is accepted with [cb(null, true)]
    and refused with [cb(new Error(...))]. *)
Definition fileFilter (file : File) : result bool :=
  if arrayIncludes allowedTypes (mimetype file) then Return true
  else Throw (Error "Only PDF, DOC, DOCX, and image files (JPG, PNG) are allowed").

(** An item of [formattedResumes]. *)
Record Listed : Type := mkListed {
  listed_id : nat;
  listed_filename : string;
  listed_candidateName : string;
  listed_candidateEmail : string;
  listed_jobTitle : string;
  listed_uploadedAt : nat;
  listed_email : string;
  listed_phone : string;
  listed_skills : list string
}.

(** The callback of [resumes.map] in [GET /api/recruiter/resumes]. *)
Definition formatResume (r : Resume) : Listed :=
  let contactInfo := extractContactInfo (extractedText r) in
  let skills := extractSkills (extractedText r) in
  {| listed_id := resumeId r;
     listed_filename := filename r;
     listed_candidateName := username (owner r);
     listed_candidateEmail := userEmail (owner r);
     listed_jobTitle := jobTitle r;
     listed_uploadedAt := uploadedAt r;
     listed_email := email contactInfo;
     listed_phone := phone contactInfo;
     listed_skills := skills |}.

Inductive listResponse : Type :=
| ListFailed : listResponse                 (* 500 'Failed to fetch resumes' *)
| ListOk : list Listed -> listResponse.     (* formattedResumes *)

(** [GET /api/recruiter/resumes]. [resumes] is what
    [Resume.find().populate(...).sort({ uploadedAt: -1 })] returned. *)
Definition recruiterResumesRoute (resumes : result (list Resume)) : listResponse :=
  match resumes with
  | Throw _ => ListFailed
  | Return resumes => ListOk (map formatResume resumes)
  end.

(** [handleRank] of the recruiter page: the [jobDescription] of the body
    that is posted to [/api/recruiter/rank], or nothing when the page
    asks for a description instead. *)
Definition handleRank (jobDescription : string) : option string :=
  if JS.falsy (JS.trim jobDescription) then None else Some jobDescription.

(* ================================================================== *)
(** * Sessions and the authentication middleware *)
(* ================================================================== *)

(** [req.session], as far as the server uses it: the three properties
    that the login sets. A property that was never set is [undefined].
    [userId] is the [_id] of a user: an ObjectId, or the hexadecimal
    string that the session store makes of it, and so never falsy. *)
Record Session : Type := mkSession {
  session_userId : option nat;
  session_role : option string;
  session_username : option string
}.

(** The session of a request that carries no stored session. *)
Definition noSession : Session := mkSession None None None.

(** The responses of the middleware. *)
Inductive denial : Type :=
| Unauthorized : denial      (* 401 'Unauthorized - Please login' *)
| AccessDenied : denial.     (* 403 'Access denied - Insufficient permissions' *)

(** A middleware answers, or calls [next()]: [None]. *)
Definition middleware : Type := Session -> option denial.

Definition requireAuth : middleware := fun session =>
  match session_userId session with
  | None => Some Unauthorized
  | Some _ => None
  end.

(** [req.session.role !== role] *)
Definition requireRole (role : string) : middleware := fun session =>
  match session_role session with
  | Some r => if String.eqb r role then None else Some AccessDenied
  | None => Some AccessDenied
  end.

(** The handlers of a route that stand before the last one, run in the
    order in which the route lists them; the first answer ends the
    request. *)
Fixpoint guard (chain : list middleware) (session : Session) : option denial :=
  match chain with
  | [] => None
  | m :: chain' =>
      match m session with
      | Some d => Some d
      | None => guard chain' session
      end
  end.

(** The three chains of the routes. *)
Definition candidateOnly : list middleware := [requireAuth; requireRole "candidate"].
Definition recruiterOnly : list middleware := [requireAuth; requireRole "recruiter"].
Definition anyUser : list middleware := [requireAuth].

(** The answer of a route: that of a middleware, or that of its
    handler. *)
Inductive answer (A : Type) : Type :=
| Denied : denial -> answer A
| Handled : A -> answer A.
Arguments Denied {A} _.
Arguments Handled {A} _.

(* ================================================================== *)
(** * The authentication routes *)
(* ================================================================== *)

(** A document of the [User] collection. *)
Record Account : Type := mkAccount {
  account_id : nat;
  account_username : string;
  account_email : string;
  account_password : string;
  account_role : string
}.

(** The filters of [User.findOne]. *)
Inductive userQuery : Type :=
| ByEmail : string -> userQuery                        (* { email } *)
| ByEmailOrUsername : string -> string -> userQuery.   (* { $or: [{ email }, { username }] } *)

(** The [User] model: [findOne] on the collection, and [save] of a new
    document, which validates it and gives it its [_id], or throws. *)
Record Users : Type := mkUsers {
  findOneUser : userQuery -> list Account -> result (option Account);
  saveUser : list Account -> Account -> result Account
}.

(** The package bcryptjs: [hash(password, rounds)] and
    [compare(password, hash)]. *)
Record Bcrypt : Type := mkBcrypt {
  bcrypt_hash : string -> nat -> result string;
  bcrypt_compare : string -> string -> result bool
}.

(** [!x] for a field of the request body that is a string when it is
    there. *)
Definition missing (field : option string) : bool :=
  match field with
  | Some s => JS.falsy s
  | None => true
  end.

Definition orEmpty (field : option string) : string :=
  match field with Some s => s | None => "" end.




Inductive loginResponse : Type :=
| LoginFieldsRequired : loginResponse     (* 400 'Email and password required' *)
| LoginInvalid : loginResponse            (* 401 'Invalid email or password' *)
| LoginOk : string -> string -> nat -> loginResponse   (* role, username, userId *)
| LoginFailed : loginResponse.            (* 500 'Server error during login' *)

(** [POST /api/auth/login]: the response and the session afterwards. *)
Definition loginRoute (B : Bcrypt) (U : Users) (email password : option string)
    (users : list Account) (session : Session) : loginResponse * Session :=
  if missing email || missing password then (LoginFieldsRequired, session)
  else
    let email := orEmpty email in
    let password := orEmpty password in
    match findOneUser U (ByEmail email) users with
    | Throw _ => (LoginFailed, session)
    | Return None => (LoginInvalid, session)
    | Return (Some user) =>
        match bcrypt_compare B password (account_password user) with
        | Throw _ => (LoginFailed, session)
        | Return false => (LoginInvalid, session)
        | Return true =>
            (LoginOk (account_role user) (account_username user) (account_id user),
             {| session_userId := Some (account_id user);
                session_role := Some (account_role user);
                session_username := Some (account_username user) |})
        end
    end.

Inductive logoutResponse : Type :=
| LogoutFailed : logoutResponse     (* 500 'Logout failed' *)
| LoggedOut : logoutResponse.       (* 'Logged out successfully' *)

(** [POST /api/auth/logout]. [destroyed] is the argument of the callback
    of [req.session.destroy]: the error, if there was one. After the
    session is destroyed, the requests that follow carry none. *)
Definition logoutRoute (destroyed : option error) (session : Session)
    : logoutResponse * Session :=
  match destroyed with
  | Some _ => (LogoutFailed, session)
  | None => (LoggedOut, noSession)
  end.

Inductive checkResponse : Type :=
| NotAuthenticated : checkResponse                      (* { authenticated: false } *)
| Authenticated : option string -> option string -> nat -> checkResponse.
                                                        (* role, username, userId *)

(** [GET /api/auth/check] *)
Definition checkRoute (session : Session) : checkResponse :=
  match session_userId session with
  | Some userId => Authenticated (session_role session) (session_username session) userId
  | None => NotAuthenticated
  end.

(* ================================================================== *)
(** * Stored resumes: delete, download and view *)
(* ================================================================== *)

(** A document of the [Resume] collection as it is stored: [doc_userId]
    is the reference to the user who uploaded it. *)
Record ResumeDoc : Type := mkResumeDoc {
  doc_id : nat;
  doc_userId : nat;
  doc_filename : string;
  doc_pdfData : list Byte.byte;
  doc_extractedText : string;
  doc_jobTitle : string;
  doc_uploadedAt : nat
}.

(** The filters of the routes that read one resume. *)
Inductive resumeQuery : Type :=
| OwnResume : nat -> option nat -> resumeQuery   (* { _id: id, userId: req.session.userId } *)
| ResumeWithId : nat -> resumeQuery.             (* { _id: id } *)

(** The [Resume] model: [findOne] on the collection; and [deleteOne],
    with the collection as it is afterwards and the error, if it
    threw. *)
Record Resumes : Type := mkResumes {
  findOneResume : resumeQuery -> list ResumeDoc -> result (option ResumeDoc);
  deleteOneResume : resumeQuery -> list ResumeDoc -> list ResumeDoc * option error
}.

Inductive deleteResponse : Type :=
| DeleteNotFound : deleteResponse   (* 404 'Resume not found' *)
| DeleteOk : deleteResponse         (* 'Resume deleted successfully' *)
| DeleteFailed : deleteResponse.    (* 500 'Failed to delete resume' *)

(** The handler of [DELETE /api/candidate/resume/:id]: the response and
    the collection afterwards. *)
Definition deleteRoute (R : Resumes) (session : Session) (id : nat)
    (docs : list ResumeDoc) : deleteResponse * list ResumeDoc :=
  match findOneResume R (OwnResume id (session_userId session)) docs with
  | Throw _ => (DeleteFailed, docs)
  | Return None => (DeleteNotFound, docs)
  | Return (Some resume) =>
      match deleteOneResume R (ResumeWithId id) docs with
      | (docs', Some _) => (DeleteFailed, docs')
      | (docs', None) => (DeleteOk, docs')
      end
  end.

(** The route with its middleware. *)
Definition deleteEndpoint (R : Resumes) (session : Session) (id : nat)
    (docs : list ResumeDoc) : answer deleteResponse * list ResumeDoc :=
  match guard candidateOnly session with
  | Some d => (Denied d, docs)
  | None => let (response, docs') := deleteRoute R session id docs in
            (Handled response, docs')
  end.


                                   (* { filename, pdfData } *)








(** A [Resume] model on a collection held in memory, whose calls do not
    throw: [findOne] returns the first document that the filter admits,
    and [deleteOne] removes it. A filter with an undefined value admits
    nothing. *)
Module Memory.

Definition admits (q : resumeQuery) (d : ResumeDoc) : bool :=
  match q with
  | OwnResume id (Some userId) => Nat.eqb (doc_id d) id && Nat.eqb (doc_userId d) userId
  | OwnResume _ None => false
  | ResumeWithId id => Nat.eqb (doc_id d) id
  end.

Fixpoint removeFirst (p : ResumeDoc -> bool) (docs : list ResumeDoc) : list ResumeDoc :=
  match docs with
  | [] => []
  | d :: docs' => if p d then docs' else d :: removeFirst p docs'
  end.

Definition resumes : Resumes :=
  {| findOneResume := fun q docs => Return (List.find (admits q) docs);
     deleteOneResume := fun q docs => (removeFirst (admits q) docs, None) |}.

Definition docOf (id userId : nat) : ResumeDoc :=
  {| doc_id := id; doc_userId := userId; doc_filename := "cv.pdf"; doc_pdfData := [];
     doc_extractedText := ""; doc_jobTitle := "Not Specified"; doc_uploadedAt := id |}.

Definition candidate (userId : nat) : Session :=
  mkSession (Some userId) (Some "candidate") (Some "candidate").

End Memory.

(* ================================================================== *)
(** * The pages: file selection and navigation *)
(* ================================================================== *)

(** [s.lastIndexOf(c)] for a character [c]: the index of its last
    occurrence, or [-1]. [i] is the index of the head of [s] and [last]
    the last occurrence before it. *)
Fixpoint lastIndexFrom (c : ascii) (s : string) (i : nat) (last : Z) : Z :=
  match s with
  | EmptyString => last
  | String x s' => lastIndexFrom c s' (S i) (if Ascii.eqb x c then Z.of_nat i else last)
  end.

Definition lastIndexOf (s : string) (c : ascii) : Z := lastIndexFrom c s 0 (-1).

Fixpoint dropChars (n : nat) (s : string) : string :=
  match n, s with
  | O, _ => s
  | S n', String _ s' => dropChars n' s'
  | S _, EmptyString => EmptyString
  end.

(** [s.substring(start)]: a negative [start] counts as [0], and one
    beyond the end as the length. *)
Definition substring (s : string) (start : Z) : string := dropChars (Z.to_nat start) s.

(** The [File] that the input of the candidate page holds. *)
Record Picked : Type := mkPicked { picked_name : string; picked_size : nat }.

Definition allowedExtensions : list string :=
  [ ".pdf"; ".doc"; ".docx"; ".jpg"; ".jpeg"; ".png" ].

(** What [handleFileSelect] does with the selection. *)
Inductive selection : Type :=
| NothingSelected : selection      (* returns at once *)
| WrongExtension : selection       (* 'Error: Please upload PDF, Word ..., or Image ... files only' *)
| TooLarge : selection             (* 'Error: File too large (max 16MB)' *)
| Posted : bool -> string -> selection.
    (* the file is posted to /api/candidate/upload: whether the notice about
       OCR was shown before, and the [jobTitle] of the form *)

(** [handleFileSelect] of the candidate page, up to the request. *)
Definition handleFileSelect (file : option Picked) : selection :=
  match file with
  | None => NothingSelected
  | Some file =>
      let fileExtension :=
        substring (JS.toLowerCase (picked_name file))
                  (lastIndexOf (picked_name file) "."%char) in
      if negb (arrayIncludes allowedExtensions fileExtension) then WrongExtension
      else if (16 * 1024 * 1024 <? picked_size file)%nat then TooLarge
      else Posted (String.eqb fileExtension ".jpg" || String.eqb fileExtension ".jpeg"
                   || String.eqb fileExtension ".png")
                  "Software Engineer"
  end.

(** The routes of the application: [/], [/login] and [/recruiter]. *)
Inductive page : Type := HomePage | LoginPage | RecruiterPage.

(** [handleSubmit] of the login page after a successful login: the page
    to which it navigates, by the [role] of the response. *)
Definition afterLogin (role : string) : page :=
  if String.eqb role "candidate" then HomePage else RecruiterPage.

(** [checkAuth] of the candidate page: the page to which it navigates, if
    it does. [checked] is the answer of [/api/auth/check], or the
    exception of the request. *)
Definition homeCheckAuth (checked : result checkResponse) : option page :=
  match checked with
  | Throw _ => Some LoginPage
  | Return NotAuthenticated => Some LoginPage
  | Return (Authenticated role _ _) =>
      match role with
      | Some r => if String.eqb r "recruiter" then Some RecruiterPage else None
      | None => None
      end
  end.

(** [checkAuth] of the recruiter page. *)
Definition recruiterCheckAuth (checked : result checkResponse) : option page :=
  match checked with
  | Throw _ => Some LoginPage
  | Return NotAuthenticated => Some LoginPage
  | Return (Authenticated role _ _) =>
      match role with
      | Some r => if String.eqb r "recruiter" then None else Some LoginPage
      | None => Some LoginPage
      end
  end.

(** Users in memory, found by their e-mail, and passwords kept as they
    are. *)
Module Accounts.

Definition users : Users :=
  {| findOneUser := fun q accounts =>
       Return (List.find (fun a =>
                 match q with
                 | ByEmail e => String.eqb (account_email a) e
                 | ByEmailOrUsername e u =>
                     String.eqb (account_email a) e || String.eqb (account_username a) u
                 end) accounts);
     saveUser := fun accounts a =>
       Return (mkAccount (length accounts) (account_username a) (account_email a)
                 (account_password a) (account_role a)) |}.

Definition plain : Bcrypt :=
  {| bcrypt_hash := fun password _ => Return password;
     bcrypt_compare := fun password hash => Return (String.eqb password hash) |}.

Definition bob : Account := mkAccount 3 "bob" "bob@example.org" "secret" "recruiter".

End Accounts.

(* ================================================================== *)
(** * Reference definitions for the statements *)
(* ================================================================== *)

(** The pattern [p] read at the head of [l], letters compared without
    regard to case. *)
Fixpoint prefixI (p : string) (l : list ascii) : bool :=
  match p, l with
  | EmptyString, _ => true
  | String _ _, [] => false
  | String c p', x :: l' =>
      Ascii.eqb (JS.canonicalize x) (JS.canonicalize c) && prefixI p' l'
  end.

(** The pattern [p] read somewhere in [l]. *)
Fixpoint occursI (p : string) (l : list ascii) : bool :=
  prefixI p l ||
  match l with
  | [] => false
  | _ :: l' => occursI p l'
  end.

Definition allChars : list ascii := map ascii_of_nat (seq 0 256).

Definition lowerWord (w : string) : bool :=
  forallb JS.isLowerAZ (list_ascii_of_string w).

(** The rows of the bonus table other than the action verbs. *)
Definition bonus (b : bool) (n : Z) : Z := if b then n else 0%Z.

Definition signalBonuses (text : string) : Z :=
  let sg := signals text in
  (bonus (hasEmail sg) 5 + bonus (hasPhone sg) 5 + bonus (hasSummary sg) 5
   + bonus (hasExperience sg) 10 + bonus (hasEducation sg) 5
   + bonus (hasSkills sg) 10 + bonus (hasNumbers sg) 5)%Z.

(** The number of action verbs that the lower-cased text contains. *)
Definition verbsContained (text : string) : nat :=
  length (List.filter (fun verb => JS.includes (JS.toLowerCase text) verb) actionVerbs).

(** The media types for which there is an extractor: PDF, the two Word
    types, and every [image/*]. *)
Definition isPdf (mimetype : string) : bool := String.eqb mimetype "application/pdf".
Definition isWord (mimetype : string) : bool :=
  String.eqb mimetype "application/msword" || String.eqb mimetype docxType.
Definition isImage (mimetype : string) : bool := JS.startsWith mimetype "image/".

Definition supportedType (mimetype : string) : bool :=
  isPdf mimetype || isWord mimetype || isImage mimetype.

(** The package call that a supported media type selects. *)
Definition selectedExtractor (X : Extractors) (mimetype : string)
    : list Byte.byte -> result string :=
  if isPdf mimetype then pdfParse X
  else if isWord mimetype then mammothRawText X
  else tesseractRecognize X.

(** The error that comes out when the selected call throws [e]. *)
Definition extractionError (mimetype : string) (e : error) : error :=
  if isPdf mimetype then e
  else if isWord mimetype then Error "Failed to extract text from Word document"
  else Error "Failed to extract text from image using OCR".


Definition isInsufficientText (r : uploadResponse) : bool :=
  match r with InsufficientText _ => true | _ => false end.

(** The document that the upload route hands to [save]. *)
Definition newResumeOf (user : User) (f : File) (jobTitle : option string)
    (text : string) : Resume :=
  {| resumeId := 0; owner := user; filename := originalname f;
     pdfData := buffer f; extractedText := text;
     jobTitle := orNotSpecified jobTitle; uploadedAt := 0 |}.

(** A file of the given media type, and a text of [n] letters. *)
Definition fileOf (mimetype text : string) : File :=
  {| originalname := "resume"; mimetype := mimetype; buffer := Sample.bytesOf text |}.

Definition letters (n : nat) : string := string_of_list_ascii (replicate n "a"%char).

(** A binary64 value that is above zero: a positive finite number or
    [+infinity]. *)
Definition positiveSF (f : spec_float) : Prop :=
  match f with
  | S754_finite false _ _ | S754_infinity false => True
  | _ => False
  end.

(** A float that is a number and not an infinity. *)
Definition isFinite (x : float) : bool := (abs x <? infinity)%float.

(** The order that [sort] leaves between neighbours: the comparator does
    not ask for [b] to come before [a]. *)
Definition keptBy {A} (after : A -> A -> bool) (a b : A) : Prop := after a b = false.

(** [b.matchScore - a.matchScore] is not positive: the score of [b] does
    not exceed that of [a]. *)
Definition notBelow : Ranked -> Ranked -> Prop := keptBy scoreBelow.

(** The two term lists have no term in common. *)
Definition noSharedTerm (terms1 terms2 : list Term) : Prop :=
  forall name, name ∈ map term terms1 -> name ∉ map term terms2.

(** The doubles next to 1: [1 - k * 2^-53] and [1 + k * 2^-52]. *)
Definition belowOne (k : nat) : float :=
  SF2Prim (S754_finite false (Z.to_pos (2 ^ 53 - Z.of_nat k)) (-53)).
Definition aboveOne (k : nat) : float :=
  SF2Prim (S754_finite false (Z.to_pos (2 ^ 52 + Z.of_nat k)) (-52)).

(** The doubles from [1 - 36 * 2^-53] to [1 + 19 * 2^-52]. *)
Definition nearOne : list float :=
  map belowOne (seq 1 36) ++ map aboveOne (seq 0 20).

(** The score of a term list against itself. *)
Definition selfScore (terms : list Term) : float :=
  let vector := vectorOf terms (allTermsOf terms terms) in
  let s := sumOfSquares vector in
  if Num.isZero (sqrt s) then 0%float
  else (Num.round (s / (sqrt s * sqrt s) * 100 * 100) / 100)%float.

(** The number that [calculateMatchScore] returns. *)
Definition matchScoreOf (N : Natural) (resumeText jobDescription : string) : float :=
  match calculateMatchScore N resumeText jobDescription with
  | Return score => score
  | Throw _ => nan
  end.

(** The ranking entry of a resume. *)
Definition rankedOf (N : Natural) (jobDescription : string) (r : Resume) : Ranked :=
  let contactInfo := extractContactInfo (extractedText r) in
  {| ranked_id := resumeId r;
     ranked_filename := filename r;
     ranked_candidateName := username (owner r);
     ranked_candidateEmail := userEmail (owner r);
     ranked_jobTitle := jobTitle r;
     matchScore := matchScoreOf N (extractedText r) jobDescription;
     ranked_uploadedAt := uploadedAt r;
     ranked_email := email contactInfo;
     ranked_phone := phone contactInfo;
     ranked_skills := extractSkills (extractedText r) |}.

(** A float that is [+0] or [-0]. *)
Definition zeroish (x : float) : Prop := exists s, Prim2SF x = S754_zero s.

(** A job description that the ranking route accepts. *)
Definition acceptedDescription (jd : string) : Prop :=
  String.length (JS.trim jd) <> 0.

(** The value of a binary64 number in units of [2^-1074], the infinities
    standing beyond every finite value. *)
Definition scaled (f : spec_float) : Z :=
  match f with
  | S754_zero _ | S754_nan => 0
  | S754_infinity s => cond_Zopp s (2 ^ 2200)
  | S754_finite s m e => cond_Zopp s (Z.pos m * 2 ^ (e + 1074))
  end%Z.

(** [Number.isNaN(x)] *)
Definition isNaN (x : float) : bool := negb (x =? x)%float.

(** The score of [b] does not exceed that of [a], read off the comparison
    of the scores: [a.matchScore < b.matchScore] is false. *)
Definition notIncreasing (a b : Ranked) : Prop :=
  (matchScore a <? matchScore b)%float = false.

(** [a.matchScore >= b.matchScore] *)
Definition atLeast (a b : Ranked) : Prop :=
  (matchScore b <=? matchScore a)%float = true.

(** A binary64 value that is [+0], a positive finite number or
    [+infinity]. *)
Definition nonnegSF (f : spec_float) : Prop :=
  match f with
  | S754_zero false | S754_finite false _ _ | S754_infinity false => True
  | _ => False
  end.

(** A positive binary64 value that is not below [2^-537], by its exponent. *)
Definition rootSized (f : spec_float) : Prop :=
  match f with
  | S754_finite false _ e => (-589 <= e)%Z
  | S754_infinity false => True
  | _ => False
  end.

(** A text with twelve vocabulary entries up to "mysql", which holds
    "sql". *)
Definition crowdedText : string :=
  "Python, Java, TypeScript, C++, C#, Ruby, PHP, Swift, Kotlin, React, Angular and MySQL".

(** The number [m * 2^e]. *)
Definition F2R (m e : Z) : R := (IZR m * powerRZ 2 e)%R.

(** One unit in the last place of a number of 53 digits is at most
    [2^-52] of the number. *)
Definition epsilon : R := (/ 4503599627370496)%R.

(** What the round and sticky bits of a shifted mantissa say, after
    [k] digits of [m] were shifted out: where the digits that were
    dropped stand with respect to one half. *)
Definition shiftedOut (mrs : shr_record) (m k : Z) : Prop :=
  let rem := (m - shr_m mrs * 2 ^ k)%Z in
  (0 <= shr_m mrs /\ 0 <= rem < 2 ^ k
   /\ (shr_r mrs = false -> 2 * rem < 2 ^ k)
   /\ (shr_r mrs = true -> 2 ^ k <= 2 * rem)
   /\ (shr_s mrs = false -> if shr_r mrs then 2 * rem = 2 ^ k else rem = 0))%Z.

(** A weight of ordinary size: a number [w] with
    [2^-450 <= |w| <= 2^450]. *)
Definition moderate (w : float) : bool :=
  (0x1p-450 <=? abs w)%float && (abs w <=? 0x1p+450)%float.

(** What is known of the sum of [k] squares of weights of ordinary size:
    it is [+0] before the first square, and then a positive number of at
    most [2 * k * 2^903]. *)
Definition sumUpTo (f : spec_float) (k : Z) : Prop :=
  match f with
  | S754_zero false => k = 0%Z
  | S754_finite false m e => (0 < k)%Z /\ (F2R (Z.pos m) e <= 2 * IZR k * powerRZ 2 903)%R
  | _ => False
  end.

(** ** Words of a pattern *)

(** [derives r w]: the characters [w] are a word of the pattern [r], the
    assertions of [r] left aside. *)
Inductive derives : Regex.regex -> list ascii -> Prop :=
| derives_Empty : derives Regex.Empty []
| derives_Class p c : p c = true -> derives (Regex.Class p) [c]
| derives_Cat r1 r2 u v :
    derives r1 u -> derives r2 v -> derives (Regex.Cat r1 r2) (u ++ v)
| derives_Or_l r1 r2 w : derives r1 w -> derives (Regex.Or r1 r2) w
| derives_Or_r r1 r2 w : derives r2 w -> derives (Regex.Or r1 r2) w
| derives_Star_nil r : derives (Regex.Star r) []
| derives_Star_cons r u v :
    derives r u -> derives (Regex.Star r) v -> derives (Regex.Star r) (u ++ v)
| derives_WordBoundary : derives Regex.WordBoundary [].

(** The match [w] that leads from the position [s] to the position [e]. *)
Definition spans (s e : Regex.pos) (w : list ascii) : Prop :=
  Regex.after s = w ++ Regex.after e /\ Regex.before e = rev w ++ Regex.before s.

(** [local@domain.tld]: what the e-mail pattern matches. *)
Definition emailShaped (e : string) : Prop :=
  exists local domain tld : list ascii,
    list_ascii_of_string e = local ++ "@"%char :: domain ++ "."%char :: tld
    /\ local <> [] /\ domain <> [] /\ 2 <= length tld
    /\ Forall (fun c => alnum c || oneOf "._%+-" c = true) local
    /\ Forall (fun c => alnum c || oneOf ".-" c = true) domain
    /\ Forall (fun c => JS.isUpperAZ c || JS.isLowerAZ c || oneOf "|" c = true) tld.

(** The characters of a match of the phone pattern. *)
Definition phoneChar (c : ascii) : bool :=
  JS.isDigit c || oneOf "+()-." c || JS.isSpace c.

Definition digitsIn (w : list ascii) : nat := length (List.filter JS.isDigit w).

(** Ten to thirteen digits, the last four in a row, among at most nineteen
    characters of the phone pattern. *)
Definition phoneShaped (p : string) : Prop :=
  let w := list_ascii_of_string p in
  10 <= digitsIn w <= 13 /\ length w <= 19
  /\ Forall (fun c => phoneChar c = true) w
  /\ forallb JS.isDigit (drop (length w - 4) w) = true.

(** A piece of a phone match: its number of digits, its length and its
    characters. *)
Definition phonePiece (dlo dhi len : nat) (w : list ascii) : Prop :=
  dlo <= digitsIn w <= dhi /\ length w <= len /\ Forall (fun c => phoneChar c = true) w.

(** ** Notes of the analysis *)

(** The two suggestions that are made when no rule asks for an
    improvement. *)
Definition fillerNotes : list string :=
  [ "Tailor resume for specific job descriptions"; "Keep skills section updated" ].

(** The strength and the improvement that speak of the same aspect of a
    resume. *)
Definition aspectNotes : list (string * string) :=
  [ ("Complete contact information provided", "Add complete contact information");
    ("Work experience section is present", "Add work experience section");
    ("Technical skills are clearly listed", "Create a dedicated skills section");
    ("Uses strong action verbs", "Use more action verbs");
    ("Includes quantifiable achievements", "Add quantifiable achievements") ].

(** The strength that counts the skills. *)
Definition profileNote (n : nat) : string :=
  "Strong technical profile with " ++ decimal n ++ " identified skills".

(** Every rule of the analysis is satisfied, for the skills that were
    extracted. *)
Definition allRulesPass_for (text : string) (skills : list string) : Prop :=
  signals text = mkSignals true true true true true true true
  /\ 5 <= length skills /\ 3 <= actionVerbCount text.

Definition allRulesPass (text : string) : Prop :=
  allRulesPass_for text (extractSkills text).

(** ** Keywords by frequency *)

(** The words that the keyword count reads: the pieces of more than three
    letters of the lower-cased text. *)
Definition wordsOf (text : string) : list string :=
  List.filter (fun word => (3 <? String.length word)%nat)
    (splitSpaces (blankNonLetters (JS.toLowerCase text))).

(** How often [w] is among [words]. *)
Definition occurrences (w : string) (words : list string) : nat :=
  length (List.filter (String.eqb w) words).

(** The distinct words other than the stop words, in the order in which
    the text has them first. *)
Definition candidates (text : string) : list string :=
  List.filter (fun w => negb (existsb (String.eqb w) stopWords))
    (JS.setValues (wordsOf text)).

(** [a] stands before [b] in [l]. *)
Definition precedes {A} (l : list A) (a b : A) : Prop :=
  exists l1 l2 l3, l = l1 ++ a :: l2 ++ b :: l3.

(** The order of a stable sort by descending [key]: the larger key first,
    and of two equal keys the one that [pre] puts first. *)
Definition rankedBefore {A} (key : A -> Z) (pre : A -> A -> Prop) (a b : A) : Prop :=
  (key b < key a)%Z \/ (key a = key b /\ pre a b).

(** The order of the keywords: the more frequent word first, and of two
    words of the same frequency the one that the text has first. *)
Definition ranksBefore (text : string) (a b : string) : Prop :=
  occurrences b (wordsOf text) < occurrences a (wordsOf text)
  \/ (occurrences a (wordsOf text) = occurrences b (wordsOf text)
      /\ precedes (candidates text) a b).

(** The own properties of [wordFreq] after the words [l] were counted,
    when no inherited property was met. *)
Definition countsOf (l : list string) : list (string * freq) :=
  map (fun w => (w, Count (occurrences w l))) (JS.setValues l).

(** ** The recruiter listing *)

(** A ranking entry without its score. *)
Definition unscored (r : Ranked) : Listed :=
  {| listed_id := ranked_id r;
     listed_filename := ranked_filename r;
     listed_candidateName := ranked_candidateName r;
     listed_candidateEmail := ranked_candidateEmail r;
     listed_jobTitle := ranked_jobTitle r;
     listed_uploadedAt := ranked_uploadedAt r;
     listed_email := ranked_email r;
     listed_phone := ranked_phone r;
     listed_skills := ranked_skills r |}.

(** ** Stored resumes *)

(** The documents that a filter admits, when none of its values is
    undefined. *)
Definition meaningOf (q : resumeQuery) : option (ResumeDoc -> bool) :=
  match q with
  | OwnResume id (Some userId) =>
      Some (fun d => Nat.eqb (doc_id d) id && Nat.eqb (doc_userId d) userId)
  | OwnResume _ None => None
  | ResumeWithId id => Some (fun d => Nat.eqb (doc_id d) id)
  end.

(** [docs'] is [docs] without one document that [p] admits. *)
Definition removesOne (p : ResumeDoc -> bool) (docs docs' : list ResumeDoc) : Prop :=
  exists l1 d l2, docs = l1 ++ d :: l2 /\ docs' = l1 ++ l2 /\ p d = true.

(** What the routes need of the [Resume] model: the document that
    [findOne] returns is a document of the collection that the filter
    admits, and [deleteOne] leaves the collection as it is or removes one
    document that the filter admits. *)
Definition collectionModel (R : Resumes) : Prop :=
  (forall q p docs d,
     meaningOf q = Some p -> findOneResume R q docs = Return (Some d) ->
     d ∈ docs /\ p d = true)
  /\ (forall q p docs,
        meaningOf q = Some p ->
        fst (deleteOneResume R q docs) = docs
        \/ removesOne p docs (fst (deleteOneResume R q docs))).

(** ** Letter case *)

(** A pattern none of whose character classes tells a letter from its
    lower-case form. *)
Fixpoint caseBlind (r : Regex.regex) : Prop :=
  match r with
  | Regex.Class p => forall c, p (JS.lowerChar c) = p c
  | Regex.Cat r1 r2 | Regex.Or r1 r2 => caseBlind r1 /\ caseBlind r2
  | Regex.Star r1 => caseBlind r1
  | Regex.Empty | Regex.WordBoundary => True
  end.

(** A position in the lower-cased subject. *)
Definition lowerPos (s : Regex.pos) : Regex.pos :=
  Regex.mkPos (map JS.lowerChar (Regex.before s)) (map JS.lowerChar (Regex.after s)).

(** ** The pages *)

(** [s] ends with [suffix]. *)
Definition endsWith (s suffix : string) : Prop :=
  exists stem : string, s = String.append stem suffix.

(** ** Equal scores *)

(** [a] is ranked before [b]: the larger score first, and of two equal
    scores the one of the resume that was fetched first. *)
Definition scoresBefore (fetched : list Ranked) (a b : Ranked) : Prop :=
  (matchScore b <? matchScore a)%float = true
  \/ ((matchScore a =? matchScore b)%float = true /\ precedes fetched a b).

(** ** Runs of ten digits *)

(** Ten digits that stand alone in a text: no letter, digit or underscore
    stands before or after them. *)
Definition tenDigitsAlone (text : string) : Prop :=
  exists u d v : list ascii,
    list_ascii_of_string text = u ++ d ++ v
    /\ length d = 10 /\ forallb JS.isDigit d = true
    /\ Regex.wordAt (rev u) = false /\ Regex.wordAt v = false.

(* ================================================================== *)
(** * Properties *)
(* ================================================================== *)

(** ** Strings and sets of strings *)

Lemma startsWith_app s p q :
  JS.startsWith s (p ++ q) = true -> JS.startsWith s p = true.
Proof.
  revert s. induction p as [|a p IH]; intros s H; [by destruct s|].
  destruct s as [|b s]; simpl in *; [done|].
  apply andb_prop in H as [-> H]. by apply IH.
Qed.

Lemma includes_app s p q :
  JS.includes s (p ++ q) = true -> JS.includes s p = true.
Proof.
  induction s as [|c s IH]; cbn [JS.includes]; intros H.
  - rewrite orb_false_r in H |- *. by apply startsWith_app with q.
  - apply orb_prop in H as [H|H].
    + by rewrite (startsWith_app _ _ _ H).
    + rewrite (IH H). apply orb_true_r.
Qed.

Lemma existsb_eqb_false (x : string) (l : list string) :
  x ∉ l -> existsb (String.eqb x) l = false.
Proof.
  intros Hx. apply not_true_is_false. intros H.
  apply existsb_exists in H as (y & Hy & Heq).
  apply String.eqb_eq in Heq as <-. by apply Hx, list_elem_of_In.
Qed.

Lemma setAdd_NoDup (l seen : list string) :
  NoDup (seen ++ l) -> JS.setAdd seen l = seen ++ l.
Proof.
  revert seen. induction l as [|x l IH]; intros seen Hnd; simpl.
  - by rewrite app_nil_r.
  - rewrite existsb_eqb_false.
    + rewrite IH; rewrite <- app_assoc; done.
    + apply NoDup_app in Hnd as (_ & Hdis & _). intros Hx.
      apply (Hdis x Hx). left.
Qed.

Lemma setValues_NoDup (l : list string) : NoDup l -> JS.setValues l = l.
Proof. intros H. by apply (setAdd_NoDup l []). Qed.

Lemma filter_sublist_of {A} (f : A -> bool) (l : list A) :
  List.filter f l `sublist_of` l.
Proof.
  induction l as [|x l IH]; simpl; [constructor|].
  destruct (f x); by constructor.
Qed.

Lemma commonSkills_NoDup : NoDup commonSkills.
Proof. apply (bool_decide_unpack _). by vm_compute. Qed.

Lemma extractSkills_filter text :
  extractSkills text =
  take 12 (List.filter (fun skill => JS.includes (JS.toLowerCase text) skill) commonSkills).
Proof.
  unfold extractSkills, JS.slice0. f_equal. apply setValues_NoDup.
  eapply sublist_NoDup; [apply commonSkills_NoDup | apply filter_sublist_of].
Qed.

Lemma elem_of_take_filter {A} (f : A -> bool) (n : nat) (l1 l2 : list A) (x : A) :
  f x = true -> length l1 < n -> x ∈ take n (List.filter f (l1 ++ x :: l2)).
Proof.
  intros Hx Hn. rewrite List.filter_app. simpl. rewrite Hx.
  apply list_elem_of_lookup. exists (length (List.filter f l1)).
  rewrite lookup_take_lt.
  - by rewrite lookup_app_r, Nat.sub_diag.
  - pose proof (List.filter_length_le f l1). lia.
Qed.

(** A substring of a substring is a substring. *)
Lemma startsWith_trans (s a b : string) :
  JS.startsWith s a = true -> JS.startsWith a b = true -> JS.startsWith s b = true.
Proof.
  revert s a. induction b as [|c b IH]; intros s a Hsa Hab; [by destruct s|].
  destruct a as [|x a]; [done|]. destruct s as [|y s]; [done|].
  cbn [JS.startsWith] in *.
  apply andb_prop in Hsa as [H1 Hsa], Hab as [H2 Hab].
  apply Ascii.eqb_eq in H1, H2. subst. rewrite Ascii.eqb_refl. cbn [andb].
  by apply (IH s a).
Qed.

Lemma startsWith_includes (s a b : string) :
  JS.startsWith s a = true -> JS.includes a b = true -> JS.includes s b = true.
Proof.
  revert s. induction a as [|x a IH]; intros s Hsa Hab.
  - cbn [JS.includes] in Hab. rewrite orb_false_r in Hab.
    destruct b; [|done]. by destruct s.
  - cbn [JS.includes] in Hab. apply orb_prop in Hab as [Hab|Hab].
    + destruct s; cbn [JS.includes]; by rewrite (startsWith_trans _ _ _ Hsa Hab).
    + destruct s as [|y s]; [done|]. cbn [JS.startsWith] in Hsa.
      apply andb_prop in Hsa as [_ Hsa]. cbn [JS.includes].
      rewrite (IH s Hsa Hab). apply orb_true_r.
Qed.

Lemma includes_trans (s a b : string) :
  JS.includes s a = true -> JS.includes a b = true -> JS.includes s b = true.
Proof.
  induction s as [|c s IH]; cbn [JS.includes]; intros Hsa Hab.
  - rewrite orb_false_r in Hsa. pose proof (startsWith_includes _ _ _ Hsa Hab) as H.
    by cbn [JS.includes] in H.
  - apply orb_prop in Hsa as [Hsa|Hsa].
    + pose proof (startsWith_includes _ _ _ Hsa Hab) as H. by cbn [JS.includes] in H.
    + rewrite (IH Hsa Hab). apply orb_true_r.
Qed.

Lemma elem_of_take_filter_iff {A} (f : A -> bool) (n : nat) (l1 l2 : list A) (x : A) :
  length l1 < n -> x ∉ l1 -> x ∉ l2 ->
  x ∈ take n (List.filter f (l1 ++ x :: l2)) <-> f x = true.
Proof.
  intros Hn H1 H2. split; [|intros Hx; by apply elem_of_take_filter].
  intros H. apply elem_of_take in H as (i & Hi & _).
  apply list_elem_of_lookup_2, list_elem_of_In, List.filter_In in Hi. tauto.
Qed.

Lemma elem_of_take_filtered {A} (f : A -> bool) (n : nat) (l1 l2 : list A) (x : A) :
  f x = true -> length (List.filter f l1) < n ->
  x ∈ take n (List.filter f (l1 ++ x :: l2)).
Proof.
  intros Hx Hn. rewrite List.filter_app. cbn [List.filter]. rewrite Hx.
  apply list_elem_of_lookup. exists (length (List.filter f l1)).
  rewrite lookup_take_lt by done. by apply list_lookup_middle.
Qed.

(** Of two entries that the filter keeps, the one that stands first in
    the list is within the cut whenever the other is. *)
Lemma take_filter_precedes {A} (f : A -> bool) (n : nat) (l : list A) (a b : A) :
  NoDup l -> precedes l b a -> f b = true ->
  a ∈ take n (List.filter f l) -> b ∈ take n (List.filter f l).
Proof.
  intros Hnd (l1 & l2 & l3 & ->) Hb Ha.
  assert (Hfa : f a = true).
  { apply elem_of_take in Ha as (i & Hi & _).
    apply list_elem_of_lookup_2, list_elem_of_In, List.filter_In in Hi. tauto. }
  apply elem_of_take_filtered; [done|].
  apply elem_of_take in Ha as (i & Hi & Hlt).
  assert (Hnd' : NoDup (List.filter f (l1 ++ b :: l2 ++ a :: l3))).
  { eapply sublist_NoDup; [exact Hnd | apply filter_sublist_of]. }
  assert (Hj : List.filter f (l1 ++ b :: l2 ++ a :: l3)
               !! (length (List.filter f l1) + S (length (List.filter f l2))) = Some a).
  { assert (E : List.filter f (l1 ++ b :: l2 ++ a :: l3)
               = List.filter f l1 ++ b :: List.filter f l2 ++ a :: List.filter f l3).
    { rewrite List.filter_app. cbn [List.filter]. rewrite Hb, List.filter_app.
      cbn [List.filter]. by rewrite Hfa. }
    rewrite E.
    change (List.filter f l1 ++ b :: List.filter f l2 ++ a :: List.filter f l3)
      with (List.filter f l1 ++ (b :: List.filter f l2) ++ a :: List.filter f l3).
    rewrite app_assoc. apply list_lookup_middle.
    rewrite length_app. by cbn [length]. }
  pose proof (NoDup_lookup _ _ _ _ Hnd' Hi Hj) as ->.
  lia.
Qed.

(** ** Skills and keywords *)

Lemma keywordsOf_length text : length (keywordsOf text) <= 8.
Proof.
  unfold keywordsOf, JS.slice0. rewrite length_map, length_take. lia.
Qed.

(** C2. For every text, [extractSkills] returns a list without duplicates
    of at most 12 skills, which is a subsequence of the vocabulary (the
    first 12 entries of the vocabulary that the lower-cased text contains
    as substrings), the keyword list has at most 8 entries, and both are
    functions of the text: equal texts give equal lists. *)
Theorem extractSkills_keywords_bounded (text text' : string) :
  text = text' ->
  (extractSkills text = extractSkills text' /\ keywordsOf text = keywordsOf text')
  /\ NoDup (extractSkills text)
  /\ length (extractSkills text) <= 12
  /\ extractSkills text `sublist_of` commonSkills
  /\ extractSkills text =
       take 12 (List.filter (fun skill => JS.includes (JS.toLowerCase text) skill)
                  commonSkills)
  /\ (forall skill, skill ∈ extractSkills text ->
        skill ∈ commonSkills /\ JS.includes (JS.toLowerCase text) skill = true)
  /\ length (keywordsOf text) <= 8.
Proof.
  intros <-. pose proof (extractSkills_filter text) as Heq.
  assert (Hsub : extractSkills text `sublist_of` commonSkills).
  { rewrite Heq. etrans; [apply sublist_take | apply filter_sublist_of]. }
  repeat split; try done.
  - eapply sublist_NoDup; [apply commonSkills_NoDup | done].
  - rewrite Heq, length_take. lia.
  - by eapply elem_of_sublist.
  - rewrite Heq in H. apply elem_of_take in H as (i & Hi & _).
    apply list_elem_of_lookup_2, list_elem_of_In, List.filter_In in Hi. tauto.
  - apply keywordsOf_length.
Qed.

Lemma extractSkills_keywords_bounded_witness :
  extractSkills "Java and SQL" = ["java"; "sql"]
  /\ length (keywordsOf "Java and SQL") <= 8.
Proof.
  pose proof (extractSkills_keywords_bounded "Java and SQL" "Java and SQL" eq_refl)
    as (_ & _ & _ & _ & _ & _ & Hk).
  split; [reflexivity | exact Hk].
Defined.

(** C10, as amended. The substring test finds every vocabulary entry
    that lies inside an entry found in the lower-cased text; such an entry
    is reported with the longer one when it stands before it in the
    vocabulary, since the cut keeps the first 12 matches. So "java" is
    reported for every text whose lower-case form contains "javascript":
    each of the two entries is reported exactly when the lower-cased text
    contains it, both standing among the first three of the vocabulary. *)
Theorem substring_skills_reported (text : string) :
  (forall a b, JS.includes (JS.toLowerCase text) a = true -> JS.includes a b = true ->
     JS.includes (JS.toLowerCase text) b = true)
  /\ (forall a b, a ∈ extractSkills text -> JS.includes a b = true ->
        precedes commonSkills b a -> b ∈ extractSkills text)
  /\ ("java" ∈ extractSkills text <-> JS.includes (JS.toLowerCase text) "java" = true)
  /\ ("javascript" ∈ extractSkills text
      <-> JS.includes (JS.toLowerCase text) "javascript" = true)
  /\ (JS.includes (JS.toLowerCase text) "javascript" = true ->
      "java" ∈ extractSkills text /\ "javascript" ∈ extractSkills text).
Proof.
  assert (Hjava : "java" ∈ extractSkills text
                  <-> JS.includes (JS.toLowerCase text) "java" = true).
  { rewrite extractSkills_filter.
    apply (elem_of_take_filter_iff _ 12 ["python"]); [simpl; lia|..];
      apply (bool_decide_unpack _); by vm_compute. }
  assert (Hjs : "javascript" ∈ extractSkills text
                <-> JS.includes (JS.toLowerCase text) "javascript" = true).
  { rewrite extractSkills_filter.
    apply (elem_of_take_filter_iff _ 12 ["python"; "java"]); [simpl; lia|..];
      apply (bool_decide_unpack _); by vm_compute. }
  split; [intros a b; apply includes_trans|]. split; [|split; [done|split; [done|]]].
  - intros a b Ha Hab Hpre. rewrite extractSkills_filter in Ha |- *.
    apply (take_filter_precedes _ 12 commonSkills a b); [apply commonSkills_NoDup|done| |done].
    apply elem_of_take in Ha as (i & Hi & _).
    apply list_elem_of_lookup_2, list_elem_of_In, List.filter_In in Hi as [_ Hi].
    by apply (includes_trans _ a b).
  - intros H. split; [|by apply Hjs]. apply Hjava.
    by apply (includes_trans _ "javascript" "java").
Qed.

(** C10, as stated, fails: "sql" lies inside "mysql" and stands after it
    in the vocabulary; in a text with eleven earlier entries and "mysql"
    the cut at 12 keeps "mysql" and drops "sql". *)
Lemma substring_skill_cut :
  "sql" ∈ commonSkills
  /\ JS.includes "mysql" "sql" = true
  /\ "mysql" ∈ extractSkills crowdedText
  /\ JS.includes (JS.toLowerCase crowdedText) "sql" = true
  /\ "sql" ∉ extractSkills crowdedText.
Proof. repeat split; try (apply (bool_decide_unpack _)); by vm_compute. Qed.

(** ** Patterns without metacharacters *)

Lemma allChars_complete (c : ascii) : In c allChars.
Proof.
  unfold allChars. rewrite <- (ascii_nat_embedding c).
  apply in_map, in_seq. pose proof (nat_ascii_bounded c). lia.
Qed.

Lemma forall_chars (P : ascii -> bool) :
  forallb P allChars = true -> forall c, P c = true.
Proof. intros H c. eapply forallb_forall in H; [done | apply allChars_complete]. Qed.

(** A lower-case letter of a pattern with the [i] flag matches the
    characters whose lower-case form it is. *)
Lemma canonicalize_lowerChar (a c : ascii) :
  JS.isLowerAZ a = true ->
  Ascii.eqb (JS.canonicalize c) (JS.canonicalize a) = Ascii.eqb a (JS.lowerChar c).
Proof.
  revert a c.
  assert (H : forallb (fun a => forallb (fun c =>
              implb (JS.isLowerAZ a)
                (Bool.eqb (Ascii.eqb (JS.canonicalize c) (JS.canonicalize a))
                          (Ascii.eqb a (JS.lowerChar c)))) allChars) allChars = true)
    by (vm_compute; reflexivity).
  intros a c Ha.
  pose proof (forall_chars _ (forall_chars _ H a) c) as Hac.
  rewrite Ha in Hac. simpl in Hac. by apply Bool.eqb_prop.
Qed.

Lemma run_LitI (p : string) (s : Regex.pos) :
  match Regex.run (Regex.LitI p) s with
  | [] => prefixI p (Regex.after s) = false
  | _ :: _ => prefixI p (Regex.after s) = true
  end.
Proof.
  revert s. induction p as [|c p IH]; intros [bef aft]; [done|].
  cbn [Regex.LitI Regex.run Regex.ChrI Regex.after Regex.before].
  destruct aft as [|x aft]; [done|]. cbn [prefixI].
  destruct (Ascii.eqb (JS.canonicalize x) (JS.canonicalize c)); [|done].
  cbn [flat_map andb]. rewrite app_nil_r.
  apply (IH (Regex.mkPos (x :: bef) aft)).
Qed.

Lemma search_LitI (p : string) (bef aft : list ascii) :
  is_Some (Regex.search (Regex.LitI p) bef aft) <-> occursI p aft = true.
Proof.
  revert bef. induction aft as [|x aft IH]; intros bef; cbn [Regex.search occursI].
  - pose proof (run_LitI p (Regex.mkPos bef [])) as H0. cbn [Regex.after] in H0.
    destruct (Regex.run _ _); rewrite H0; [|by split; eauto].
    split; [by intros [? ?] | done].
  - pose proof (run_LitI p (Regex.mkPos bef (x :: aft))) as H1. cbn [Regex.after] in H1.
    destruct (Regex.run _ _); rewrite H1; [|by split; eauto].
    rewrite orb_false_l. apply IH.
Qed.

Lemma prefixI_startsWith (p : string) (text : string) :
  lowerWord p = true ->
  prefixI p (list_ascii_of_string text) = JS.startsWith (JS.toLowerCase text) p.
Proof.
  revert text. induction p as [|a p IH]; intros text Hp; [by destruct text|].
  apply andb_prop in Hp as [Ha Hp].
  destruct text as [|c text]; [done|].
  cbn [list_ascii_of_string prefixI JS.toLowerCase JS.startsWith].
  by rewrite canonicalize_lowerChar, IH.
Qed.

Lemma occursI_includes (p : string) (text : string) :
  lowerWord p = true ->
  occursI p (list_ascii_of_string text) = JS.includes (JS.toLowerCase text) p.
Proof.
  intros Hp. induction text as [|c text IH].
  - exact (f_equal (fun b => b || false) (prefixI_startsWith p "" Hp)).
  - pose proof (prefixI_startsWith p (String c text) Hp) as H.
    cbn [list_ascii_of_string occursI JS.toLowerCase JS.includes] in H |- *.
    by rewrite H, IH.
Qed.

(** [new RegExp(w, 'i').test(text)] for a word [w] of lower-case letters
    is the containment of [w] in the lower-cased text. *)
Lemma test_LitI (w text : string) :
  lowerWord w = true ->
  Regex.test (Regex.LitI w) text = JS.includes (JS.toLowerCase text) w.
Proof.
  intros Hw. rewrite <- occursI_includes by done.
  unfold Regex.test, Regex.exec.
  pose proof (search_LitI w [] (list_ascii_of_string text)) as [H1 H2].
  destruct (Regex.search _ _ _) eqn:E.
  - symmetry. apply H1. eauto.
  - destruct (occursI _ _); [|done]. by destruct H2 as [? ?].
Qed.

(** ** The ATS score *)

Lemma actionVerbs_lower : forall verb, In verb actionVerbs -> lowerWord verb = true.
Proof. apply forallb_forall. by vm_compute. Qed.

Lemma actionVerbCount_contained text : actionVerbCount text = verbsContained text.
Proof.
  unfold actionVerbCount, verbsContained. f_equal.
  apply List.filter_ext_in. intros verb Hin.
  apply test_LitI, actionVerbs_lower, Hin.
Qed.

Lemma actionVerbCount_le text : actionVerbCount text <= 10.
Proof. apply (List.filter_length_le _ actionVerbs). Qed.

Lemma atsScore_sum text :
  atsScore text = Z.min (50 + signalBonuses text + actionVerbBonus text) 100.
Proof.
  unfold atsScore, signalBonuses, addIf, bonus.
  destruct (signals text) as [[] [] [] [] [] [] []]; cbn; f_equal; lia.
Qed.

Lemma signalBonuses_range text : (0 <= signalBonuses text <= 45)%Z.
Proof.
  unfold signalBonuses, bonus.
  destruct (signals text) as [[] [] [] [] [] [] []]; cbn; lia.
Qed.

Lemma actionVerbBonus_range text : (0 <= actionVerbBonus text <= 10)%Z.
Proof. unfold actionVerbBonus. lia. Qed.

(** C9. The action-verb bonus is [min(count * 2, 10)], where [count] is
    the number of verbs of the fixed list of ten that occur in the text
    without regard to case (the lower-cased text contains the verb); it
    lies between 0 and 10, and the ATS score adds it to the other
    bonuses before the cut at 100. *)
Theorem actionVerbBonus_min (text : string) :
  actionVerbs = [ "developed"; "created"; "managed"; "led"; "implemented";
                  "designed"; "built"; "improved"; "increased"; "reduced" ]
  /\ actionVerbCount text = verbsContained text
  /\ actionVerbBonus text = Z.min (Z.of_nat (verbsContained text) * 2) 10
  /\ (0 <= actionVerbBonus text <= 10)%Z
  /\ atsScore text = Z.min (50 + signalBonuses text + actionVerbBonus text) 100.
Proof.
  split; [reflexivity|]. split; [apply actionVerbCount_contained|].
  split; [|split; [apply actionVerbBonus_range | apply atsScore_sum]].
  unfold actionVerbBonus. by rewrite actionVerbCount_contained.
Qed.

(** C1. The ATS score of every text is an integer between 50 and 100: the
    base 50 plus bonuses that are never negative, cut at 100; the score of
    the empty text is 50. The analyze route answers either with its error
    for a text of fewer than 100 characters or with the analysis of the
    text, whose [atsScore] is this score. *)
Theorem atsScore_range (text : string) :
  (50 <= atsScore text <= 100)%Z
  /\ atsScore text = Z.min (50 + (signalBonuses text + actionVerbBonus text)) 100
  /\ (0 <= signalBonuses text + actionVerbBonus text <= 55)%Z
  /\ atsScore "" = 50%Z
  /\ (analyzeRoute (Some text) = AnalyzeNoText /\ String.length text < 100
      \/ analyzeRoute (Some text) = AnalyzeOk (analyze text)
         /\ analysis_atsScore (analyze text) = atsScore text
         /\ 100 <= String.length text).
Proof.
  pose proof (signalBonuses_range text). pose proof (actionVerbBonus_range text).
  pose proof (atsScore_sum text) as Hsum.
  split; [lia|]. split; [lia|]. split; [lia|]. split; [by vm_compute|].
  unfold analyzeRoute. destruct (String.length text <? 100)%nat eqn:Hlen.
  - left. rewrite orb_true_r. split; [done | by apply Nat.ltb_lt].
  - right. apply Nat.ltb_ge in Hlen.
    destruct text; [simpl in Hlen; lia|]. by repeat split.
Qed.

(** ** Text extraction and the validation gate *)

Lemma extractTextFromFile_eq X buffer mimetype filename :
  extractTextFromFile X buffer mimetype filename =
  if supportedType mimetype then
    match selectedExtractor X mimetype buffer with
    | Return text => Return text
    | Throw e => Throw (extractionError mimetype e)
    end
  else Throw (Error "Unsupported file type").
Proof.
  unfold extractTextFromFile, supportedType, selectedExtractor, extractionError,
    extractTextFromWord, extractTextFromImage, tryCatch.
  fold (isPdf mimetype) (isWord mimetype) (isImage mimetype).
  destruct (isPdf mimetype), (isWord mimetype), (isImage mimetype); cbn;
    try done; by destruct (_ X buffer).
Qed.

Lemma falsy_length (s : string) : JS.falsy s = true -> String.length s = 0.
Proof. by destruct s. Qed.

Lemma trimEnd_length (s : string) : String.length (JS.trimEnd s) <= String.length s.
Proof.
  induction s as [|c s IH]; [done|]. cbn [JS.trimEnd].
  destruct (JS.trimEnd s) eqn:E.
  - destruct (JS.isSpace c); simpl; lia.
  - cbn [String.length] in *. lia.
Qed.

Lemma trimStart_length (s : string) : String.length (JS.trimStart s) <= String.length s.
Proof.
  induction s as [|c s IH]; [done|]. cbn [JS.trimStart].
  destruct (JS.isSpace c); cbn [String.length]; lia.
Qed.

Lemma trim_length (s : string) : String.length (JS.trim s) <= String.length s.
Proof.
  unfold JS.trim. etrans; [apply trimEnd_length | apply trimStart_length].
Qed.

(** The test of the gate is the comparison of the trimmed length with 50:
    an empty text is covered by it. *)
Lemma gate_test (text : string) :
  JS.falsy text || (String.length (JS.trim text) <? 50)%nat =
  (String.length (JS.trim text) <? 50)%nat.
Proof.
  destruct (JS.falsy text) eqn:E; [|done].
  apply falsy_length in E. pose proof (trim_length text).
  symmetry. apply Nat.ltb_lt. lia.
Qed.

Lemma uploadRoute_text X S user f jobTitle db text :
  extractTextFromFile X (buffer f) (mimetype f) (originalname f) = Return text ->
  uploadRoute X S user (Some f) jobTitle db =
  if (String.length (JS.trim text) <? 50)%nat then (InsufficientText (String.length text), db)
  else match save S db (newResumeOf user f jobTitle text) with
       | Throw e => (UploadFailed (message e), db)
       | Return saved => (Uploaded saved, db ++ [saved])
       end.
Proof. intros H. unfold uploadRoute. by rewrite H, gate_test. Qed.

(** C6. When the extraction returned a text, the upload route answers
    with the insufficient-text error exactly when the trimmed text has
    fewer than 50 characters, and then the collection is unchanged; with
    50 or more, the document goes to [save], and the collection grows by
    the saved document only when [save] succeeds. *)
Theorem upload_gate X S user f jobTitle db text :
  extractTextFromFile X (buffer f) (mimetype f) (originalname f) = Return text ->
  let out := uploadRoute X S user (Some f) jobTitle db in
  (isInsufficientText (fst out) = true <-> String.length (JS.trim text) < 50)
  /\ (String.length (JS.trim text) < 50 ->
      out = (InsufficientText (String.length text), db))
  /\ (50 <= String.length (JS.trim text) ->
      match save S db (newResumeOf user f jobTitle text) with
      | Throw e => out = (UploadFailed (message e), db)
      | Return saved => out = (Uploaded saved, db ++ [saved])
      end)
  /\ (snd out <> db -> 50 <= String.length (JS.trim text)).
Proof.
  intros Hext out. subst out. rewrite (uploadRoute_text _ _ _ _ _ _ _ Hext).
  destruct (String.length (JS.trim text) <? 50)%nat eqn:Hlen.
  - apply Nat.ltb_lt in Hlen. repeat split; try done; try lia.
  - apply Nat.ltb_ge in Hlen.
    destruct (save S db _) eqn:Hsave; repeat split; cbn; try done; try lia.
Qed.

Lemma upload_gate_witness :
  uploadRoute Sample.plainExtractors Sample.listStore Sample.alice
    (Some (fileOf "application/msword" ("  " ++ letters 49 ++ " "))) None []
  = (InsufficientText 52, [])
  /\ length (snd (uploadRoute Sample.plainExtractors Sample.listStore Sample.alice
                    (Some (fileOf "application/msword" (" " ++ letters 50))) None [])) = 1.
Proof.
  split.
  - apply (upload_gate Sample.plainExtractors Sample.listStore Sample.alice
             (fileOf "application/msword" ("  " ++ letters 49 ++ " ")) None []
             ("  " ++ letters 49 ++ " "));
      [reflexivity | vm_compute; lia].
  - vm_compute. reflexivity.
Defined.



(** ** Binary64 facts *)

Lemma ltb_zero_positive (d : float) :
  (0 <? d)%float = true <-> positiveSF (Prim2SF d).
Proof.
  rewrite ltb_spec. change (Prim2SF 0) with (S754_zero false).
  destruct (Prim2SF d) as [[]|[]| |[] m e]; cbn; split; done.
Qed.

(** Rounding keeps the sign it is given. *)
Lemma binary_round_aux_sign prec emax sx mx ex lx :
  match SpecFloat.binary_round_aux prec emax sx mx ex lx with
  | S754_zero s | S754_infinity s | S754_finite s _ _ => s = sx
  | S754_nan => True
  end.
Proof.
  unfold SpecFloat.binary_round_aux.
  destruct (shr_fexp prec emax mx ex lx) as [mrs' e'].
  destruct (shr_fexp prec emax _ e' loc_Exact) as [mrs'' e''].
  destruct (shr_m mrs''); [done| |done]. by destruct (_ <=? _)%Z.
Qed.

Lemma binary_round_sign prec emax sx mx ex :
  match SpecFloat.binary_round prec emax sx mx ex with
  | S754_zero s | S754_infinity s | S754_finite s _ _ => s = sx
  | S754_nan => True
  end.
Proof.
  unfold SpecFloat.binary_round. destruct (shl_align _ _ _) as [mz ez].
  apply binary_round_aux_sign.
Qed.

Lemma binary_normalize_positive prec emax m e :
  positiveSF (SpecFloat.binary_normalize prec emax m e false) -> (0 < m)%Z.
Proof.
  destruct m as [|p|p]; cbn; [done|lia|].
  pose proof (binary_round_sign prec emax true p e) as H.
  destruct (SpecFloat.binary_round prec emax true p e) as [s|s| |s m' e'];
    cbn; try done; by subst s.
Qed.

Lemma SFsub_positive_antisym prec emax (a b : spec_float) :
  positiveSF (SFsub prec emax a b) -> ~ positiveSF (SFsub prec emax b a).
Proof.
  destruct a as [sa|sa| |sa ma ea], b as [sb|sb| |sb mb eb];
    try (destruct sa, sb; cbn; tauto); try (destruct sa; cbn; tauto);
    try (destruct sb; cbn; tauto); try (cbn; tauto).
  cbn [SFsub]. rewrite (Z.min_comm eb ea).
  intros H1 H2. apply binary_normalize_positive in H1, H2. lia.
Qed.

(** When [x - y] is positive, [y - x] is not. *)
Lemma sub_positive_antisym (x y : float) :
  (0 <? x - y)%float = true -> (0 <? y - x)%float = false.
Proof.
  intros H. apply not_true_is_false. revert H.
  rewrite !ltb_zero_positive, !sub_spec. apply SFsub_positive_antisym.
Qed.

Lemma isFinite_spec (x : float) :
  isFinite x = true ->
  match Prim2SF x with
  | S754_zero _ | S754_finite _ _ _ => True
  | _ => False
  end.
Proof.
  unfold isFinite. rewrite ltb_spec, abs_spec.
  change (Prim2SF infinity) with (S754_infinity false).
  by destruct (Prim2SF x) as [[]|[]| |[] m e].
Qed.

Lemma zeroish_zero : zeroish 0.
Proof. by exists false. Qed.

Lemma mul_zeroish_r (x z : float) : isFinite x = true -> zeroish z -> zeroish (x * z).
Proof.
  intros Hx [s Hz]. apply isFinite_spec in Hx. unfold zeroish.
  rewrite mul_spec, Hz. unfold SF64mul. destruct (Prim2SF x); cbn; try done; eauto.
Qed.

Lemma mul_zeroish_l (x z : float) : isFinite x = true -> zeroish z -> zeroish (z * x).
Proof.
  intros Hx [s Hz]. apply isFinite_spec in Hx. unfold zeroish.
  rewrite mul_spec, Hz. unfold SF64mul. destruct (Prim2SF x); cbn; try done; eauto.
Qed.

(** Adding a zero of either sign to [+0] gives [+0]. *)
Lemma add_zero_zeroish (z : float) : zeroish z -> (0 + z)%float = 0%float.
Proof.
  intros [s Hz]. apply Prim2SF_inj. rewrite add_spec, Hz.
  change (Prim2SF 0) with (S754_zero false). by destruct s.
Qed.

(** [+0] divided by a positive number or [+infinity] is [+0]. *)
Lemma div_zero_positive (d : float) : (0 <? d)%float = true -> (0 / d)%float = 0%float.
Proof.
  intros H. apply ltb_zero_positive in H. apply Prim2SF_inj. rewrite div_spec.
  change (Prim2SF 0) with (S754_zero false).
  by destruct (Prim2SF d) as [[]|[]| |[] m e].
Qed.

Section Binary64.
Local Open Scope Z_scope.

Lemma digits2_pos_bounds (m : positive) :
  2 ^ (Z.pos (digits2_pos m) - 1) <= Z.pos m < 2 ^ Z.pos (digits2_pos m).
Proof.
  induction m as [m IH|m IH|]; cbn [digits2_pos]; [| |cbn; lia];
    rewrite Pos2Z.inj_succ;
    replace (Z.succ (Z.pos (digits2_pos m)) - 1) with (Z.succ (Z.pos (digits2_pos m) - 1)) by lia;
    rewrite !Z.pow_succ_r by lia; lia.
Qed.

Lemma iter_xO_value (m d : positive) :
  Z.pos (Pos.iter xO m d) = Z.pos m * 2 ^ Z.pos d.
Proof.
  apply (Pos.iter_ind _ xO m (fun p r => Z.pos r = Z.pos m * 2 ^ Z.pos p)).
  - lia.
  - intros p r IH. rewrite Pos2Z.inj_succ, Z.pow_succ_r by lia. lia.
Qed.

Lemma shl_align_value (m : positive) (e ez : Z) :
  ez <= e -> Z.pos (fst (shl_align m e ez)) = Z.pos m * 2 ^ (e - ez).
Proof.
  intros H. unfold shl_align. destruct (ez - e) as [|d|d] eqn:E; cbn [fst].
  - replace (e - ez) with 0 by lia. lia.
  - lia.
  - rewrite iter_xO_value. f_equal. f_equal. lia.
Qed.

Lemma bounded_digits (m : positive) (e : Z) :
  bounded prec emax m e = true ->
  Z.pos (digits2_pos m) <= 53 /\ -1074 <= e
  /\ (-1074 < e -> Z.pos (digits2_pos m) = 53).
Proof.
  unfold bounded, canonical_mantissa, fexp, SpecFloat.emin, prec, emax.
  intros H. apply andb_prop in H as [H _]. apply Z.eqb_eq in H. lia.
Qed.

(** Of two valid mantissas the one with the larger exponent stands for
    the larger number. *)
Lemma larger_exponent (m1 m2 : positive) (e1 e2 : Z) :
  bounded prec emax m1 e1 = true -> bounded prec emax m2 e2 = true ->
  e1 < e2 -> Z.pos m1 < Z.pos m2 * 2 ^ (e2 - e1).
Proof.
  intros H1 H2 He.
  apply bounded_digits in H1 as (Hd1 & He1 & _), H2 as (_ & _ & Hd2).
  specialize (Hd2 ltac:(lia)).
  pose proof (digits2_pos_bounds m1) as [_ Hm1].
  pose proof (digits2_pos_bounds m2) as [Hm2 _]. rewrite Hd2 in Hm2.
  assert (Z.pos m1 < 2 ^ 53).
  { eapply Z.lt_le_trans; [exact Hm1 | apply Z.pow_le_mono_r; lia]. }
  assert (2 ^ 1 <= 2 ^ (e2 - e1)) by (apply Z.pow_le_mono_r; lia).
  change (2 ^ (53 - 1)) with 4503599627370496 in Hm2.
  change (2 ^ 53) with 9007199254740992 in *. change (2 ^ 1) with 2 in *.
  nia.
Qed.
End Binary64.

Section Rounding64.
Local Open Scope Z_scope.

(** One shift to the right of a mantissa of at least two digits leaves a
    positive mantissa with one digit less. *)
Lemma shr_1_digits (mrs : shr_record) :
  0 < shr_m mrs -> 1 < Zdigits2 (shr_m mrs) ->
  0 < shr_m (shr_1 mrs) /\ Zdigits2 (shr_m (shr_1 mrs)) = Zdigits2 (shr_m mrs) - 1.
Proof.
  destruct mrs as [m r s]. cbn [shr_m].
  destruct m as [|[p|p|]|p]; cbn; lia.
Qed.

Lemma iter_shr_1_digits (p : positive) (mrs : shr_record) :
  0 < shr_m mrs -> Z.pos p < Zdigits2 (shr_m mrs) ->
  0 < shr_m (SpecFloat.iter_pos shr_1 p mrs)
  /\ Zdigits2 (shr_m (SpecFloat.iter_pos shr_1 p mrs)) = Zdigits2 (shr_m mrs) - Z.pos p.
Proof.
  revert mrs. induction p as [p IH|p IH|]; intros mrs Hm Hd; cbn [SpecFloat.iter_pos].
  - destruct (shr_1_digits mrs) as [H1 D1]; [lia..|].
    destruct (IH (shr_1 mrs)) as [H2 D2]; [lia..|].
    destruct (IH (SpecFloat.iter_pos shr_1 p (shr_1 mrs))) as [H3 D3]; [lia..|]. lia.
  - destruct (IH mrs) as [H2 D2]; [lia..|].
    destruct (IH (SpecFloat.iter_pos shr_1 p mrs)) as [H3 D3]; [lia..|]. lia.
  - apply shr_1_digits; lia.
Qed.

Lemma shr_m_of_loc (m : Z) (l : location) : shr_m (shr_record_of_loc m l) = m.
Proof. by destruct l as [|[]]. Qed.

(** Above the least exponent, the shift that brings a positive mantissa
    to its format leaves it positive. *)
Lemma shr_fexp_positive (m e : Z) (l : location) :
  0 < m -> -1074 <= e ->
  0 < shr_m (fst (shr_fexp prec emax m e l)) /\ -1074 <= snd (shr_fexp prec emax m e l).
Proof.
  intros Hm He. unfold shr_fexp, shr, fexp, SpecFloat.emin, prec, emax.
  destruct (Z.max (Zdigits2 m + e - 53) (3 - 1024 - 53) - e) as [|p|p] eqn:E;
    cbn [fst snd]; rewrite ?shr_m_of_loc; try lia.
  split; [|lia].
  apply iter_shr_1_digits; rewrite shr_m_of_loc; [lia|].
  lia.
Qed.

Lemma round_nearest_even_positive (m : Z) (l : location) :
  0 < m -> 0 < round_nearest_even m l.
Proof. intros H. destruct l as [|[]]; cbn; try lia. destruct (Z.even m); lia. Qed.

Lemma binary_round_aux_positive (m e : Z) (l : location) :
  0 < m -> -1074 <= e ->
  positiveSF (SpecFloat.binary_round_aux prec emax false m e l).
Proof.
  intros Hm He. unfold SpecFloat.binary_round_aux.
  destruct (shr_fexp_positive m e l Hm He) as [H1 E1].
  destruct (shr_fexp prec emax m e l) as [mrs' e']. cbn [fst snd] in H1, E1.
  pose proof (round_nearest_even_positive _ (loc_of_shr_record mrs') H1) as H2.
  destruct (shr_fexp_positive _ e' loc_Exact H2 E1) as [H3 _].
  destruct (shr_fexp prec emax _ e' loc_Exact) as [mrs'' e'']. cbn [fst] in H3.
  destruct (shr_m mrs''); [lia| |lia]. by destruct (_ <=? _).
Qed.

Lemma binary_round_positive (m : positive) (e : Z) :
  -1074 <= e -> positiveSF (SpecFloat.binary_round prec emax false m e).
Proof.
  intros He. unfold SpecFloat.binary_round.
  destruct (shl_align m e _) as [mz ez] eqn:E.
  apply binary_round_aux_positive; [lia|].
  unfold shl_align in E. unfold fexp, SpecFloat.emin, prec, emax in E.
  destruct (_ - e) eqn:E'; inversion E; lia.
Qed.

Lemma binary_normalize_positive_iff (m e : Z) :
  -1074 <= e ->
  positiveSF (SpecFloat.binary_normalize prec emax m e false) <-> 0 < m.
Proof.
  intros He. split; [apply binary_normalize_positive|].
  destruct m; [lia| |lia]. intros _. by apply binary_round_positive.
Qed.
End Rounding64.

Section Order64.
Local Open Scope Z_scope.

Lemma compare_cont_Eq (m1 m2 : positive) :
  Pos.compare_cont Eq m1 m2 = (Z.pos m1 ?= Z.pos m2).
Proof. reflexivity. Qed.

(** The difference of two valid finite numbers, the second below the
    first, is positive before rounding. *)
Lemma SFltb_difference (sa sb : bool) (ma mb : positive) (ea eb : Z) :
  bounded prec emax ma ea = true -> bounded prec emax mb eb = true ->
  SFltb (S754_finite sb mb eb) (S754_finite sa ma ea) = true ->
  let ez := Z.min ea eb in
  0 < cond_Zopp sa (Z.pos (fst (shl_align ma ea ez)))
      - cond_Zopp sb (Z.pos (fst (shl_align mb eb ez))).
Proof.
  intros Va Vb Hlt ez.
  rewrite (shl_align_value ma ea ez), (shl_align_value mb eb ez) by (unfold ez; lia).
  pose proof (Z.pow_pos_nonneg 2 (ea - ez) ltac:(lia) ltac:(unfold ez; lia)).
  pose proof (Z.pow_pos_nonneg 2 (eb - ez) ltac:(lia) ltac:(unfold ez; lia)).
  unfold SFltb, SFcompare in Hlt. rewrite !compare_cont_Eq in Hlt.
  destruct sa, sb; cbn [cond_Zopp]; try done; try nia.
  - (* both negative *)
    destruct (Z.compare_spec eb ea) as [E|E|E]; try done.
    + subst eb. replace (ea - ez) with 0 by (unfold ez; lia). rewrite Z.pow_0_r.
      destruct (Z.compare_spec (Z.pos mb) (Z.pos ma)); try done. lia.
    + pose proof (larger_exponent ma mb ea eb Va Vb E).
      replace ez with ea by (unfold ez; lia). rewrite Z.sub_diag, Z.pow_0_r. lia.
  - (* both positive *)
    destruct (Z.compare_spec eb ea) as [E|E|E]; try done.
    + subst eb. replace (ea - ez) with 0 by (unfold ez; lia). rewrite Z.pow_0_r.
      destruct (Z.compare_spec (Z.pos mb) (Z.pos ma)); try done. lia.
    + pose proof (larger_exponent mb ma eb ea Vb Va E).
      replace ez with eb by (unfold ez; lia). rewrite Z.sub_diag, Z.pow_0_r. lia.
Qed.

Lemma SFltb_SFsub_positive (a b : spec_float) :
  valid_binary a = true -> valid_binary b = true ->
  SFltb b a = true -> positiveSF (SF64sub a b).
Proof.
  intros Va Vb Hlt.
  destruct a as [sa|sa| |sa ma ea], b as [sb|sb| |sb mb eb];
    try (by destruct sa, sb); try (by destruct sa); try (by destruct sb); try done.
  unfold SF64sub, SFsub. cbn in Va, Vb.
  apply binary_normalize_positive_iff.
  - apply bounded_digits in Va, Vb. lia.
  - by apply SFltb_difference.
Qed.
End Order64.

(** When [y] is below [x], the difference [x - y] is positive: it neither
    vanishes nor changes sign in rounding. *)
Lemma ltb_sub_positive (x y : float) :
  (y <? x)%float = true -> (0 <? x - y)%float = true.
Proof.
  rewrite ltb_spec, ltb_zero_positive, sub_spec.
  apply SFltb_SFsub_positive; apply Prim2SF_valid.
Qed.

(** An entry that the comparator keeps before another has no smaller
    score. *)
Lemma sub_not_positive (x y : float) :
  (0 <? x - y)%float = false -> (y <? x)%float = false.
Proof.
  intros H. apply not_true_is_false. intros Hlt.
  apply ltb_sub_positive in Hlt. congruence.
Qed.

Section Total64.
Local Open Scope Z_scope.

Lemma scaled_finite_bounds (m : positive) (e : Z) :
  bounded prec emax m e = true ->
  0 < Z.pos m * 2 ^ (e + 1074) < 2 ^ 2200.
Proof.
  intros V. pose proof (bounded_digits m e V) as (Hd & He & _).
  unfold bounded, prec, emax in V. apply andb_prop in V as [_ V]. apply Z.leb_le in V.
  pose proof (digits2_pos_bounds m) as [_ Hm].
  assert (Z.pos m < 2 ^ 53).
  { eapply Z.lt_le_trans; [exact Hm | apply Z.pow_le_mono_r; lia]. }
  pose proof (Z.pow_pos_nonneg 2 (e + 1074) ltac:(lia) ltac:(lia)).
  split; [lia|].
  apply Z.lt_le_trans with (2 ^ 53 * 2 ^ (e + 1074)); [nia|].
  rewrite <- Z.pow_add_r by lia. apply Z.pow_le_mono_r; lia.
Qed.

Lemma scaled_exponent_lt (m1 m2 : positive) (e1 e2 : Z) :
  bounded prec emax m1 e1 = true -> bounded prec emax m2 e2 = true ->
  e1 < e2 -> Z.pos m1 * 2 ^ (e1 + 1074) < Z.pos m2 * 2 ^ (e2 + 1074).
Proof.
  intros V1 V2 He. pose proof (larger_exponent m1 m2 e1 e2 V1 V2 He) as Hlt.
  pose proof (bounded_digits m1 e1 V1) as (_ & He1 & _).
  replace (e2 + 1074) with ((e2 - e1) + (e1 + 1074)) by lia.
  rewrite (Z.pow_add_r 2 (e2 - e1) (e1 + 1074)) by lia.
  pose proof (Z.pow_pos_nonneg 2 (e1 + 1074) ltac:(lia) ltac:(lia)). nia.
Qed.

Lemma scaled_mantissa_compare (m1 m2 : positive) (e : Z) :
  -1074 <= e ->
  (Z.pos m1 * 2 ^ (e + 1074) ?= Z.pos m2 * 2 ^ (e + 1074)) = (Z.pos m1 ?= Z.pos m2).
Proof.
  intros He. pose proof (Z.pow_pos_nonneg 2 (e + 1074) ltac:(lia) ltac:(lia)).
  destruct (Z.compare_spec (Z.pos m1) (Z.pos m2)) as [E|E|E].
  - rewrite E. apply Z.compare_refl.
  - apply Z.compare_lt_iff. nia.
  - apply Z.compare_gt_iff. nia.
Qed.

(** On valid numbers the comparison of binary64 is the comparison of the
    scaled values. *)
Lemma SFcompare_scaled (a b : spec_float) :
  valid_binary a = true -> valid_binary b = true ->
  a <> S754_nan -> b <> S754_nan ->
  SFcompare a b = Some (scaled a ?= scaled b).
Proof.
  intros Va Vb Na Nb.
  assert (Hinf : 0 < 2 ^ 2200) by (apply Z.pow_pos_nonneg; lia).
  destruct a as [sa|sa| |sa ma ea], b as [sb|sb| |sb mb eb]; try done;
    cbn [scaled SFcompare]; cbn [valid_binary] in Va, Vb;
    try pose proof (scaled_finite_bounds _ _ Va);
    try pose proof (scaled_finite_bounds _ _ Vb);
    try (destruct sa); try (destruct sb); cbn [cond_Zopp];
    try (f_equal; symmetry;
         first [ apply Z.compare_eq_iff; lia
               | apply Z.compare_lt_iff; lia
               | apply Z.compare_gt_iff; lia ]).
  - (* both negative *)
    rewrite compare_cont_Eq. pose proof (bounded_digits _ _ Va) as (_ & Hea & _).
    f_equal. destruct (Z.compare_spec ea eb) as [E|E|E].
    + subst eb. pose proof (Z.pow_pos_nonneg 2 (ea + 1074) ltac:(lia) ltac:(lia)).
      destruct (Z.compare_spec (Z.pos ma) (Z.pos mb)) as [E|E|E]; cbn [CompOpp]; symmetry;
        [apply Z.compare_eq_iff | apply Z.compare_gt_iff | apply Z.compare_lt_iff]; nia.
    + symmetry. apply Z.compare_gt_iff.
      pose proof (scaled_exponent_lt ma mb ea eb Va Vb E). lia.
    + symmetry. apply Z.compare_lt_iff.
      pose proof (scaled_exponent_lt mb ma eb ea Vb Va E). lia.
  - (* both positive *)
    rewrite compare_cont_Eq. pose proof (bounded_digits _ _ Va) as (_ & Hea & _).
    f_equal. destruct (Z.compare_spec ea eb) as [E|E|E].
    + subst eb. by rewrite scaled_mantissa_compare.
    + symmetry. apply Z.compare_lt_iff.
      pose proof (scaled_exponent_lt ma mb ea eb Va Vb E). lia.
    + symmetry. apply Z.compare_gt_iff.
      pose proof (scaled_exponent_lt mb ma eb ea Vb Va E). lia.
Qed.

Lemma isNaN_false (x : float) : isNaN x = false -> Prim2SF x <> S754_nan.
Proof.
  unfold isNaN. rewrite FloatAxioms.eqb_spec. intros H E. rewrite E in H. discriminate.
Qed.

Lemma compare_scaled (x y : float) :
  isNaN x = false -> isNaN y = false ->
  SFcompare (Prim2SF x) (Prim2SF y) = Some (scaled (Prim2SF x) ?= scaled (Prim2SF y)).
Proof.
  intros Hx Hy. apply SFcompare_scaled; auto using Prim2SF_valid, isNaN_false.
Qed.

Lemma ltb_scaled (x y : float) :
  isNaN x = false -> isNaN y = false ->
  (x <? y)%float = (scaled (Prim2SF x) <? scaled (Prim2SF y)).
Proof.
  intros Hx Hy. rewrite FloatAxioms.ltb_spec. unfold SFltb, Z.ltb.
  by rewrite compare_scaled.
Qed.

Lemma leb_scaled (x y : float) :
  isNaN x = false -> isNaN y = false ->
  (x <=? y)%float = (scaled (Prim2SF x) <=? scaled (Prim2SF y)).
Proof.
  intros Hx Hy. rewrite FloatAxioms.leb_spec. unfold SFleb, Z.leb.
  rewrite compare_scaled by done. by destruct (_ ?= _).
Qed.
End Total64.

(** ** The match score *)

Lemma calculateMatchScore_returns N resumeText jobDescription :
  calculateMatchScore N resumeText jobDescription =
  Return (matchScoreOf N resumeText jobDescription).
Proof.
  unfold matchScoreOf, calculateMatchScore, tryCatch.
  by destruct (scoreOrThrow N resumeText jobDescription).
Qed.

Lemma calculateMatchScore_terms N resumeText jobDescription terms1 terms2 :
  resumeText <> "" -> jobDescription <> "" ->
  listTerms N (JS.toLowerCase resumeText) (JS.toLowerCase jobDescription)
    = Return (terms1, terms2) ->
  calculateMatchScore N resumeText jobDescription = Return (cosineScore terms1 terms2).
Proof.
  intros H1 H2 Hterms. unfold calculateMatchScore, scoreOrThrow.
  destruct resumeText; [done|]. destruct jobDescription; [done|].
  cbn [JS.falsy orb]. by rewrite Hterms.
Qed.

Lemma at_middle (pre : list float) (x : float) (l : list float) :
  Num.at_ (pre ++ x :: l) (length pre) = x.
Proof. unfold Num.at_. by rewrite List.app_nth2, Nat.sub_diag by lia. Qed.

Lemma dotProduct_from (g1 g2 : string -> float) (names pre : list string) (acc : float) :
  Num.reduceFrom
    (fun sum val i => (sum + val * Num.at_ (map g2 (pre ++ names)) i)%float)
    (map g1 names) (length pre) acc
  = fold_left (fun sum name => (sum + g1 name * g2 name)%float) names acc.
Proof.
  revert pre acc. induction names as [|name names IH]; intros pre acc; [done|].
  cbn [map Num.reduceFrom fold_left].
  replace (Num.at_ (map g2 (pre ++ name :: names)) (length pre)) with (g2 name).
  - specialize (IH (pre ++ [name]) (acc + g1 name * g2 name)%float).
    rewrite <- app_assoc, length_app in IH. cbn in IH.
    by rewrite Nat.add_1_r in IH.
  - rewrite map_app. cbn [map].
    by rewrite <- (length_map g2 pre), at_middle.
Qed.

Lemma dotProduct_map (g1 g2 : string -> float) (names : list string) :
  dotProduct (map g1 names) (map g2 names)
  = fold_left (fun sum name => (sum + g1 name * g2 name)%float) names 0%float.
Proof. apply (dotProduct_from g1 g2 names []). Qed.

Lemma sumOfSquares_from (g : string -> float) (names : list string) (i : nat) (acc : float) :
  Num.reduceFrom (fun sum val (_ : nat) => (sum + val * val)%float) (map g names) i acc
  = fold_left (fun sum name => (sum + g name * g name)%float) names acc.
Proof.
  revert i acc. induction names as [|name names IH]; intros i acc; [done|].
  cbn [map Num.reduceFrom fold_left]. apply IH.
Qed.

(** The dot product of a vector with itself is its sum of squares: the
    same additions and multiplications in the same order. *)
Lemma dotProduct_self (g : string -> float) (names : list string) :
  dotProduct (map g names) (map g names) = sumOfSquares (map g names).
Proof.
  rewrite dotProduct_map. unfold sumOfSquares, Num.reduce.
  by rewrite sumOfSquares_from.
Qed.

Lemma cosineScore_self (terms : list Term) : cosineScore terms terms = selfScore terms.
Proof.
  unfold cosineScore, selfScore, vectorOf, magnitude.
  by rewrite dotProduct_self, orb_diag.
Qed.

Lemma selfScore_nil : selfScore [] = 0%float.
Proof. reflexivity. Qed.


Section Magnitudes64.
Local Open Scope Z_scope.

Lemma shr_1_nonneg (mrs : shr_record) : 0 <= shr_m mrs -> 0 <= shr_m (shr_1 mrs).
Proof. destruct mrs as [m r s]. cbn [shr_m]. destruct m as [|[p|p|]|p]; cbn; lia. Qed.

Lemma iter_shr_1_nonneg (p : positive) (mrs : shr_record) :
  0 <= shr_m mrs -> 0 <= shr_m (SpecFloat.iter_pos shr_1 p mrs).
Proof.
  revert mrs. induction p as [p IH|p IH|]; intros mrs H; cbn [SpecFloat.iter_pos];
    auto using shr_1_nonneg.
Qed.

Lemma shr_fexp_nonneg (m e : Z) (l : location) :
  0 <= m -> 0 <= shr_m (fst (shr_fexp prec emax m e l)).
Proof.
  intros H. unfold shr_fexp, shr. destruct (_ - e); cbn [fst]; rewrite ?shr_m_of_loc; [done| |done].
  apply iter_shr_1_nonneg. by rewrite shr_m_of_loc.
Qed.

Lemma round_nearest_even_nonneg (m : Z) (l : location) :
  0 <= m -> 0 <= round_nearest_even m l.
Proof. intros H. destruct l as [|[]]; cbn; try lia. destruct (Z.even m); lia. Qed.

(** Rounding a mantissa that is not negative gives no [NaN]. *)
Lemma binary_round_aux_nonneg (m e : Z) (l : location) :
  0 <= m -> nonnegSF (SpecFloat.binary_round_aux prec emax false m e l).
Proof.
  intros H. unfold SpecFloat.binary_round_aux.
  pose proof (shr_fexp_nonneg m e l H) as H1.
  destruct (shr_fexp prec emax m e l) as [mrs' e']. cbn [fst] in H1.
  pose proof (round_nearest_even_nonneg _ (loc_of_shr_record mrs') H1) as H2.
  pose proof (shr_fexp_nonneg _ e' loc_Exact H2) as H3.
  destruct (shr_fexp prec emax _ e' loc_Exact) as [mrs'' e'']. cbn [fst] in H3.
  destruct (shr_m mrs''); [done| |lia]. by destruct (_ <=? _).
Qed.

Lemma binary_round_nonneg (m : positive) (e : Z) :
  nonnegSF (SpecFloat.binary_round prec emax false m e).
Proof.
  unfold SpecFloat.binary_round. destruct (shl_align m e _) as [mz ez].
  apply binary_round_aux_nonneg. lia.
Qed.

Lemma SFmul_self_nonneg (a : spec_float) :
  match a with S754_zero _ | S754_finite _ _ _ => True | _ => False end ->
  nonnegSF (SF64mul a a).
Proof.
  destruct a as [s|s| |s m e]; try done; intros _; unfold SF64mul; cbn [SFmul].
  - by destruct s.
  - replace (xorb s s) with false by (by destruct s).
    apply binary_round_aux_nonneg. lia.
Qed.

Lemma SFadd_nonneg (a b : spec_float) :
  nonnegSF a -> nonnegSF b -> nonnegSF (SF64add a b).
Proof.
  destruct a as [[]|[]| |[] ma ea], b as [[]|[]| |[] mb eb]; try done; intros _ _.
  unfold SF64add. cbn [SFadd cond_Zopp].
  destruct (fst (shl_align ma ea _)), (fst (shl_align mb eb _));
    cbn [Z.add SpecFloat.binary_normalize]; apply binary_round_nonneg.
Qed.

(** The exponent does not go down in the shift to the format, and it
    ends at the least exponent or above. *)
Lemma shr_fexp_exponent (m e : Z) (l : location) :
  e <= snd (shr_fexp prec emax m e l) /\ -1074 <= snd (shr_fexp prec emax m e l).
Proof.
  unfold shr_fexp, shr, fexp, SpecFloat.emin, prec, emax.
  destruct (Z.max (Zdigits2 m + e - 53) (3 - 1024 - 53) - e) eqn:E; cbn [snd]; lia.
Qed.

Lemma binary_round_aux_exponent (m e : Z) (l : location) (s : bool) (m' : positive) (e' : Z) :
  SpecFloat.binary_round_aux prec emax false m e l = S754_finite s m' e' -> e <= e'.
Proof.
  unfold SpecFloat.binary_round_aux.
  pose proof (shr_fexp_exponent m e l) as [H1 _].
  destruct (shr_fexp prec emax m e l) as [mrs1 e1]. cbn [snd] in H1.
  pose proof (shr_fexp_exponent
                (round_nearest_even (shr_m mrs1) (loc_of_shr_record mrs1)) e1 loc_Exact)
    as [H2 _].
  destruct (shr_fexp prec emax _ e1 loc_Exact) as [mrs2 e2]. cbn [snd] in H2.
  destruct (shr_m mrs2); [done| |done].
  destruct (_ <=? _); [|done]. intros [= _ _ <-]. lia.
Qed.

(** A mantissa with more digits than the shift to the least exponent
    takes away stays positive. *)
Lemma shr_fexp_positive_digits (m e : Z) (l : location) :
  0 < m -> -1074 - e < Zdigits2 m ->
  0 < shr_m (fst (shr_fexp prec emax m e l)).
Proof.
  intros Hm Hd. unfold shr_fexp, shr, fexp, SpecFloat.emin, prec, emax.
  destruct (Z.max (Zdigits2 m + e - 53) (3 - 1024 - 53) - e) as [|p|p] eqn:E;
    cbn [fst]; rewrite ?shr_m_of_loc; try lia.
  apply iter_shr_1_digits; rewrite shr_m_of_loc; lia.
Qed.

Lemma binary_round_aux_positive_digits (m e : Z) (l : location) :
  0 < m -> -1074 - e < Zdigits2 m ->
  positiveSF (SpecFloat.binary_round_aux prec emax false m e l).
Proof.
  intros Hm Hd. unfold SpecFloat.binary_round_aux.
  pose proof (shr_fexp_positive_digits m e l Hm Hd) as H1.
  pose proof (shr_fexp_exponent m e l) as [_ E1].
  destruct (shr_fexp prec emax m e l) as [mrs' e']. cbn [fst snd] in H1, E1.
  pose proof (round_nearest_even_positive _ (loc_of_shr_record mrs') H1) as H2.
  destruct (shr_fexp_positive _ e' loc_Exact H2 E1) as [H3 _].
  destruct (shr_fexp prec emax _ e' loc_Exact) as [mrs'' e'']. cbn [fst] in H3.
  destruct (shr_m mrs''); [lia| |lia]. by destruct (_ <=? _).
Qed.
End Magnitudes64.

Section Roots64.
Local Open Scope Z_scope.

Lemma SFsqrt_core_positive (m : positive) (e : Z) :
  -1074 <= e ->
  let '(q, e', _) := SFsqrt_core_binary prec emax (Z.pos m) e in
  0 < q /\ -589 <= e'.
Proof.
  intros He. unfold SFsqrt_core_binary, fexp, SpecFloat.emin, prec, emax.
  cbn [Zdigits2]. rewrite !Z.div2_div.
  set (e' := Z.min _ _).
  assert (He' : -589 <= e' /\ 0 <= e - 2 * e').
  { unfold e'. pose proof (Pos2Z.is_pos (digits2_pos m)).
    pose proof (Z.div_mod e 2 ltac:(lia)). pose proof (Z.mod_pos_bound e 2 ltac:(lia)).
    pose proof (Z.div_mod (Z.pos (digits2_pos m) + e + 1) 2 ltac:(lia)).
    pose proof (Z.mod_pos_bound (Z.pos (digits2_pos m) + e + 1) 2 ltac:(lia)). lia. }
  destruct He' as [He1 Hs].
  set (m' := match e - 2 * e' with 0 => Z.pos m | Z.pos _ => _ | Z.neg _ => 0 end).
  assert (Hm' : 0 < m').
  { unfold m'. destruct (e - 2 * e') as [|p|p] eqn:E; [lia| |lia].
    rewrite Z.shiftl_mul_pow2 by lia.
    pose proof (Z.pow_pos_nonneg 2 (Z.pos p) ltac:(lia) ltac:(lia)). nia. }
  pose proof (Z.sqrtrem_sqrt m') as Hq. destruct (Z.sqrtrem m') as [q r]. cbn [fst] in Hq.
  split; [|done]. rewrite Hq. by apply Z.sqrt_pos.
Qed.

(** The square root of a positive number is not below [2^-537]. *)
Lemma SFsqrt_rootSized (m : positive) (e : Z) :
  bounded prec emax m e = true -> rootSized (SF64sqrt (S754_finite false m e)).
Proof.
  intros V. apply bounded_digits in V as (_ & He & _).
  unfold SF64sqrt. cbn [SFsqrt].
  pose proof (SFsqrt_core_positive m e He) as H.
  destruct (SFsqrt_core_binary prec emax (Z.pos m) e) as [[q e'] l]. destruct H as [Hq He'].
  pose proof (binary_round_aux_positive q e' l Hq ltac:(lia)) as Hpos.
  pose proof (binary_round_aux_exponent q e' l) as Hexp.
  destruct (SpecFloat.binary_round_aux prec emax false q e' l) as [s|[]| |[] m1 e1];
    try done. cbn. specialize (Hexp false m1 e1 eq_refl). lia.
Qed.

Lemma SFsqrt_nonneg (a : spec_float) :
  valid_binary a = true -> nonnegSF a ->
  SF64sqrt a = S754_zero false \/ rootSized (SF64sqrt a).
Proof.
  destruct a as [[]|[]| |[] m e]; try done; intros V _.
  - by left.
  - by right.
  - right. by apply SFsqrt_rootSized.
Qed.

Lemma mantissa_product_digits (m1 m2 : positive) :
  Z.pos (digits2_pos m1) = 53 -> Z.pos (digits2_pos m2) = 53 ->
  104 < Z.pos (digits2_pos (m1 * m2)).
Proof.
  intros D1 D2.
  pose proof (digits2_pos_bounds m1) as [L1 _]. pose proof (digits2_pos_bounds m2) as [L2 _].
  pose proof (digits2_pos_bounds (m1 * m2)) as [_ U]. rewrite D1 in L1. rewrite D2 in L2.
  change (2 ^ (53 - 1)) with 4503599627370496 in L1, L2.
  destruct (Z_lt_le_dec 104 (Z.pos (digits2_pos (m1 * m2)))) as [|Hle]; [done|].
  assert (2 ^ Z.pos (digits2_pos (m1 * m2)) <= 2 ^ 104) by (apply Z.pow_le_mono_r; lia).
  change (2 ^ 104) with (4503599627370496 * 4503599627370496) in *.
  rewrite Pos2Z.inj_mul in U. nia.
Qed.

(** The product of two such roots is a positive number: it does not
    vanish in rounding. *)
Lemma SFmul_rootSized (a b : spec_float) :
  valid_binary a = true -> valid_binary b = true ->
  rootSized a -> rootSized b -> positiveSF (SF64mul a b).
Proof.
  destruct a as [[]|[]| |[] ma ea], b as [[]|[]| |[] mb eb]; try done.
  cbn [valid_binary rootSized]. intros Va Vb Ha Hb.
  unfold SF64mul. cbn [SFmul xorb].
  apply bounded_digits in Va as (_ & _ & Da), Vb as (_ & _ & Db).
  pose proof (mantissa_product_digits ma mb ltac:(lia) ltac:(lia)).
  apply binary_round_aux_positive_digits; [lia|]. cbn [Zdigits2]. lia.
Qed.
End Roots64.

Lemma isZero_false (x : float) :
  Num.isZero x = false -> Prim2SF x <> S754_zero false.
Proof.
  unfold Num.isZero. rewrite FloatAxioms.eqb_spec. intros H E. rewrite E in H. discriminate.
Qed.

Lemma sumOfSquares_nonneg_from (v : list float) (i : nat) (acc : float) :
  Forall (fun x => isFinite x = true) v -> nonnegSF (Prim2SF acc) ->
  nonnegSF (Prim2SF
    (Num.reduceFrom (fun sum val (_ : nat) => (sum + val * val)%float) v i acc)).
Proof.
  revert i acc. induction v as [|x v IH]; intros i acc Hv Hacc; [done|].
  apply Forall_cons in Hv as [Hx Hv]. cbn [Num.reduceFrom]. apply IH; [done|].
  rewrite add_spec, mul_spec. apply SFadd_nonneg; [done|].
  apply SFmul_self_nonneg. by apply isFinite_spec.
Qed.

(** The magnitude of a vector of finite numbers is [+0] or at least
    [2^-537]. *)
Lemma magnitude_rootSized (v : list float) :
  Forall (fun x => isFinite x = true) v ->
  Num.isZero (magnitude v) = false -> rootSized (Prim2SF (magnitude v)).
Proof.
  intros Hv Hz. apply isZero_false in Hz. unfold magnitude in *.
  rewrite sqrt_spec in *.
  destruct (SFsqrt_nonneg (Prim2SF (sumOfSquares v))) as [H|H];
    [apply Prim2SF_valid | by apply sumOfSquares_nonneg_from | done | done].
Qed.

(** The product of two magnitudes that are not zero is positive. *)
Lemma magnitudes_product_positive (v1 v2 : list float) :
  Forall (fun x => isFinite x = true) v1 -> Forall (fun x => isFinite x = true) v2 ->
  Num.isZero (magnitude v1) || Num.isZero (magnitude v2) = false ->
  (0 <? magnitude v1 * magnitude v2)%float = true.
Proof.
  intros H1 H2 Hz. apply orb_false_elim in Hz as [Hz1 Hz2].
  apply ltb_zero_positive. rewrite mul_spec.
  apply SFmul_rootSized; auto using Prim2SF_valid, magnitude_rootSized.
Qed.

(** ** The score of a text against itself *)

Section Shifts64.
Local Open Scope Z_scope.

Lemma Zdigits2_bounds (m : Z) :
  0 < m -> 2 ^ (Zdigits2 m - 1) <= m < 2 ^ Zdigits2 m.
Proof. destruct m as [|p|p]; [lia| |lia]. intros _. apply digits2_pos_bounds. Qed.

Lemma Zdigits2_unique (m d : Z) :
  2 ^ (d - 1) <= m < 2 ^ d -> 0 < d -> Zdigits2 m = d.
Proof.
  intros [L U] Hd.
  assert (Hm : 0 < m).
  { pose proof (Z.pow_pos_nonneg 2 (d - 1) ltac:(lia) ltac:(lia)). lia. }
  pose proof (Zdigits2_bounds m Hm) as [L' U'].
  assert (Hpos : 0 < Zdigits2 m) by (destruct m; cbn; lia).
  destruct (Z_lt_le_dec (Zdigits2 m) d) as [H|H].
  - assert (2 ^ Zdigits2 m <= 2 ^ (d - 1)) by (apply Z.pow_le_mono_r; lia). lia.
  - destruct (Z_lt_le_dec d (Zdigits2 m)) as [H'|H']; [|lia].
    assert (2 ^ d <= 2 ^ (Zdigits2 m - 1)) by (apply Z.pow_le_mono_r; lia). lia.
Qed.

Lemma shr_1_m (mrs : shr_record) :
  0 <= shr_m mrs -> shr_m (shr_1 mrs) = shr_m mrs / 2.
Proof.
  destruct mrs as [m r s]. cbn [shr_m]. intros H.
  destruct m as [|[p|p|]|p]; cbn [shr_1 shr_m]; [done| | |done|lia].
  - apply (Z.div_unique _ 2 (Z.pos p) 1); lia.
  - apply (Z.div_unique _ 2 (Z.pos p) 0); lia.
Qed.

Lemma iter_shr_1_m (p : positive) (mrs : shr_record) :
  0 <= shr_m mrs ->
  shr_m (SpecFloat.iter_pos shr_1 p mrs) = shr_m mrs / 2 ^ Z.pos p.
Proof.
  revert mrs. induction p as [p IH|p IH|]; intros mrs H; cbn [SpecFloat.iter_pos].
  - pose proof (shr_1_nonneg mrs H) as H1.
    pose proof (iter_shr_1_nonneg p _ H1) as H2.
    rewrite (IH _ H2), (IH _ H1), shr_1_m by done.
    pose proof (Z.pow_pos_nonneg 2 (Z.pos p) ltac:(lia) ltac:(lia)).
    rewrite !Z.div_div by lia. f_equal.
    replace (Z.pos p~1) with (1 + (Z.pos p + Z.pos p)) by lia.
    rewrite !Z.pow_add_r by lia. change (2 ^ 1) with 2. lia.
  - pose proof (iter_shr_1_nonneg p _ H) as H2.
    rewrite (IH _ H2), (IH _ H) by done.
    pose proof (Z.pow_pos_nonneg 2 (Z.pos p) ltac:(lia) ltac:(lia)).
    rewrite !Z.div_div by lia. f_equal.
    replace (Z.pos p~0) with (Z.pos p + Z.pos p) by lia.
    rewrite !Z.pow_add_r by lia. lia.
  - rewrite shr_1_m by done. by rewrite Z.pow_1_r.
Qed.

(** The shift to the format of a mantissa of 53 digits or more, at an
    exponent that keeps it above the subnormal numbers: the digits
    beyond the first 53 are dropped. *)
Lemma shr_fexp_normal (m e : Z) (l : location) :
  2 ^ 52 <= m -> -1021 <= Zdigits2 m + e ->
  shr_m (fst (shr_fexp prec emax m e l)) = m / 2 ^ (Zdigits2 m - 53)
  /\ snd (shr_fexp prec emax m e l) = e + (Zdigits2 m - 53)
  /\ 2 ^ 52 <= m / 2 ^ (Zdigits2 m - 53) < 2 ^ 53.
Proof.
  intros Hm He.
  assert (Hpos : 0 < m) by (change (2 ^ 52) with 4503599627370496 in Hm; lia).
  pose proof (Zdigits2_bounds m Hpos) as [L U].
  assert (Hd : 53 <= Zdigits2 m).
  { destruct (Z_lt_le_dec (Zdigits2 m) 53) as [H|H]; [|done].
    assert (2 ^ Zdigits2 m <= 2 ^ 52) by (apply Z.pow_le_mono_r; lia). lia. }
  set (n := Zdigits2 m - 53) in *.
  assert (Hn : 0 < 2 ^ n) by (apply Z.pow_pos_nonneg; lia).
  assert (Hq : 2 ^ 52 <= m / 2 ^ n < 2 ^ 53).
  { replace (Zdigits2 m - 1) with (52 + n) in L by lia.
    replace (Zdigits2 m) with (53 + n) in U by lia.
    rewrite Z.pow_add_r in L, U by lia. split.
    - apply Z.div_le_lower_bound; lia.
    - apply Z.div_lt_upper_bound; lia. }
  unfold shr_fexp, shr, fexp, SpecFloat.emin, prec, emax.
  replace (Z.max (Zdigits2 m + e - 53) (3 - 1024 - 53) - e) with n by lia.
  destruct n as [|p|p] eqn:E; cbn [fst snd]; [| |lia].
  - rewrite shr_m_of_loc, Z.pow_0_r, Z.div_1_r in *. split; [done|]. split; [lia|done].
  - rewrite iter_shr_1_m by (rewrite shr_m_of_loc; lia). rewrite shr_m_of_loc. done.
Qed.

Lemma round_nearest_even_step (m : Z) (l : location) :
  round_nearest_even m l = m \/ round_nearest_even m l = m + 1.
Proof. destruct l as [|[]]; cbn; auto. destruct (Z.even m); auto. Qed.

(** Rounding in the normal range: the mantissa is cut to its first 53
    digits, or to the next number above them. *)
Lemma binary_round_aux_normal (m e : Z) (l : location) :
  2 ^ 52 <= m -> -1021 <= Zdigits2 m + e ->
  let n := Zdigits2 m - 53 in
  exists c, (c = 0 \/ c = 1)
    /\ SpecFloat.binary_round_aux prec emax false m e l =
       if m / 2 ^ n + c <? 2 ^ 53 then
         if e + n <=? 971 then S754_finite false (Z.to_pos (m / 2 ^ n + c)) (e + n)
         else S754_infinity false
       else
         if e + n + 1 <=? 971 then S754_finite false (Z.to_pos (2 ^ 52)) (e + n + 1)
         else S754_infinity false.
Proof.
  intros Hm He n. unfold SpecFloat.binary_round_aux.
  destruct (shr_fexp_normal m e l Hm He) as (H1 & E1 & Hq). fold n in H1, E1, Hq.
  destruct (shr_fexp prec emax m e l) as [mrs1 e1]. cbn [fst snd] in H1, E1. subst e1.
  rewrite H1. set (m1 := m / 2 ^ n) in *.
  set (m2 := round_nearest_even m1 (loc_of_shr_record mrs1)).
  assert (Hc : m2 = m1 + 0 \/ m2 = m1 + 1).
  { destruct (round_nearest_even_step m1 (loc_of_shr_record mrs1)); [left|right]; lia. }
  assert (exists c, (c = 0 \/ c = 1) /\ m2 = m1 + c) as (c & Hc' & Hm2).
  { destruct Hc; [exists 0 | exists 1]; auto. }
  exists c. split; [done|]. rewrite <- Hm2. clearbody m2. clear Hc.
  change (2 ^ 52) with 4503599627370496 in *. change (2 ^ 53) with 9007199254740992 in *.
  destruct (Z.ltb_spec m2 9007199254740992) as [Hlt|Hge].
  - assert (D2 : Zdigits2 m2 = 53).
    { apply Zdigits2_unique; [|lia].
      change (2 ^ (53 - 1)) with 4503599627370496. change (2 ^ 53) with 9007199254740992.
      lia. }
    unfold shr_fexp, shr, fexp, SpecFloat.emin, prec, emax. rewrite D2.
    replace (Z.max (53 + (e + n) - 53) (3 - 1024 - 53) - (e + n)) with 0 by lia.
    cbn [shr_record_of_loc shr_m]. destruct m2 as [|p|p]; [lia| |lia]. done.
  - assert (m2 = 9007199254740992) as -> by lia.
    unfold shr_fexp, shr, fexp, SpecFloat.emin, prec, emax.
    change (Zdigits2 9007199254740992) with 54.
    replace (Z.max (54 + (e + n) - 53) (3 - 1024 - 53) - (e + n)) with 1 by lia.
    cbn [shr_record_of_loc SpecFloat.iter_pos shr_1 shr_m]. done.
Qed.
End Shifts64.

Section Values64.
Local Open Scope R_scope.

Lemma bpow_pos (e : Z) : 0 < powerRZ 2 e.
Proof. apply powerRZ_lt. lra. Qed.

Lemma bpow_add (a b : Z) : powerRZ 2 (a + b) = powerRZ 2 a * powerRZ 2 b.
Proof. apply powerRZ_add. lra. Qed.

Lemma bpow_succ (a : Z) : powerRZ 2 (a + 1) = 2 * powerRZ 2 a.
Proof. rewrite bpow_add. replace (powerRZ 2 1) with 2 by (simpl; lra). lra. Qed.

Lemma IZR_pow2 (k : Z) : (0 <= k)%Z -> IZR (2 ^ k) = powerRZ 2 k.
Proof.
  intros H. rewrite <- (Z2Nat.id k H) at 1. rewrite <- pow_IZR.
  rewrite pow_powerRZ. by rewrite Z2Nat.id.
Qed.

Lemma bpow_le (a b : Z) : (a <= b)%Z -> powerRZ 2 a <= powerRZ 2 b.
Proof.
  intros H. replace b with (a + (b - a))%Z by lia. rewrite bpow_add.
  rewrite <- (IZR_pow2 (b - a)) by lia.
  assert (1 <= IZR (2 ^ (b - a))).
  { apply IZR_le. pose proof (Z.pow_pos_nonneg 2 (b - a) ltac:(lia) ltac:(lia)). lia. }
  pose proof (bpow_pos a). nra.
Qed.

Lemma F2R_shift (m e k : Z) : (0 <= k)%Z -> F2R (m * 2 ^ k) e = F2R m (e + k).
Proof.
  intros H. unfold F2R. rewrite mult_IZR, IZR_pow2, bpow_add by done. lra.
Qed.

Lemma F2R_le (m m' e : Z) : (m <= m')%Z -> F2R m e <= F2R m' e.
Proof.
  intros H. unfold F2R. apply IZR_le in H. pose proof (bpow_pos e). nra.
Qed.

Lemma F2R_succ (m e : Z) : F2R (m + 1) e = F2R m e + powerRZ 2 e.
Proof. unfold F2R. rewrite plus_IZR. lra. Qed.

Lemma F2R_pos (m e : Z) : (0 < m)%Z -> 0 < F2R m e.
Proof.
  intros H. unfold F2R. apply IZR_lt in H. pose proof (bpow_pos e). nra.
Qed.

(** Rounding in the normal range gives a number within one unit in the
    last place of every number that lies between the mantissa and its
    successor, or overflows. *)
Lemma binary_round_aux_near (m e : Z) (l : location) (x : R) :
  (2 ^ 52 <= m)%Z -> (-1021 <= Zdigits2 m + e)%Z ->
  F2R m e <= x <= F2R (m + 1) e ->
  match SpecFloat.binary_round_aux prec emax false m e l with
  | S754_finite false mr er =>
      (2 ^ 52 <= Z.pos mr < 2 ^ 53)%Z /\ (e <= er <= 971)%Z
      /\ Rabs (F2R (Z.pos mr) er - x) <= powerRZ 2 er
  | S754_infinity false => (1024 <= Zdigits2 m + e)%Z
  | _ => False
  end.
Proof.
  intros Hm He Hx.
  destruct (binary_round_aux_normal m e l Hm He) as (c & Hc & ->).
  destruct (shr_fexp_normal m e l Hm He) as (_ & _ & Hq).
  assert (Hpos : (0 < m)%Z) by (change (2 ^ 52)%Z with 4503599627370496%Z in Hm; lia).
  pose proof (Zdigits2_bounds m Hpos) as [L U].
  assert (Hd : (53 <= Zdigits2 m)%Z).
  { destruct (Z_lt_le_dec (Zdigits2 m) 53) as [H|H]; [|done].
    assert (2 ^ Zdigits2 m <= 2 ^ 52)%Z by (apply Z.pow_le_mono_r; lia). lia. }
  set (n := (Zdigits2 m - 53)%Z) in *. set (m1 := (m / 2 ^ n)%Z) in *.
  assert (Hn : (0 < 2 ^ n)%Z) by (apply Z.pow_pos_nonneg; lia).
  assert (Hdiv : (m1 * 2 ^ n <= m < (m1 + 1) * 2 ^ n)%Z).
  { pose proof (Z.div_mod m (2 ^ n) ltac:(lia)).
    pose proof (Z.mod_pos_bound m (2 ^ n) ltac:(lia)). unfold m1. nia. }
  assert (Hlo : F2R m1 (e + n) <= x).
  { rewrite <- F2R_shift by lia. etrans; [|apply Hx]. apply F2R_le. lia. }
  assert (Hhi : x <= F2R (m1 + 1) (e + n)).
  { rewrite <- F2R_shift by lia. etrans; [apply Hx|]. apply F2R_le. lia. }
  rewrite F2R_succ in Hhi.
  change (2 ^ 52)%Z with 4503599627370496%Z in *.
  change (2 ^ 53)%Z with 9007199254740992%Z in *.
  destruct (Z.ltb_spec (m1 + c) 9007199254740992) as [Hlt|Hge].
  - destruct (Z.leb_spec (e + n) 971) as [Hle|Hgt]; [|lia].
    rewrite Z2Pos.id by lia. split; [lia|]. split; [lia|].
    destruct Hc as [-> | ->].
    + rewrite Z.add_0_r. pose proof (bpow_pos (e + n)).
      apply Rabs_le. lra.
    + rewrite F2R_succ. pose proof (bpow_pos (e + n)). apply Rabs_le. lra.
  - destruct (Z.leb_spec (e + n + 1) 971) as [Hle|Hgt]; [|lia].
    split; [done|]. split; [lia|].
    assert (m1 = 9007199254740991%Z) as Hm1 by lia.
    change (Z.pos (Z.to_pos 4503599627370496)) with (4503599627370496)%Z.
    assert (E : F2R 4503599627370496 (e + n + 1) = F2R m1 (e + n) + powerRZ 2 (e + n)).
    { rewrite Hm1. unfold F2R. rewrite bpow_succ. lra. }
    rewrite E. pose proof (bpow_pos (e + n)). rewrite bpow_succ.
    apply Rabs_le. lra.
Qed.
End Values64.

Section Operations64.
Local Open Scope Z_scope.

Lemma Zdigits2_le (m k : Z) : 0 < m -> m < 2 ^ k -> 0 <= k -> Zdigits2 m <= k.
Proof.
  intros Hm Hk H0. pose proof (Zdigits2_bounds m Hm) as [L _].
  destruct (Z_lt_le_dec k (Zdigits2 m)) as [H|H]; [|done].
  assert (2 ^ k <= 2 ^ (Zdigits2 m - 1)) by (apply Z.pow_le_mono_r; lia). lia.
Qed.

Lemma square_lt_pow2 (q k : Z) : 0 <= q -> 0 <= k -> q * q < 2 ^ (k + k) -> q < 2 ^ k.
Proof.
  intros Hq Hk H. rewrite Z.pow_add_r in H by lia.
  pose proof (Z.pow_pos_nonneg 2 k ltac:(lia) ltac:(lia)). nia.
Qed.

(** The integer square root that [SFsqrt] rounds: it has 53 digits or
    more, and stands for the root at the exponent [e']. *)
Lemma SFsqrt_core_spec (m : positive) (e : Z) :
  bounded prec emax m e = true ->
  let '(q, e', _) := SFsqrt_core_binary prec emax (Z.pos m) e in
  exists sh, 0 <= sh /\ e = e' + e' + sh
    /\ q * q <= Z.pos m * 2 ^ sh < (q + 1) * (q + 1)
    /\ 2 ^ 52 <= q /\ -589 <= e' /\ Zdigits2 q + e' <= 1023
    /\ (Z.pos (digits2_pos m) = 53 -> e' = e / 2 - 26).
Proof.
  intros V. pose proof (bounded_digits m e V) as (Hd & He & Hnorm).
  unfold bounded, prec, emax in V. apply andb_prop in V as [_ V]. apply Z.leb_le in V.
  unfold SFsqrt_core_binary, fexp, SpecFloat.emin, prec, emax.
  cbn [Zdigits2]. rewrite !Z.div2_div.
  set (d := Z.pos (digits2_pos m)) in *.
  assert (Hd1 : 1 <= d) by (unfold d; lia).
  pose proof (Z.div_mod e 2 ltac:(lia)) as E1.
  pose proof (Z.mod_pos_bound e 2 ltac:(lia)) as E2.
  pose proof (Z.div_mod (d + e + 1) 2 ltac:(lia)) as E3.
  pose proof (Z.mod_pos_bound (d + e + 1) 2 ltac:(lia)) as E4.
  set (e' := Z.min _ _).
  assert (He' : -589 <= e' /\ 105 - d <= e - 2 * e' /\ e' <= (d + e + 1) / 2 - 53
                /\ (d = 53 -> e' = e / 2 - 26)).
  { unfold e'. lia. }
  destruct He' as (He1 & Hs & He2 & He3).
  set (sh := e - 2 * e') in *.
  assert (Hm' : match sh with 0 => Z.pos m | Z.pos _ => Z.shiftl (Z.pos m) sh | Z.neg _ => 0 end
                = Z.pos m * 2 ^ sh).
  { destruct sh as [|p|p] eqn:E; [lia| |lia]. by rewrite Z.shiftl_mul_pow2. }
  rewrite Hm'. set (m' := Z.pos m * 2 ^ sh).
  pose proof (digits2_pos_bounds m) as [L U]. fold d in L, U.
  assert (Hlow : 2 ^ 104 <= m').
  { unfold m'. replace 104 with ((d - 1) + (105 - d)) by lia.
    rewrite Z.pow_add_r by lia.
    assert (2 ^ (105 - d) <= 2 ^ sh) by (apply Z.pow_le_mono_r; lia).
    pose proof (Z.pow_pos_nonneg 2 (105 - d) ltac:(lia) ltac:(lia)).
    pose proof (Z.pow_pos_nonneg 2 (d - 1) ltac:(lia) ltac:(lia)). nia. }
  pose proof (Z.sqrtrem_spec m' ltac:(lia)) as Hq.
  destruct (Z.sqrtrem m') as [q r]. destruct Hq as [Hq Hr].
  assert (Hq0 : 0 <= q).
  { pose proof (Z.sqrtrem_sqrt m') as Hs'. pose proof (Z.sqrt_nonneg m'). lia. }
  assert (Hq52 : 2 ^ 52 <= q).
  { change (2 ^ 104) with (2 ^ 52 * 2 ^ 52) in Hlow.
    change (2 ^ 52) with 4503599627370496 in *. nia. }
  exists sh. split; [lia|]. split; [lia|]. split; [lia|]. split; [done|].
  split; [done|]. split; [|done].
  set (k := (d + sh + 1) / 2).
  pose proof (Z.div_mod (d + sh + 1) 2 ltac:(lia)) as E5.
  pose proof (Z.mod_pos_bound (d + sh + 1) 2 ltac:(lia)) as E6. fold k in E5.
  assert (Hk : q < 2 ^ k).
  { apply square_lt_pow2; [lia..|].
    apply Z.le_lt_trans with m'; [lia|].
    apply Z.lt_le_trans with (2 ^ (d + sh)).
    - unfold m'. rewrite Z.pow_add_r by lia.
      pose proof (Z.pow_pos_nonneg 2 sh ltac:(lia) ltac:(lia)). nia.
    - apply Z.pow_le_mono_r; lia. }
  assert (Zdigits2 q <= k).
  { apply Zdigits2_le; [|done|lia]. change (2 ^ 52) with 4503599627370496 in Hq52. lia. }
  assert (k + e' <= (d + e + 1) / 2); [|lia].
  unfold k, sh. replace (d + (e - 2 * e') + 1) with ((d + e + 1) + (- e') * 2) by lia.
  rewrite Z.div_add by lia. lia.
Qed.
End Operations64.

Section Operations64R.
Local Open Scope R_scope.

Lemma F2R_mul (m1 e1 m2 e2 : Z) : F2R m1 e1 * F2R m2 e2 = F2R (m1 * m2) (e1 + e2).
Proof. unfold F2R. rewrite mult_IZR, bpow_add. lra. Qed.

Lemma F2R_nonneg (m e : Z) : (0 <= m)%Z -> 0 <= F2R m e.
Proof.
  intros H. unfold F2R. apply IZR_le in H. pose proof (bpow_pos e). nra.
Qed.

(** The square root of binary64: a number of the normal range within one
    unit in the last place of the root. *)
Lemma SFsqrt_near (m : positive) (e : Z) :
  bounded prec emax m e = true ->
  match SF64sqrt (S754_finite false m e) with
  | S754_finite false mr er =>
      (2 ^ 52 <= Z.pos mr < 2 ^ 53)%Z /\ (-589 <= er <= 971)%Z
      /\ (Z.pos (digits2_pos m) = 53 -> e / 2 - 26 <= er)%Z
      /\ Rabs (F2R (Z.pos mr) er - R_sqrt.sqrt (F2R (Z.pos m) e)) <= powerRZ 2 er
  | _ => False
  end.
Proof.
  intros V. unfold SF64sqrt. cbn [SFsqrt].
  pose proof (SFsqrt_core_spec m e V) as H.
  destruct (SFsqrt_core_binary prec emax (Z.pos m) e) as [[q e'] l].
  destruct H as (sh & Hsh & He & [Hlo Hhi] & Hq & He' & Hover & Hnorm).
  assert (Hq0 : (0 <= q)%Z) by (change (2 ^ 52)%Z with 4503599627370496%Z in Hq; lia).
  assert (Hx : F2R q e' <= R_sqrt.sqrt (F2R (Z.pos m) e) <= F2R (q + 1) e').
  { assert (Es : F2R (Z.pos m) e = F2R (Z.pos m * 2 ^ sh) (e' + e')).
    { rewrite F2R_shift by done. f_equal. lia. }
    rewrite Es. split.
    - rewrite <- (sqrt_square (F2R q e')) by (apply F2R_nonneg; lia).
      apply sqrt_le_1_alt. rewrite F2R_mul. by apply F2R_le.
    - rewrite <- (sqrt_square (F2R (q + 1) e')) by (apply F2R_nonneg; lia).
      apply sqrt_le_1_alt. rewrite F2R_mul. apply F2R_le. lia. }
  pose proof (binary_round_aux_near q e' l _ Hq ltac:(
    assert (53 <= Zdigits2 q)%Z; [|lia];
    destruct (Z_lt_le_dec (Zdigits2 q) 53) as [H|H]; [|done];
    pose proof (Zdigits2_bounds q ltac:(change (2 ^ 52)%Z with 4503599627370496%Z in Hq; lia))
      as [_ U];
    assert (2 ^ Zdigits2 q <= 2 ^ 52)%Z by (apply Z.pow_le_mono_r; lia); lia) Hx) as H.
  destruct (SpecFloat.binary_round_aux prec emax false q e' l) as [s|[]| |[] mr er];
    try done; [lia|].
  destruct H as (Hmr & Her & Habs). split; [done|]. split; [lia|]. split; [|done].
  intros Hd. specialize (Hnorm Hd). lia.
Qed.

(** The square of a number of the normal range that is not too small:
    within one unit in the last place of the exact square, or an
    overflow. *)
Lemma SFmul_self_near (mr : positive) (er : Z) :
  (2 ^ 52 <= Z.pos mr < 2 ^ 53)%Z -> (-563 <= er)%Z ->
  match SF64mul (S754_finite false mr er) (S754_finite false mr er) with
  | S754_finite false mp ep =>
      (2 ^ 52 <= Z.pos mp < 2 ^ 53)%Z
      /\ Rabs (F2R (Z.pos mp) ep - F2R (Z.pos mr) er * F2R (Z.pos mr) er) <= powerRZ 2 ep
  | S754_infinity false => True
  | _ => False
  end.
Proof.
  intros Hmr Her. unfold SF64mul. cbn [SFmul xorb].
  change (2 ^ 52)%Z with 4503599627370496%Z in *.
  change (2 ^ 53)%Z with 9007199254740992%Z in *.
  assert (Hm : (2 ^ 104 <= Z.pos (mr * mr))%Z).
  { change (2 ^ 104)%Z with (4503599627370496 * 4503599627370496)%Z.
    rewrite Pos2Z.inj_mul. nia. }
  assert (Hd : (105 <= Zdigits2 (Z.pos (mr * mr)))%Z).
  { destruct (Z_lt_le_dec (Zdigits2 (Z.pos (mr * mr))) 105) as [H|H]; [|done].
    pose proof (Zdigits2_bounds (Z.pos (mr * mr)) ltac:(lia)) as [_ U].
    assert (2 ^ Zdigits2 (Z.pos (mr * mr)) <= 2 ^ 104)%Z by (apply Z.pow_le_mono_r; lia).
    lia. }
  pose proof (binary_round_aux_near (Z.pos (mr * mr)) (er + er) loc_Exact
                (F2R (Z.pos mr) er * F2R (Z.pos mr) er)) as H.
  specialize (H ltac:(change (2 ^ 52)%Z with 4503599627370496%Z;
                      change (2 ^ 104)%Z with 20282409603651670423947251286016%Z in Hm; lia)
                ltac:(lia)).
  rewrite F2R_mul, <- Pos2Z.inj_mul in H.
  specialize (H ltac:(split; [lra | apply F2R_le; lia])).
  destruct (SpecFloat.binary_round_aux prec emax false _ _ _) as [s|[]| |[] mp ep];
    try done.
  destruct H as (Hmp & _ & Habs). rewrite F2R_mul, <- Pos2Z.inj_mul. done.
Qed.
End Operations64R.

Section Division64.
Local Open Scope Z_scope.

(** The integer quotient that [SFdiv] rounds, for two numbers whose
    quotient is in the normal range. *)
Lemma SFdiv_core_spec (m1 m2 : positive) (e1 e2 : Z) :
  bounded prec emax m1 e1 = true -> bounded prec emax m2 e2 = true ->
  -1021 <= Z.pos (digits2_pos m1) + e1 - (Z.pos (digits2_pos m2) + e2) <= 1021 ->
  let '(q, e', _) := SFdiv_core_binary prec emax (Z.pos m1) e1 (Z.pos m2) e2 in
  exists sh, 0 <= sh /\ e1 = e' + e2 + sh
    /\ q * Z.pos m2 <= Z.pos m1 * 2 ^ sh < (q + 1) * Z.pos m2
    /\ 2 ^ 52 <= q /\ -1021 <= Zdigits2 q + e' <= 1023.
Proof.
  intros V1 V2 Hz.
  pose proof (bounded_digits m1 e1 V1) as (Hd1 & He1 & _).
  pose proof (bounded_digits m2 e2 V2) as (Hd2 & He2 & _).
  unfold SFdiv_core_binary, fexp, SpecFloat.emin, prec, emax. cbn [Zdigits2].
  set (d1 := Z.pos (digits2_pos m1)) in *. set (d2 := Z.pos (digits2_pos m2)) in *.
  assert (1 <= d1 /\ 1 <= d2) as [Hp1 Hp2] by (unfold d1, d2; lia).
  replace (Z.min (Z.max (d1 + e1 - (d2 + e2) - 53) (3 - 1024 - 53)) (e1 - e2))
    with (d1 + e1 - (d2 + e2) - 53) by lia.
  set (e' := d1 + e1 - (d2 + e2) - 53).
  replace (e1 - e2 - e') with (53 - d1 + d2) by (unfold e'; lia).
  set (sh := 53 - d1 + d2).
  assert (Hm' : match sh with 0 => Z.pos m1 | Z.pos _ => Z.shiftl (Z.pos m1) sh | Z.neg _ => 0 end
                = Z.pos m1 * 2 ^ sh).
  { destruct sh as [|p|p] eqn:E; [lia| |lia]. by rewrite Z.shiftl_mul_pow2. }
  rewrite Hm'. set (m' := Z.pos m1 * 2 ^ sh).
  pose proof (Z_div_mod m' (Z.pos m2) ltac:(lia)) as Hq.
  destruct (Z.div_eucl m' (Z.pos m2)) as [q r]. destruct Hq as [Hq Hr].
  pose proof (digits2_pos_bounds m1) as [L1 U1]. fold d1 in L1, U1.
  pose proof (digits2_pos_bounds m2) as [L2 U2]. fold d2 in L2, U2.
  assert (P1 : 0 < 2 ^ (d1 - 1)) by (apply Z.pow_pos_nonneg; lia).
  assert (P2 : 0 < 2 ^ (d2 - 1)) by (apply Z.pow_pos_nonneg; lia).
  assert (Psh : 0 < 2 ^ sh) by (apply Z.pow_pos_nonneg; lia).
  assert (Hlow : 2 ^ 52 * 2 ^ d2 <= m').
  { unfold m'. replace (2 ^ 52 * 2 ^ d2) with (2 ^ (d1 - 1) * 2 ^ sh); [nia|].
    rewrite <- !Z.pow_add_r by lia. f_equal. lia. }
  assert (Hhigh : m' < 2 ^ 54 * 2 ^ (d2 - 1)).
  { unfold m'. replace (2 ^ 54 * 2 ^ (d2 - 1)) with (2 ^ d1 * 2 ^ sh); [nia|].
    rewrite <- !Z.pow_add_r by lia. f_equal. lia. }
  assert (Hq52 : 2 ^ 52 <= q).
  { change (2 ^ 52) with 4503599627370496 in *.
    destruct (Z_lt_le_dec q 4503599627370496); [|done]. nia. }
  assert (Hq54 : q < 2 ^ 54).
  { change (2 ^ 54) with 18014398509481984 in *.
    destruct (Z_lt_le_dec q 18014398509481984); [done|]. nia. }
  exists sh. split; [lia|]. split; [unfold e', sh; lia|]. split; [fold m'; nia|].
  split; [done|].
  assert (Hq0 : 0 < q) by (change (2 ^ 52) with 4503599627370496 in Hq52; lia).
  pose proof (Zdigits2_le q 54 Hq0 Hq54 ltac:(lia)).
  assert (53 <= Zdigits2 q).
  { destruct (Z_lt_le_dec (Zdigits2 q) 53) as [H'|H']; [|done].
    pose proof (Zdigits2_bounds q Hq0) as [_ U].
    assert (2 ^ Zdigits2 q <= 2 ^ 52) by (apply Z.pow_le_mono_r; lia). lia. }
  unfold e'. lia.
Qed.
End Division64.

Section Division64R.
Local Open Scope R_scope.

(** The quotient of binary64, for two positive numbers whose quotient is
    in the normal range: within one unit in the last place of the exact
    quotient. *)
Lemma SFdiv_near (m1 m2 : positive) (e1 e2 : Z) :
  bounded prec emax m1 e1 = true -> bounded prec emax m2 e2 = true ->
  (-1021 <= Z.pos (digits2_pos m1) + e1 - (Z.pos (digits2_pos m2) + e2) <= 1021)%Z ->
  match SF64div (S754_finite false m1 e1) (S754_finite false m2 e2) with
  | S754_finite false mq eq =>
      (2 ^ 52 <= Z.pos mq < 2 ^ 53)%Z
      /\ Rabs (F2R (Z.pos mq) eq - F2R (Z.pos m1) e1 / F2R (Z.pos m2) e2) <= powerRZ 2 eq
  | _ => False
  end.
Proof.
  intros V1 V2 Hz. unfold SF64div. cbn [SFdiv xorb].
  pose proof (SFdiv_core_spec m1 m2 e1 e2 V1 V2 Hz) as H.
  destruct (SFdiv_core_binary prec emax (Z.pos m1) e1 (Z.pos m2) e2) as [[q e'] l].
  destruct H as (sh & Hsh & He & [Hlo Hhi] & Hq & Hd).
  assert (Hq0 : (0 <= q)%Z) by (change (2 ^ 52)%Z with 4503599627370496%Z in Hq; lia).
  pose proof (F2R_pos (Z.pos m2) e2 ltac:(lia)) as Hp2.
  assert (E1 : F2R (Z.pos m1) e1 = F2R (Z.pos m1 * 2 ^ sh) (e' + e2)).
  { rewrite F2R_shift by done. f_equal. lia. }
  assert (Hx : F2R q e' <= F2R (Z.pos m1) e1 / F2R (Z.pos m2) e2 <= F2R (q + 1) e').
  { split.
    - apply Rmult_le_reg_r with (F2R (Z.pos m2) e2); [done|].
      unfold Rdiv. rewrite Rmult_assoc, Rinv_l, Rmult_1_r by lra.
      rewrite F2R_mul, E1. by apply F2R_le.
    - apply Rmult_le_reg_r with (F2R (Z.pos m2) e2); [done|].
      unfold Rdiv. rewrite Rmult_assoc, Rinv_l, Rmult_1_r by lra.
      rewrite F2R_mul, E1. apply F2R_le. lia. }
  pose proof (binary_round_aux_near q e' l _ Hq ltac:(lia) Hx) as H.
  destruct (SpecFloat.binary_round_aux prec emax false q e' l) as [s|[]| |[] mq eq];
    try done; [lia|].
  by destruct H as (Hmq & _ & Habs).
Qed.
End Division64R.

Section Nearest64.
Local Open Scope Z_scope.

Lemma shr_1_shiftedOut (mrs : shr_record) (m k : Z) :
  0 <= k -> shiftedOut mrs m k -> shiftedOut (shr_1 mrs) m (k + 1).
Proof.
  intros Hk. destruct mrs as [x r s]. unfold shiftedOut. cbn [shr_m shr_r shr_s].
  rewrite Z.pow_add_r by lia. change (2 ^ 1) with 2.
  pose proof (Z.pow_pos_nonneg 2 k ltac:(lia) ltac:(lia)) as Hp.
  set (b := 2 ^ k) in *. clearbody b.
  intros (Hx & Hrem & Hr0 & Hr1 & Hs).
  destruct x as [|[p|p|]|p]; cbn [shr_1 shr_m shr_r shr_s]; [| | | |lia].
  - destruct r, s; cbn [orb]; cbv iota in *;
      try specialize (Hs eq_refl); try specialize (Hr0 eq_refl);
      try specialize (Hr1 eq_refl);
      (split; [lia|]); (split; [lia|]); (split; [intros _; lia|]);
      (split; [intros ?; try done; lia|]); intros ?; try done; lia.
  - assert (E1 : Z.pos p~1 * b = 2 * (Z.pos p * b) + b)
      by (change (Z.pos p~1) with (2 * Z.pos p + 1); ring).
    assert (E2 : Z.pos p * (b * 2) = 2 * (Z.pos p * b)) by ring.
    rewrite E2. rewrite E1 in Hrem, Hr0, Hr1, Hs. clear E1 E2.
    set (y := Z.pos p * b) in *. clearbody y.
    destruct r, s; cbn [orb]; cbv iota in *;
      try specialize (Hs eq_refl); try specialize (Hr0 eq_refl);
      try specialize (Hr1 eq_refl);
      (split; [lia|]); (split; [lia|]); (split; [intros ?; try done; lia|]);
      (split; [intros ?; try done; lia|]); intros ?; try done; lia.
  - assert (E1 : Z.pos p~0 * b = 2 * (Z.pos p * b))
      by (change (Z.pos p~0) with (2 * Z.pos p); ring).
    assert (E2 : Z.pos p * (b * 2) = 2 * (Z.pos p * b)) by ring.
    rewrite E2. rewrite E1 in Hrem, Hr0, Hr1, Hs. clear E1 E2.
    set (y := Z.pos p * b) in *. clearbody y.
    destruct r, s; cbn [orb]; cbv iota in *;
      try specialize (Hs eq_refl); try specialize (Hr0 eq_refl);
      try specialize (Hr1 eq_refl);
      (split; [lia|]); (split; [lia|]); (split; [intros ?; try done; lia|]);
      (split; [intros ?; try done; lia|]); intros ?; try done; lia.
  - destruct r, s; cbn [orb]; cbv iota in *;
      try specialize (Hs eq_refl); try specialize (Hr0 eq_refl);
      try specialize (Hr1 eq_refl);
      (split; [lia|]); (split; [lia|]); (split; [intros ?; try done; lia|]);
      (split; [intros ?; try done; lia|]); intros ?; try done; lia.
Qed.

Lemma iter_shr_1_shiftedOut (p : positive) (mrs : shr_record) (m k : Z) :
  0 <= k -> shiftedOut mrs m k ->
  shiftedOut (SpecFloat.iter_pos shr_1 p mrs) m (k + Z.pos p).
Proof.
  revert mrs k. induction p as [p IH|p IH|]; intros mrs k Hk H; cbn [SpecFloat.iter_pos].
  - replace (k + Z.pos p~1) with (k + 1 + Z.pos p + Z.pos p) by lia.
    apply IH; [lia|]. apply IH; [lia|]. by apply shr_1_shiftedOut.
  - replace (k + Z.pos p~0) with (k + Z.pos p + Z.pos p) by lia.
    apply IH; [lia|]. by apply IH.
  - by apply shr_1_shiftedOut.
Qed.

Lemma shiftedOut_exact (m : Z) :
  0 <= m -> shiftedOut (shr_record_of_loc m loc_Exact) m 0.
Proof.
  intros H. unfold shiftedOut. cbn [shr_record_of_loc shr_m shr_r shr_s].
  rewrite Z.pow_0_r. repeat split; try lia; done.
Qed.

(** Rounding to nearest: the mantissa that is chosen is within one half
    of the digits that were shifted out. *)
Lemma round_nearest_even_shiftedOut (mrs : shr_record) (m k : Z) :
  shiftedOut mrs m k ->
  let p := round_nearest_even (shr_m mrs) (loc_of_shr_record mrs) in
  0 <= p /\ 2 * Z.abs (p * 2 ^ k - m) <= 2 ^ k.
Proof.
  destruct mrs as [x r s]. unfold shiftedOut. cbn [shr_m shr_r shr_s loc_of_shr_record].
  intros (Hx & Hrem & Hr0 & Hr1 & Hs).
  destruct r, s; cbn [round_nearest_even];
    try specialize (Hs ltac:(done)); try specialize (Hr0 ltac:(done));
    try specialize (Hr1 ltac:(done)); try (split; [lia|]; lia).
  destruct (Z.even x); split; lia.
Qed.

(** Rounding an exact number below the normal range: the nearest multiple
    of [2^-1074]. *)
Lemma binary_round_aux_clamped (m e : Z) :
  0 < m -> e < -1074 -> Zdigits2 m + e <= -1021 ->
  exists p, 0 <= p /\ 2 * Z.abs (p * 2 ^ (-1074 - e) - m) <= 2 ^ (-1074 - e)
    /\ match SpecFloat.binary_round_aux prec emax false m e loc_Exact with
       | S754_zero false => p = 0
       | S754_finite false mp ep => -1074 <= ep /\ Z.pos mp * 2 ^ (ep + 1074) = p
       | _ => False
       end.
Proof.
  intros Hm He Hd. unfold SpecFloat.binary_round_aux.
  set (n := -1074 - e).
  assert (Hn : 0 < n) by (unfold n; lia).
  assert (E : shr_fexp prec emax m e loc_Exact
              = (SpecFloat.iter_pos shr_1 (Z.to_pos n) (shr_record_of_loc m loc_Exact), -1074)).
  { unfold shr_fexp, shr, fexp, SpecFloat.emin, prec, emax.
    replace (Z.max (Zdigits2 m + e - 53) (3 - 1024 - 53) - e) with n by (unfold n; lia).
    destruct n as [|q|q] eqn:En; [lia| |lia]. cbn [Z.to_pos]. f_equal. lia. }
  rewrite E.
  pose proof (iter_shr_1_shiftedOut (Z.to_pos n) _ m 0 ltac:(lia)
                (shiftedOut_exact m ltac:(lia))) as Hinv.
  rewrite Z2Pos.id, Z.add_0_l in Hinv by lia.
  set (mrs := SpecFloat.iter_pos shr_1 (Z.to_pos n) (shr_record_of_loc m loc_Exact)) in *.
  pose proof (round_nearest_even_shiftedOut mrs m n Hinv) as [Hp0 Hnear].
  set (p := round_nearest_even (shr_m mrs) (loc_of_shr_record mrs)) in *.
  exists p. split; [done|]. split; [done|].
  assert (Hp53 : p <= 2 ^ 53).
  { pose proof (Zdigits2_bounds m Hm) as [_ U].
    assert (2 ^ Zdigits2 m <= 2 ^ (n + 53)) by (apply Z.pow_le_mono_r; unfold n; lia).
    rewrite Z.pow_add_r in H by lia.
    pose proof (Z.pow_pos_nonneg 2 n ltac:(lia) ltac:(lia)).
    change (2 ^ 53) with 9007199254740992 in *. nia. }
  change (2 ^ 53) with 9007199254740992 in *.
  destruct (Z.eq_dec p 0) as [->|Hnz].
  - done.
  - destruct (Z_lt_le_dec p 9007199254740992) as [Hlt|Hge].
    + assert (Hdp : Zdigits2 p <= 53).
      { apply Zdigits2_le; [lia| |lia]. change (2 ^ 53) with 9007199254740992. lia. }
      assert (0 < Zdigits2 p) by (destruct p; cbn; lia).
      unfold shr_fexp, shr, fexp, SpecFloat.emin, prec, emax.
      replace (Z.max (Zdigits2 p + -1074 - 53) (3 - 1024 - 53) - -1074) with 0 by lia.
      cbn [shr_record_of_loc shr_m]. destruct p as [|q|q]; [lia| |lia].
      cbn [Z.leb Z.compare]. split; [lia|]. by rewrite Z.mul_1_r.
    + assert (p = 9007199254740992) as -> by lia.
      unfold shr_fexp, shr, fexp, SpecFloat.emin, prec, emax.
      change (Zdigits2 9007199254740992) with 54.
      cbn [Z.add Z.sub Z.max Z.opp Z.pos_sub Z.compare Pos.compare Pos.compare_cont
           Pos.pred_double Z.succ_double Z.pred_double Z.double].
      cbn. split; [lia|]. done.
Qed.
End Nearest64.

Section Estimates.
Local Open Scope R_scope.


Lemma Rabs_bounds (a b : R) : Rabs a <= b -> - b <= a <= b.
Proof. unfold Rabs. destruct (Rcase_abs a); lra. Qed.

Lemma ulp_relative (m e : Z) (x : R) :
  (2 ^ 52 <= m)%Z -> Rabs (F2R m e - x) <= powerRZ 2 e ->
  0 < F2R m e /\ Rabs (F2R m e - x) <= epsilon * F2R m e.
Proof.
  intros Hm H. change (2 ^ 52)%Z with 4503599627370496%Z in Hm.
  split; [apply F2R_pos; lia|]. etrans; [exact H|].
  unfold F2R, epsilon. apply IZR_le in Hm. pose proof (bpow_pos e). nra.
Qed.

Lemma square_bounds (m x s : R) :
  0 < m -> Rabs (m - x) <= epsilon * m -> 0 <= x -> x * x = s ->
  (1 - epsilon) * (1 - epsilon) * (m * m) <= s <= (1 + epsilon) * (1 + epsilon) * (m * m).
Proof.
  intros Hm H Hx <-. apply Rabs_bounds in H. unfold epsilon in *.
  assert (L : (1 - / 4503599627370496) * m <= x) by lra.
  assert (U : x <= (1 + / 4503599627370496) * m) by lra.
  assert (0 <= (1 - / 4503599627370496) * m) by nra.
  split.
  - replace ((1 - / 4503599627370496) * (1 - / 4503599627370496) * (m * m))
      with (((1 - / 4503599627370496) * m) * ((1 - / 4503599627370496) * m)) by ring.
    by apply Rmult_le_compat.
  - replace ((1 + / 4503599627370496) * (1 + / 4503599627370496) * (m * m))
      with (((1 + / 4503599627370496) * m) * ((1 + / 4503599627370496) * m)) by ring.
    by apply Rmult_le_compat.
Qed.

Lemma product_close (mm s p : R) :
  0 < p -> Rabs (p - mm) <= epsilon * p ->
  (1 - epsilon) * (1 - epsilon) * mm <= s <= (1 + epsilon) * (1 + epsilon) * mm ->
  Rabs (s - p) <= 17 * epsilon * p.
Proof.
  intros Hp H [L U]. apply Rabs_bounds in H. unfold epsilon in *.
  apply Rabs_le. lra.
Qed.

Lemma quotient_close (s p q : R) :
  0 < p -> 0 < q -> Rabs (s - p) <= 17 * epsilon * p -> Rabs (q - s / p) <= epsilon * q ->
  1 - 18 * epsilon <= q <= 1 + 19 * epsilon.
Proof.
  intros Hp Hq H1 H2. apply Rabs_bounds in H1, H2.
  assert (Ht : 1 - 17 * epsilon <= s / p <= 1 + 17 * epsilon).
  { split.
    - apply Rmult_le_reg_r with p; [done|]. unfold Rdiv.
      rewrite Rmult_assoc, Rinv_l, Rmult_1_r by lra. lra.
    - apply Rmult_le_reg_r with p; [done|]. unfold Rdiv.
      rewrite Rmult_assoc, Rinv_l, Rmult_1_r by lra. lra. }
  unfold epsilon in *. lra.
Qed.
End Estimates.

Section Self64.
Local Open Scope R_scope.

Lemma F2R_digits (m : positive) (e : Z) :
  powerRZ 2 (Z.pos (digits2_pos m) + e - 1) <= F2R (Z.pos m) e
  < powerRZ 2 (Z.pos (digits2_pos m) + e).
Proof.
  pose proof (digits2_pos_bounds m) as [L U].
  set (d := Z.pos (digits2_pos m)) in *.
  assert (Hd : (1 <= d)%Z) by (unfold d; lia).
  apply IZR_le in L. apply IZR_lt in U. rewrite IZR_pow2 in L, U by lia.
  unfold F2R. pose proof (bpow_pos e).
  replace (d + e - 1)%Z with ((d - 1) + e)%Z by lia. rewrite !bpow_add. nra.
Qed.

Lemma bpow_lt_inv (a b : Z) : powerRZ 2 a < powerRZ 2 b -> (a < b)%Z.
Proof.
  intros H. destruct (Z_lt_le_dec a b) as [|Hle]; [done|].
  apply bpow_le in Hle. lra.
Qed.

(** Two positive numbers within a factor of two of each other have a
    quotient in the normal range. *)
Lemma close_exponents (m1 m2 : positive) (e1 e2 : Z) :
  F2R (Z.pos m1) e1 <= 2 * F2R (Z.pos m2) e2 ->
  F2R (Z.pos m2) e2 <= 2 * F2R (Z.pos m1) e1 ->
  (-1021 <= Z.pos (digits2_pos m1) + e1 - (Z.pos (digits2_pos m2) + e2) <= 1021)%Z.
Proof.
  intros H1 H2.
  pose proof (F2R_digits m1 e1) as [L1 U1]. pose proof (F2R_digits m2 e2) as [L2 U2].
  set (a := (Z.pos (digits2_pos m1) + e1)%Z) in *.
  set (b := (Z.pos (digits2_pos m2) + e2)%Z) in *.
  assert (powerRZ 2 (a - 1) < powerRZ 2 (b + 1)) by (rewrite (bpow_succ b); lra).
  assert (powerRZ 2 (b - 1) < powerRZ 2 (a + 1)) by (rewrite (bpow_succ a); lra).
  apply bpow_lt_inv in H, H0. lia.
Qed.

(** The square of a root below [2^-511]: the nearest multiple of
    [2^-1074]. *)
Lemma SFmul_self_clamped (mr : positive) (er : Z) :
  (2 ^ 52 <= Z.pos mr < 2 ^ 53)%Z -> (er <= -564)%Z ->
  exists p, (0 <= p)%Z
    /\ Rabs (F2R p (-1074) - F2R (Z.pos mr) er * F2R (Z.pos mr) er)
       <= powerRZ 2 (-1074) / 2
    /\ match SF64mul (S754_finite false mr er) (S754_finite false mr er) with
       | S754_zero false => p = 0%Z
       | S754_finite false mp ep => F2R (Z.pos mp) ep = F2R p (-1074)
       | _ => False
       end.
Proof.
  intros Hmr Her. unfold SF64mul. cbn [SFmul xorb].
  change (2 ^ 52)%Z with 4503599627370496%Z in *.
  change (2 ^ 53)%Z with 9007199254740992%Z in *.
  assert (Hd : (Zdigits2 (Z.pos (mr * mr)) <= 106)%Z).
  { apply Zdigits2_le; [lia| |lia]. change (2 ^ 106)%Z with (9007199254740992 * 9007199254740992)%Z.
    rewrite Pos2Z.inj_mul. nia. }
  destruct (binary_round_aux_clamped (Z.pos (mr * mr)) (er + er) ltac:(lia) ltac:(lia)
              ltac:(lia)) as (p & Hp0 & Hnear & Hres).
  exists p. split; [done|]. split.
  - set (n := (-1074 - (er + er))%Z) in *.
    assert (Hn : (0 <= n)%Z) by (unfold n; lia).
    rewrite F2R_mul, <- Pos2Z.inj_mul.
    assert (E : F2R p (-1074) = F2R (p * 2 ^ n) (er + er)).
    { rewrite F2R_shift by done. f_equal. unfold n. lia. }
    rewrite E. unfold F2R. rewrite <- Rmult_minus_distr_r, <- minus_IZR.
    pose proof (bpow_pos (er + er)) as Hb.
    rewrite Rabs_mult, (Rabs_pos_eq (powerRZ 2 (er + er))) by lra.
    assert (Eu : powerRZ 2 (-1074) = IZR (2 ^ n) * powerRZ 2 (er + er)).
    { rewrite IZR_pow2, <- bpow_add by done. f_equal. unfold n. lia. }
    rewrite Eu. rewrite <- abs_IZR.
    apply IZR_le in Hnear. rewrite mult_IZR in Hnear. nra.
  - destruct (SpecFloat.binary_round_aux prec emax false _ _ _) as [[]|[]| |[] mp ep];
      try done.
    destruct Hres as [Hep <-]. symmetry. rewrite F2R_shift by lia. f_equal. lia.
Qed.

Lemma F2R_unit (m : positive) (e : Z) :
  (-1074 <= e)%Z -> F2R (Z.pos m) e = F2R (Z.pos m * 2 ^ (e + 1074)) (-1074).
Proof. intros H. rewrite F2R_shift by lia. f_equal. lia. Qed.

(** The product of the root with itself is close to the number. *)
Lemma self_product_close (m : positive) (e : Z) :
  bounded prec emax m e = true ->
  match SF64mul (SF64sqrt (S754_finite false m e)) (SF64sqrt (S754_finite false m e)) with
  | S754_finite false mp ep =>
      0 < F2R (Z.pos mp) ep
      /\ Rabs (F2R (Z.pos m) e - F2R (Z.pos mp) ep) <= 17 * epsilon * F2R (Z.pos mp) ep
  | S754_infinity false => True
  | _ => False
  end.
Proof.
  intros V. pose proof (SFsqrt_near m e V) as Hroot.
  pose proof (bounded_digits m e V) as (_ & He & _).
  destruct (SF64sqrt (S754_finite false m e)) as [s|s| |[] mr er]; try done.
  destruct Hroot as (Hmr & Her & _ & Hroot).
  set (x := R_sqrt.sqrt (F2R (Z.pos m) e)) in *.
  assert (Hs : 0 < F2R (Z.pos m) e) by (apply F2R_pos; lia).
  assert (Hx : 0 <= x) by apply sqrt_pos.
  assert (Hxx : x * x = F2R (Z.pos m) e) by (apply sqrt_sqrt; lra).
  destruct (ulp_relative _ _ _ (proj1 Hmr) Hroot) as [Hm Hrel].
  pose proof (square_bounds _ _ _ Hm Hrel Hx Hxx) as Hsq.
  destruct (Z_lt_le_dec er (-563)) as [Hsmall|Hnormal].
  - (* below the normal range *)
    destruct (SFmul_self_clamped mr er Hmr ltac:(lia)) as (p & Hp0 & Hnear & Hres).
    set (mm := F2R (Z.pos mr) er * F2R (Z.pos mr) er) in *.
    set (u := powerRZ 2 (-1074)) in *.
    assert (Hu : 0 < u) by apply bpow_pos.
    rewrite (F2R_unit m e He) in Hs, Hsq |- *.
    set (S := (Z.pos m * 2 ^ (e + 1074))%Z) in *.
    assert (HS : (0 < S)%Z).
    { unfold S. pose proof (Z.pow_pos_nonneg 2 (e + 1074) ltac:(lia) ltac:(lia)). nia. }
    assert (Hmm : mm < 4503599627370496 * u).
    { assert (Hb : F2R (Z.pos mr) er < 9007199254740992 * powerRZ 2 (-564)).
      { unfold F2R. change (2 ^ 53)%Z with 9007199254740992%Z in Hmr.
        assert (IZR (Z.pos mr) < 9007199254740992) by (apply IZR_lt; lia).
        assert (0 < IZR (Z.pos mr)) by (apply IZR_lt; lia).
        pose proof (bpow_le er (-564) ltac:(lia)). pose proof (bpow_pos er). nra. }
      assert (Eu : u = powerRZ 2 (-564) * powerRZ 2 (-564) * 18014398509481984).
      { unfold u. change (-1074)%Z with (-564 + (-564 + 54))%Z. rewrite !bpow_add.
        rewrite <- (IZR_pow2 54) by lia. change (2 ^ 54)%Z with 18014398509481984%Z. ring. }
      pose proof (bpow_pos (-564)). unfold mm. rewrite Eu. nra. }
    unfold F2R in Hs, Hsq, Hnear. fold u in Hs, Hsq, Hnear.
    apply Rabs_bounds in Hnear.
    assert (Hmm0 : 0 < mm) by (unfold mm; nra).
    unfold epsilon in *.
    assert (Hdiff : -3 < IZR S - IZR p < 3) by nra.
    assert (HSp : (-3 < S - p < 3)%Z).
    { rewrite <- minus_IZR in Hdiff. split; apply lt_IZR; lra. }
    assert (Hsmall' : (S < 2 ^ 49)%Z -> S = p).
    { intros HS49. change (2 ^ 49)%Z with 562949953421312%Z in HS49.
      apply IZR_lt in HS49.
      assert (-1 < IZR S - IZR p < 1) by nra.
      rewrite <- minus_IZR in H. destruct H as [H1 H2].
      apply lt_IZR in H1, H2. lia. }
    assert (Hclose : Rabs (IZR S * u - IZR p * u) <= 17 * / 4503599627370496 * (IZR p * u)
                     /\ (0 < p)%Z).
    { destruct (Z_lt_le_dec S (2 ^ 49)) as [H49|H49].
      - rewrite <- (Hsmall' H49). split; [|done].
        rewrite Rminus_diag, Rabs_R0. apply IZR_lt in HS. nra.
      - change (2 ^ 49)%Z with 562949953421312%Z in H49.
        assert (Hp : (562949953421310 <= p)%Z) by lia.
        split; [|lia]. apply IZR_le in Hp.
        assert (-2 <= IZR S - IZR p <= 2).
        { rewrite <- minus_IZR. split; apply IZR_le; lia. }
        apply Rabs_le. nra. }
    destruct Hclose as [Hclose Hppos].
    destruct (SF64mul _ _) as [[]|[]| |[] mp ep]; try done; [lia|].
    rewrite Hres. unfold F2R. fold u. split; [|done]. apply IZR_lt in Hppos. nra.
  - (* the normal range *)
    pose proof (SFmul_self_near mr er Hmr ltac:(lia)) as Hprod.
    destruct (SF64mul _ _) as [[]|[]| |[] mp ep]; try done.
    destruct Hprod as [Hmp Hprod].
    destruct (ulp_relative _ _ _ (proj1 Hmp) Hprod) as [Hp Hprel].
    split; [done|]. by apply (product_close _ _ _ Hp Hprel).
Qed.
End Self64.

Lemma round_nearOne (q : float) :
  In q nearOne -> (Num.round (q * 100 * 100) / 100)%float = 100%float.
Proof.
  intros H. vm_compute in H.
  repeat (destruct H as [<- | H]; [by vm_compute|]). destruct H.
Qed.

Section Quotient64.
Local Open Scope R_scope.

(** The doubles between [1 - 18 * 2^-52] and [1 + 19 * 2^-52]. *)
Lemma F2R_nearOne (mq : positive) (eq : Z) :
  (2 ^ 52 <= Z.pos mq < 2 ^ 53)%Z ->
  1 - 18 * epsilon <= F2R (Z.pos mq) eq <= 1 + 19 * epsilon ->
  (eq = (-53)%Z /\ (2 ^ 53 - 36 <= Z.pos mq)%Z)
  \/ (eq = (-52)%Z /\ (Z.pos mq <= 2 ^ 52 + 19)%Z).
Proof.
  intros [L U] [Hlo Hhi]. unfold F2R, epsilon in *.
  change (2 ^ 52)%Z with 4503599627370496%Z in *.
  change (2 ^ 53)%Z with 9007199254740992%Z in *.
  apply IZR_le in L. apply IZR_lt in U.
  assert (E53 : powerRZ 2 (-53) * 9007199254740992 = 1).
  { change 9007199254740992 with (IZR (2 ^ 53)).
    rewrite IZR_pow2, <- bpow_add by lia. done. }
  assert (E52 : powerRZ 2 (-52) * 4503599627370496 = 1).
  { change 4503599627370496 with (IZR (2 ^ 52)).
    rewrite IZR_pow2, <- bpow_add by lia. done. }
  destruct (Z_lt_le_dec eq (-53)) as [H|H].
  { pose proof (bpow_le eq (-54) ltac:(lia)) as Hb. pose proof (bpow_pos eq).
    assert (E54 : powerRZ 2 (-53) = 2 * powerRZ 2 (-54)) by exact (bpow_succ (-54)).
    exfalso. nra. }
  destruct (Z_lt_le_dec (-52) eq) as [H'|H'].
  { pose proof (bpow_le (-51) eq ltac:(lia)) as Hb.
    assert (E51 : powerRZ 2 (-51) = 2 * powerRZ 2 (-52)) by exact (bpow_succ (-52)).
    exfalso. nra. }
  assert (eq = (-53)%Z \/ eq = (-52)%Z) as [-> | ->] by lia; [left|right]; (split; [done|]).
  - apply le_IZR. rewrite minus_IZR. nra.
  - apply le_IZR. rewrite plus_IZR. nra.
Qed.

(** The quotient of a positive number by the product of its root with
    itself is one of the doubles next to 1, when this product is finite. *)
Lemma self_quotient_nearOne (s : float) :
  Num.isZero (sqrt s) = false -> isFinite (sqrt s * sqrt s) = true ->
  In (s / (sqrt s * sqrt s))%float nearOne.
Proof.
  intros Hz Hfin. unfold Num.isZero in Hz. rewrite FloatAxioms.eqb_spec in Hz.
  apply isFinite_spec in Hfin.
  pose proof (Prim2SF_valid (sqrt s * sqrt s)) as Vp.
  pose proof (Prim2SF_valid s) as Vs.
  pose proof (div_spec s (sqrt s * sqrt s)) as Hq.
  rewrite mul_spec in Hfin, Vp, Hq. rewrite sqrt_spec in Hz, Hfin, Vp, Hq.
  destruct (Prim2SF s) as [[]|[]| |[] m e] eqn:Es; try done.
  cbn [valid_binary] in Vs.
  pose proof (self_product_close m e Vs) as Hclose.
  destruct (SF64mul _ _) as [[]|[]| |[] mp ep]; try done.
  cbn [valid_binary] in Vp. destruct Hclose as [Hp Hclose].
  pose proof (F2R_pos (Z.pos m) e ltac:(lia)) as Hs.
  assert (Hexp : (-1021 <= Z.pos (digits2_pos m) + e - (Z.pos (digits2_pos mp) + ep) <= 1021)%Z).
  { pose proof (Rabs_bounds _ _ Hclose) as Hb. unfold epsilon in Hb.
    apply close_exponents; lra. }
  pose proof (SFdiv_near m mp e ep Vs Vp Hexp) as Hdiv. rewrite <- Hq in Hdiv.
  destruct (Prim2SF (s / (sqrt s * sqrt s))) as [[]|[]| |[] mq eq] eqn:Eq; try done.
  destruct Hdiv as [Hmq Hdiv].
  destruct (ulp_relative _ _ _ (proj1 Hmq) Hdiv) as [Hqpos Hqrel].
  pose proof (quotient_close _ _ _ Hp Hqpos Hclose Hqrel) as Hbounds.
  rewrite <- (SF2Prim_Prim2SF (s / (sqrt s * sqrt s))), Eq.
  unfold nearOne. apply in_or_app.
  change (2 ^ 52)%Z with 4503599627370496%Z in Hmq.
  change (2 ^ 53)%Z with 9007199254740992%Z in Hmq.
  destruct (F2R_nearOne mq eq ltac:(done) Hbounds) as [[-> Hk]|[-> Hk]]; [left|right].
  - apply in_map_iff. exists (Z.to_nat (2 ^ 53 - Z.pos mq)). split.
    + unfold belowOne. do 2 f_equal. change (2 ^ 53)%Z with 9007199254740992%Z in *.
      rewrite Z2Nat.id by lia.
      replace (9007199254740992 - (9007199254740992 - Z.pos mq))%Z with (Z.pos mq) by lia.
      done.
    + apply in_seq. change (2 ^ 53)%Z with 9007199254740992%Z in *. lia.
  - apply in_map_iff. exists (Z.to_nat (Z.pos mq - 2 ^ 52)). split.
    + unfold aboveOne. do 2 f_equal. change (2 ^ 52)%Z with 4503599627370496%Z in *.
      rewrite Z2Nat.id by lia.
      replace (4503599627370496 + (Z.pos mq - 4503599627370496))%Z with (Z.pos mq) by lia.
      done.
    + apply in_seq. change (2 ^ 52)%Z with 4503599627370496%Z in *. lia.
Qed.
End Quotient64.


Lemma isFinite_false_spec (x : float) :
  isFinite x = false ->
  match Prim2SF x with
  | S754_infinity _ | S754_nan => True
  | _ => False
  end.
Proof.
  unfold isFinite. rewrite ltb_spec, abs_spec.
  change (Prim2SF infinity) with (S754_infinity false).
  by destruct (Prim2SF x) as [[]|[]| |[] m e].
Qed.

(** When the product of the root with itself is not finite, the quotient
    is zero or not a number. *)
Lemma self_quotient_overflow (s : float) :
  Num.isZero (sqrt s) = false -> isFinite (sqrt s * sqrt s) = false ->
  (s / (sqrt s * sqrt s))%float = 0%float \/ (s / (sqrt s * sqrt s))%float = nan.
Proof.
  intros Hz Hinf. unfold Num.isZero in Hz. rewrite FloatAxioms.eqb_spec in Hz.
  apply isFinite_false_spec in Hinf.
  pose proof (Prim2SF_valid s) as Vs.
  pose proof (div_spec s (sqrt s * sqrt s)) as Hq.
  rewrite mul_spec in Hinf, Hq. rewrite sqrt_spec in Hz, Hinf, Hq.
  rewrite <- (SF2Prim_Prim2SF (s / (sqrt s * sqrt s))), Hq.
  destruct (Prim2SF s) as [[]|[]| |[] m e] eqn:Es; try done; try (by right).
  cbn [valid_binary] in Vs.
  pose proof (self_product_close m e Vs) as Hclose.
  destruct (SF64mul _ _) as [[]|[]| |[] mp ep]; try done. by left.
Qed.

Lemma self_score_overflow (s : float) :
  Num.isZero (sqrt s) = false -> isFinite (sqrt s * sqrt s) = false ->
  (Num.round (s / (sqrt s * sqrt s) * 100 * 100) / 100)%float <> 100%float.
Proof.
  intros Hz Hinf. destruct (self_quotient_overflow s Hz Hinf) as [-> | ->]; by vm_compute.
Qed.

(** The score of a magnitude against itself. *)
Lemma self_score_100 (s : float) :
  Num.isZero (sqrt s) = false -> isFinite (sqrt s * sqrt s) = true ->
  (Num.round (s / (sqrt s * sqrt s) * 100 * 100) / 100)%float = 100%float.
Proof. intros Hz Hfin. by apply round_nearOne, self_quotient_nearOne. Qed.

(** ** Sorting *)

Section SortFacts.
Context {A : Type} (after : A -> A -> bool).
Hypothesis after_antisym : forall x y, after y x = true -> after x y = false.

Local Abbreviation keeps := (keptBy after).

Lemma insert_HdRel (y x : A) (l : list A) :
  keeps y x -> HdRel keeps y l -> HdRel keeps y (JS.insert after x l).
Proof.
  intros Hyx Hl. destruct l as [|z l]; cbn; [by constructor|].
  destruct (after z x); constructor; [done|]. by inversion Hl.
Qed.

Lemma insert_Sorted (x : A) (l : list A) :
  Sorted keeps l -> Sorted keeps (JS.insert after x l).
Proof.
  induction 1 as [|y l Hl IH Hhd]; cbn; [by repeat constructor|].
  destruct (after y x) eqn:E.
  - constructor; [by constructor|]. constructor. by apply after_antisym.
  - constructor; [done|]. by apply insert_HdRel.
Qed.

Lemma sort_Sorted_from (l acc : list A) :
  Sorted keeps acc -> Sorted keeps (fold_left (fun acc x => JS.insert after x acc) l acc).
Proof.
  revert acc. induction l as [|x l IH]; intros acc Hacc; cbn; [done|].
  by apply IH, insert_Sorted.
Qed.

Lemma sort_Sorted (l : list A) : Sorted keeps (JS.sort after l).
Proof. apply sort_Sorted_from. constructor. Qed.
End SortFacts.

Lemma insert_Permutation {A} (after : A -> A -> bool) (x : A) (l : list A) :
  JS.insert after x l ≡ₚ x :: l.
Proof.
  induction l as [|y l IH]; cbn; [done|].
  destruct (after y x); [done|]. rewrite IH. apply Permutation_swap.
Qed.

Lemma sort_Permutation {A} (after : A -> A -> bool) (l : list A) :
  JS.sort after l ≡ₚ l.
Proof.
  unfold JS.sort. rewrite <- (app_nil_r l) at 2. generalize (@nil A) as acc.
  induction l as [|x l IH]; intros acc; cbn; [done|].
  rewrite IH, insert_Permutation. by rewrite Permutation_middle.
Qed.

(** ** Degenerate scores *)

Lemma findTerm_Some (terms : list Term) (name : string) (t : Term) :
  findTerm terms name = Some t -> In t terms /\ term t = name.
Proof.
  intros H. apply List.find_some in H as [Hin Heq].
  split; [done | by apply String.eqb_eq].
Qed.

Lemma noSharedTerm_find (terms1 terms2 : list Term) (name : string) :
  noSharedTerm terms1 terms2 ->
  findTerm terms1 name = None \/ findTerm terms2 name = None.
Proof.
  intros Hno.
  destruct (findTerm terms1 name) as [t1|] eqn:E1; [|by left].
  destruct (findTerm terms2 name) as [t2|] eqn:E2; [|by right].
  apply findTerm_Some in E1 as [Hin1 <-], E2 as [Hin2 Heq].
  exfalso. apply (Hno (term t1)).
  - apply list_elem_of_In, in_map, Hin1.
  - rewrite <- Heq. apply list_elem_of_In, in_map, Hin2.
Qed.

Lemma weightOf_finite (terms : list Term) (name : string) :
  Forall (fun t => isFinite (tfidf t) = true) terms ->
  isFinite (weightOf (findTerm terms name)) = true.
Proof.
  intros Hfin. destruct (findTerm terms name) as [t|] eqn:E; [|done].
  apply findTerm_Some in E as [Hin _]. cbn.
  by apply (proj1 (List.Forall_forall _ _) Hfin).
Qed.

Lemma fold_zeroish (g1 g2 : string -> float) (names : list string) :
  (forall name, zeroish (g1 name * g2 name)) ->
  fold_left (fun sum name => (sum + g1 name * g2 name)%float) names 0%float = 0%float.
Proof.
  intros Hz. induction names as [|name names IH]; [done|].
  cbn [fold_left]. by rewrite add_zero_zeroish.
Qed.

(** Without a common term the dot product is [+0]. *)
Lemma dotProduct_noSharedTerm (terms1 terms2 : list Term) (allTerms : list string) :
  noSharedTerm terms1 terms2 ->
  Forall (fun t => isFinite (tfidf t) = true) (terms1 ++ terms2) ->
  dotProduct (vectorOf terms1 allTerms) (vectorOf terms2 allTerms) = 0%float.
Proof.
  intros Hno Hfin. apply Forall_app in Hfin as [Hfin1 Hfin2].
  unfold vectorOf. rewrite dotProduct_map. apply fold_zeroish. intros name.
  destruct (noSharedTerm_find terms1 terms2 name Hno) as [-> | ->]; cbn [weightOf].
  - apply mul_zeroish_l; [by apply weightOf_finite | apply zeroish_zero].
  - apply mul_zeroish_r; [by apply weightOf_finite | apply zeroish_zero].
Qed.

Lemma cosineScore_zero_magnitude (terms1 terms2 : list Term) :
  let allTerms := allTermsOf terms1 terms2 in
  Num.isZero (magnitude (vectorOf terms1 allTerms))
  || Num.isZero (magnitude (vectorOf terms2 allTerms)) = true ->
  cosineScore terms1 terms2 = 0%float.
Proof. intros allTerms H. unfold cosineScore. fold allTerms. by rewrite H. Qed.

Lemma vectorOf_finite (terms : list Term) (allTerms : list string) :
  Forall (fun t => isFinite (tfidf t) = true) terms ->
  Forall (fun x => isFinite x = true) (vectorOf terms allTerms).
Proof.
  intros Hfin. unfold vectorOf. apply Forall_map, Forall_forall.
  intros name _. by apply weightOf_finite.
Qed.

Lemma cosineScore_noSharedTerm (terms1 terms2 : list Term) :
  noSharedTerm terms1 terms2 ->
  Forall (fun t => isFinite (tfidf t) = true) (terms1 ++ terms2) ->
  cosineScore terms1 terms2 = 0%float.
Proof.
  intros Hno Hfin. unfold cosineScore.
  destruct (Num.isZero _ || Num.isZero _) eqn:Hz; [done|].
  rewrite (dotProduct_noSharedTerm _ _ _ Hno Hfin), div_zero_positive; [by vm_compute|].
  apply Forall_app in Hfin as [Hfin1 Hfin2].
  apply magnitudes_product_positive; auto using vectorOf_finite.
Qed.

Lemma matchScoreOf_eq N resumeText jobDescription (score : float) :
  calculateMatchScore N resumeText jobDescription = Return score ->
  matchScoreOf N resumeText jobDescription = score.
Proof. intros H. unfold matchScoreOf. by rewrite H. Qed.

(** ** The ranking route *)

Lemma rankOne_returns N jd r : rankOne N jd r = Return (rankedOf N jd r).
Proof. unfold rankOne. by rewrite calculateMatchScore_returns. Qed.

Lemma mapM_returns {A B} (f : A -> result B) (g : A -> B) (l : list A) :
  (forall a, f a = Return (g a)) -> mapM f l = Return (map g l).
Proof.
  intros H. induction l as [|a l IH]; [done|]. cbn. by rewrite H, IH.
Qed.

Lemma acceptedDescription_test (jd : string) :
  acceptedDescription jd ->
  JS.falsy jd || (String.length (JS.trim jd) =? 0)%nat = false.
Proof.
  intros H. apply orb_false_intro.
  - by destruct jd.
  - by apply Nat.eqb_neq.
Qed.

Lemma rankRoute_accepted N jd resumes :
  acceptedDescription jd ->
  rankRoute N (Some jd) (Return resumes) =
  RankOk (JS.sort scoreBelow (map (rankedOf N jd) resumes)) (length resumes).
Proof.
  intros H. unfold rankRoute.
  rewrite (acceptedDescription_test jd H), (mapM_returns _ (rankedOf N jd)).
  - f_equal. by rewrite (Permutation_length (sort_Permutation _ _)), length_map.
  - apply rankOne_returns.
Qed.

Lemma scoreBelow_antisym (x y : Ranked) :
  scoreBelow y x = true -> scoreBelow x y = false.
Proof. apply sub_positive_antisym. Qed.

Lemma notBelow_notIncreasing (a b : Ranked) : notBelow a b -> notIncreasing a b.
Proof. apply sub_not_positive. Qed.

Lemma Sorted_weaken {A} (R R' : A -> A -> Prop) (l : list A) :
  (forall a b, R a b -> R' a b) -> Sorted R l -> Sorted R' l.
Proof.
  intros HR. induction 1 as [|a l Hl IH Hhd]; constructor; [done|].
  destruct Hhd; constructor; auto.
Qed.

Lemma atLeast_scaled (a b : Ranked) :
  isNaN (matchScore a) = false -> isNaN (matchScore b) = false ->
  atLeast a b <->
  (scaled (Prim2SF (matchScore b)) <= scaled (Prim2SF (matchScore a)))%Z.
Proof.
  intros Ha Hb. unfold atLeast. rewrite leb_scaled by done. apply Z.leb_le.
Qed.

Lemma notIncreasing_atLeast (a b : Ranked) :
  isNaN (matchScore a) = false -> isNaN (matchScore b) = false ->
  notIncreasing a b -> atLeast a b.
Proof.
  intros Ha Hb H. apply atLeast_scaled; [done..|].
  unfold notIncreasing in H. rewrite ltb_scaled in H by done.
  by apply Z.ltb_ge.
Qed.

(** Without [NaN] among the scores, neighbours in order put every entry
    at or above all the entries after it. *)
Lemma Sorted_atLeast (l : list Ranked) :
  Forall (fun r => isNaN (matchScore r) = false) l ->
  Sorted notIncreasing l -> StronglySorted atLeast l.
Proof.
  intros Hnan Hs. induction Hs as [|a l Hl IH Hhd]; [constructor|].
  apply Forall_cons in Hnan as [Ha Hnan]. specialize (IH Hnan).
  constructor; [done|].
  destruct Hhd as [|b l Hab]; [constructor|].
  apply Forall_cons in Hnan as [Hb Hnan].
  apply StronglySorted_inv in IH as [_ Hbl].
  pose proof (notIncreasing_atLeast a b Ha Hb Hab) as Hab'.
  constructor; [done|].
  apply Forall_forall. intros c Hc.
  pose proof (proj1 (Forall_forall _ _) Hnan c Hc) as Hcn.
  pose proof (proj1 (Forall_forall _ _) Hbl c Hc) as Hbc.
  apply atLeast_scaled in Hab', Hbc; [|done..].
  apply atLeast_scaled; [done..|]. lia.
Qed.

(** C5. [calculateMatchScore] never throws: it returns a number. The
    number is 0 when either text is empty, when a call of the TF-IDF
    package throws, when one of the two vectors has magnitude zero, and
    when the two term lists have no term in common and the weights are
    finite numbers. So the ranking route, for an accepted job
    description, answers with an entry for every resume, whatever the
    resumes are. *)
Theorem calculateMatchScore_degenerate N (resumeText jobDescription : string) :
  calculateMatchScore N resumeText jobDescription
    = Return (matchScoreOf N resumeText jobDescription)
  /\ (resumeText = "" \/ jobDescription = "" ->
      matchScoreOf N resumeText jobDescription = 0%float)
  /\ (forall e,
        listTerms N (JS.toLowerCase resumeText) (JS.toLowerCase jobDescription) = Throw e ->
        matchScoreOf N resumeText jobDescription = 0%float)
  /\ (forall terms1 terms2,
        listTerms N (JS.toLowerCase resumeText) (JS.toLowerCase jobDescription)
          = Return (terms1, terms2) ->
        let allTerms := allTermsOf terms1 terms2 in
        let magnitude1 := magnitude (vectorOf terms1 allTerms) in
        let magnitude2 := magnitude (vectorOf terms2 allTerms) in
        (Num.isZero magnitude1 || Num.isZero magnitude2 = true ->
         matchScoreOf N resumeText jobDescription = 0%float)
        /\ (noSharedTerm terms1 terms2 ->
            Forall (fun t => isFinite (tfidf t) = true) (terms1 ++ terms2) ->
            matchScoreOf N resumeText jobDescription = 0%float))
  /\ (forall resumes,
        acceptedDescription jobDescription ->
        rankRoute N (Some jobDescription) (Return resumes) =
        RankOk (JS.sort scoreBelow (map (rankedOf N jobDescription) resumes))
               (length resumes)).
Proof.
  split; [apply calculateMatchScore_returns|].
  assert (Hempty : resumeText = "" \/ jobDescription = "" ->
                   matchScoreOf N resumeText jobDescription = 0%float).
  { intros [-> | ->]; apply matchScoreOf_eq; [done|].
    unfold calculateMatchScore, scoreOrThrow. by rewrite orb_true_r. }
  split; [done|].
  assert (Hrank : forall resumes, acceptedDescription jobDescription ->
            rankRoute N (Some jobDescription) (Return resumes) =
            RankOk (JS.sort scoreBelow (map (rankedOf N jobDescription) resumes))
                   (length resumes)) by (intros; by apply rankRoute_accepted).
  destruct (decide (resumeText = "")) as [H1|H1].
  { repeat split; try done; intros; apply Hempty; by left. }
  destruct (decide (jobDescription = "")) as [H2|H2].
  { repeat split; try done; intros; apply Hempty; by right. }
  split; [|split].
  - intros e He. apply matchScoreOf_eq. unfold calculateMatchScore, scoreOrThrow.
    destruct resumeText; [done|]. destruct jobDescription; [done|].
    cbn [JS.falsy orb]. by rewrite He.
  - intros terms1 terms2 Hterms allTerms magnitude1 magnitude2.
    pose proof (calculateMatchScore_terms N _ _ _ _ H1 H2 Hterms) as Hscore.
    split.
    + intros Hzero. apply matchScoreOf_eq. rewrite Hscore. f_equal.
      by apply cosineScore_zero_magnitude.
    + intros Hno Hfin. apply matchScoreOf_eq. rewrite Hscore. f_equal.
      by apply cosineScore_noSharedTerm.
  - done.
Qed.

Lemma calculateMatchScore_degenerate_witness :
  calculateMatchScore Sample.failingTfIdf "java developer" "react engineer"
    = Return 0%float
  /\ matchScoreOf Sample.wordTfIdf "java spring" "react node" = 0%float.
Proof.
  split.
  - destruct (calculateMatchScore_degenerate Sample.failingTfIdf
                "java developer" "react engineer") as (Hret & _ & Hthrow & _).
    rewrite Hret. exact (f_equal Return (Hthrow (Error "vectorizer failure") eq_refl)).
  - destruct (calculateMatchScore_degenerate Sample.wordTfIdf
                "java spring" "react node") as (_ & _ & _ & Hterms & _).
    apply (Hterms [mkTerm "java" 1; mkTerm "spring" 1] [mkTerm "react" 1; mkTerm "node" 1]);
      [by vm_compute | | ].
    + intros name Hin. cbn in Hin.
      apply elem_of_cons in Hin as [-> | Hin];
        [|apply elem_of_cons in Hin as [-> | Hin]; [|by apply elem_of_nil in Hin]];
        apply (bool_decide_unpack _); by vm_compute.
    + repeat constructor; by vm_compute.
Defined.

(** C7. The array with which the ranking route answers is ordered by
    [matchScore], the larger scores first: of two neighbours the second
    has no larger score than the first (the comparator difference
    [b.matchScore - a.matchScore] is not positive, and
    [a.matchScore < b.matchScore] is false); when no score is [NaN], every
    entry has a score greater than or equal to the scores of all entries
    after it. The array holds the entries of all the resumes, each once. *)
Theorem rankRoute_sorted N (jobDescription : string) (resumes : list Resume)
    (ranked : list Ranked) (total : nat) :
  rankRoute N (Some jobDescription) (Return resumes) = RankOk ranked total ->
  Sorted notBelow ranked
  /\ Sorted notIncreasing ranked
  /\ (Forall (fun r => isNaN (matchScore r) = false) ranked ->
      StronglySorted atLeast ranked)
  /\ ranked ≡ₚ map (rankedOf N jobDescription) resumes
  /\ total = length resumes.
Proof.
  unfold rankRoute.
  destruct (JS.falsy jobDescription || _); [done|].
  rewrite (mapM_returns _ (rankedOf N jobDescription)) by apply rankOne_returns.
  intros [= <- <-].
  assert (Hs : Sorted notBelow
                 (JS.sort scoreBelow (map (rankedOf N jobDescription) resumes)))
    by apply sort_Sorted, scoreBelow_antisym.
  assert (Hs' : Sorted notIncreasing
                  (JS.sort scoreBelow (map (rankedOf N jobDescription) resumes)))
    by (eapply Sorted_weaken; [apply notBelow_notIncreasing | done]).
  split; [done|]. split; [done|]. split; [|split].
  - intros Hnan. by apply Sorted_atLeast.
  - apply sort_Permutation.
  - by rewrite (Permutation_length (sort_Permutation _ _)), length_map.
Qed.

Lemma rankRoute_sorted_witness :
  Sorted notIncreasing
    (JS.sort scoreBelow
       (map (rankedOf Sample.wordTfIdf "react node developer")
          [Sample.resumeOf 0 "java spring"; Sample.resumeOf 1 "react";
           Sample.resumeOf 2 "react node developer"])).
Proof.
  apply (rankRoute_sorted Sample.wordTfIdf "react node developer"
           [Sample.resumeOf 0 "java spring"; Sample.resumeOf 1 "react";
            Sample.resumeOf 2 "react node developer"] _ 3).
  apply rankRoute_accepted. by vm_compute.
Defined.

(** ** The two orders of the arguments *)

Lemma existsb_eqb_elem (x : string) (l : list string) :
  existsb (String.eqb x) l = true <-> x ∈ l.
Proof.
  rewrite existsb_exists. split.
  - intros (y & Hy & Heq). apply String.eqb_eq in Heq as <-. by apply list_elem_of_In.
  - intros H. exists x. split; [by apply list_elem_of_In | apply String.eqb_refl].
Qed.

Lemma setAdd_spec (l seen : list string) :
  NoDup seen ->
  NoDup (JS.setAdd seen l) /\ forall x, x ∈ JS.setAdd seen l <-> x ∈ seen \/ x ∈ l.
Proof.
  revert seen. induction l as [|y l IH]; intros seen Hnd; cbn [JS.setAdd].
  - split; [done|]. intros x. rewrite elem_of_nil. tauto.
  - destruct (existsb (String.eqb y) seen) eqn:E.
    + apply existsb_eqb_elem in E. destruct (IH seen Hnd) as [Hnd' Hin].
      split; [done|]. intros x. rewrite Hin, elem_of_cons.
      split; [tauto|]. intros [H|[-> |H]]; tauto.
    + assert (Hy : y ∉ seen) by (rewrite <- existsb_eqb_elem; congruence).
      destruct (IH (seen ++ [y])) as [Hnd' Hin].
      { apply NoDup_app. repeat split; [done| |apply NoDup_singleton].
        intros x Hx Hx'. apply list_elem_of_singleton in Hx' as ->. done. }
      split; [done|]. intros x.
      rewrite Hin, elem_of_app, list_elem_of_singleton, elem_of_cons. tauto.
Qed.

Lemma allTermsOf_Permutation (terms1 terms2 : list Term) :
  allTermsOf terms1 terms2 ≡ₚ allTermsOf terms2 terms1.
Proof.
  unfold allTermsOf, JS.setValues.
  destruct (setAdd_spec (map term terms1 ++ map term terms2) [] (NoDup_nil_2)) as [N1 H1].
  destruct (setAdd_spec (map term terms2 ++ map term terms1) [] (NoDup_nil_2)) as [N2 H2].
  apply NoDup_Permutation; [done..|]. intros x.
  rewrite H1, H2, !elem_of_app. tauto.
Qed.

Lemma SFmul_comm prec emax (a b : spec_float) : SFmul prec emax a b = SFmul prec emax b a.
Proof.
  destruct a as [sa|sa| |sa ma ea], b as [sb|sb| |sb mb eb]; cbn [SFmul];
    rewrite ?(xorb_comm sb sa); try done.
  by rewrite (Pos.mul_comm mb ma), (Z.add_comm eb ea).
Qed.

Lemma mul_comm (x y : float) : (x * y)%float = (y * x)%float.
Proof. apply Prim2SF_inj. rewrite !mul_spec. apply SFmul_comm. Qed.

Lemma cosineScore_swapped (terms1 terms2 : list Term) :
  let all12 := allTermsOf terms1 terms2 in
  let all21 := allTermsOf terms2 terms1 in
  dotProduct (vectorOf terms1 all12) (vectorOf terms2 all12)
    = dotProduct (vectorOf terms2 all21) (vectorOf terms1 all21) ->
  magnitude (vectorOf terms1 all12) = magnitude (vectorOf terms1 all21) ->
  magnitude (vectorOf terms2 all12) = magnitude (vectorOf terms2 all21) ->
  cosineScore terms1 terms2 = cosineScore terms2 terms1.
Proof.
  intros all12 all21 Hdot Hm1 Hm2. unfold cosineScore. fold all12 all21.
  rewrite Hdot, Hm1, Hm2, orb_comm.
  by rewrite (mul_comm (magnitude (vectorOf terms1 all21))).
Qed.

(** C3, as amended. The two orders of the arguments lead to the same
    sums but for the order of their terms: the union vocabulary of one
    call is a permutation of that of the other, and so are the products
    that [dotProduct] adds and the squares that each magnitude adds.
    Whenever the three sums come out the same in both orders, the two
    scores are equal; they are equal as well when one of the texts is
    empty. *)
Theorem swapped_arguments_score N (textA textB : string) (termsA termsB : list Term) :
  listTerms N (JS.toLowerCase textA) (JS.toLowerCase textB) = Return (termsA, termsB) ->
  listTerms N (JS.toLowerCase textB) (JS.toLowerCase textA) = Return (termsB, termsA) ->
  let allAB := allTermsOf termsA termsB in
  let allBA := allTermsOf termsB termsA in
  let weightA := fun name => weightOf (findTerm termsA name) in
  let weightB := fun name => weightOf (findTerm termsB name) in
  allAB ≡ₚ allBA
  /\ map (fun name => (weightA name * weightB name)%float) allAB
     ≡ₚ map (fun name => (weightB name * weightA name)%float) allBA
  /\ map (fun name => (weightA name * weightA name)%float) allAB
     ≡ₚ map (fun name => (weightA name * weightA name)%float) allBA
  /\ map (fun name => (weightB name * weightB name)%float) allAB
     ≡ₚ map (fun name => (weightB name * weightB name)%float) allBA
  /\ dotProduct (vectorOf termsA allAB) (vectorOf termsB allAB)
     = fold_left (fun sum name => (sum + weightA name * weightB name)%float) allAB 0%float
  /\ (textA = "" \/ textB = "" ->
      calculateMatchScore N textA textB = calculateMatchScore N textB textA)
  /\ (dotProduct (vectorOf termsA allAB) (vectorOf termsB allAB)
        = dotProduct (vectorOf termsB allBA) (vectorOf termsA allBA) ->
      magnitude (vectorOf termsA allAB) = magnitude (vectorOf termsA allBA) ->
      magnitude (vectorOf termsB allAB) = magnitude (vectorOf termsB allBA) ->
      calculateMatchScore N textA textB = calculateMatchScore N textB textA).
Proof.
  intros HAB HBA allAB allBA weightA weightB.
  pose proof (allTermsOf_Permutation termsA termsB) as Hp. fold allAB allBA in Hp.
  assert (Hempty : textA = "" \/ textB = "" ->
            calculateMatchScore N textA textB = calculateMatchScore N textB textA).
  { intros [-> | ->]; unfold calculateMatchScore, scoreOrThrow; cbn [JS.falsy orb];
      by rewrite orb_true_r. }
  split; [done|]. split; [|split; [|split; [|split; [|split]]]]; try done.
  - rewrite Hp. erewrite map_ext; [done|]. intros name. apply mul_comm.
  - by rewrite Hp.
  - by rewrite Hp.
  - apply dotProduct_map.
  - intros Hdot Hm1 Hm2.
    destruct (decide (textA = "")) as [HA|HA]; [by apply Hempty; left|].
    destruct (decide (textB = "")) as [HB|HB]; [by apply Hempty; right|].
    rewrite (calculateMatchScore_terms N textA textB termsA termsB),
            (calculateMatchScore_terms N textB textA termsB termsA) by done.
    f_equal. by apply cosineScore_swapped.
Qed.

Lemma swapped_arguments_score_witness :
  calculateMatchScore Sample.wordTfIdf "react node developer" "java react engineer"
  = calculateMatchScore Sample.wordTfIdf "java react engineer" "react node developer".
Proof.
  apply (swapped_arguments_score Sample.wordTfIdf
           "react node developer" "java react engineer"
           [mkTerm "node" 1; mkTerm "developer" 1; mkTerm "react" 0x1.3066e09a033dap-1]
           [mkTerm "java" 1; mkTerm "engineer" 1; mkTerm "react" 0x1.3066e09a033dap-1]);
    by vm_compute.
Defined.

(** C3, as stated, fails. With the term frequencies (1, 1, 1, 5, 6) and
    (2, 1, 1, 3, 1) the cosine is 25/32, so that a hundred times the
    percentage is 7812.5, at a tie of [Math.round]: the sums of one order
    of the arguments end just below the tie and those of the other order on
    it, and the scores are 78.12 and 78.13. *)
Lemma swapped_texts_score_differs :
  calculateMatchScore Sample.wordTfIdf Sample.textA Sample.textB = Return 0x1.387ae147ae148p+6%float
  /\ calculateMatchScore Sample.wordTfIdf Sample.textB Sample.textA = Return 0x1.38851eb851eb8p+6%float
  /\ listTerms Sample.wordTfIdf Sample.textA Sample.textB
     = Return (Sample.termsA, Sample.termsB)
  /\ cosineScore Sample.termsA Sample.termsB <> cosineScore Sample.termsB Sample.termsA.
Proof.
  split; [by vm_compute|]. split; [by vm_compute|]. split; [by vm_compute|].
  intros H. vm_compute in H. discriminate.
Qed.

(** ** Weights of ordinary size *)

Section Sums64.
Local Open Scope R_scope.

Lemma F2R_pow2 (k e : Z) : (0 <= k)%Z -> F2R (2 ^ k) e = powerRZ 2 (k + e).
Proof. intros H. unfold F2R. by rewrite IZR_pow2, bpow_add. Qed.

(** The shift to the left that [binary_round] starts with, for a number
    of the normal range. *)
Lemma shl_align_fexp_normal (m : positive) (e : Z) :
  (-1021 <= Z.pos (digits2_pos m) + e)%Z ->
  (2 ^ 52 <= Z.pos (fst (shl_align m e (fexp prec emax (Z.pos (digits2_pos m) + e)))))%Z
  /\ F2R (Z.pos (fst (shl_align m e (fexp prec emax (Z.pos (digits2_pos m) + e))))) (snd (shl_align m e (fexp prec emax (Z.pos (digits2_pos m) + e))))
     = F2R (Z.pos m) e.
Proof.
  intros Hd. pose proof (digits2_pos_bounds m) as [L _].
  unfold shl_align, fexp, SpecFloat.emin, prec, emax.
  set (d := Z.pos (digits2_pos m)) in *.
  assert (Hd1 : (1 <= d)%Z) by (unfold d; lia).
  destruct (Z.max (d + e - 53) (3 - 1024 - 53) - e)%Z as [|p|p] eqn:E; cbn [fst snd].
  - split; [|done]. assert (d = 53%Z) as Ed by lia. by rewrite Ed in L.
  - split; [|done].
    assert (2 ^ 52 <= 2 ^ (d - 1))%Z by (apply Z.pow_le_mono_r; lia). lia.
  - rewrite iter_xO_value.
    assert (Ep : Z.pos p = (53 - d)%Z) by lia. split.
    + rewrite Ep.
      assert (2 ^ (d - 1) * 2 ^ (53 - d) = 2 ^ 52)%Z as <-.
      { rewrite <- Z.pow_add_r by lia. f_equal. lia. }
      apply Z.mul_le_mono_nonneg_r; [|done]. apply Z.pow_nonneg. lia.
    + rewrite F2R_shift by lia. f_equal. lia.
Qed.

(** The sum of two positive numbers, the second in the normal range:
    within one unit in the last place of the exact sum, or an overflow. *)
Lemma SFadd_near (ma mb : positive) (ea eb : Z) :
  powerRZ 2 (-1021) <= F2R (Z.pos mb) eb ->
  match SF64add (S754_finite false ma ea) (S754_finite false mb eb) with
  | S754_finite false mr er =>
      (2 ^ 52 <= Z.pos mr < 2 ^ 53)%Z
      /\ Rabs (F2R (Z.pos mr) er - (F2R (Z.pos ma) ea + F2R (Z.pos mb) eb)) <= powerRZ 2 er
  | S754_infinity false => powerRZ 2 1023 <= F2R (Z.pos ma) ea + F2R (Z.pos mb) eb
  | _ => False
  end.
Proof.
  intros Hb. unfold SF64add. cbn [SFadd cond_Zopp].
  set (ez := Z.min ea eb).
  pose proof (shl_align_value ma ea ez ltac:(unfold ez; lia)) as Ea.
  pose proof (shl_align_value mb eb ez ltac:(unfold ez; lia)) as Eb.
  set (a := fst (shl_align ma ea ez)) in *. set (b := fst (shl_align mb eb ez)) in *.
  change (Z.pos a + Z.pos b)%Z with (Z.pos (a + b)). cbn [SpecFloat.binary_normalize].
  assert (Ex : F2R (Z.pos (a + b)) ez = F2R (Z.pos ma) ea + F2R (Z.pos mb) eb).
  { replace (F2R (Z.pos ma) ea) with (F2R (Z.pos ma * 2 ^ (ea - ez)) ez)
      by (rewrite F2R_shift by (unfold ez; lia); f_equal; lia).
    replace (F2R (Z.pos mb) eb) with (F2R (Z.pos mb * 2 ^ (eb - ez)) ez)
      by (rewrite F2R_shift by (unfold ez; lia); f_equal; lia).
    rewrite Pos2Z.inj_add, Ea, Eb. unfold F2R. rewrite plus_IZR. lra. }
  pose proof (F2R_pos (Z.pos ma) ea ltac:(lia)) as Hapos.
  unfold SpecFloat.binary_round.
  assert (Hd : (-1021 <= Z.pos (digits2_pos (a + b)) + ez)%Z).
  { pose proof (F2R_digits (a + b) ez) as [_ Ud].
    assert (H : powerRZ 2 (-1021) < powerRZ 2 (Z.pos (digits2_pos (a + b)) + ez)) by lra.
    apply bpow_lt_inv in H. lia. }
  pose proof (shl_align_fexp_normal (a + b) ez Hd) as [Hmz Ez].
  destruct (shl_align (a + b) ez _) as [mz ez']. cbn [fst snd] in Hmz, Ez.
  pose proof (F2R_digits mz ez') as [Lz Uz].
  assert (Hdz : (-1021 <= Zdigits2 (Z.pos mz) + ez')%Z).
  { assert (H : powerRZ 2 (-1021) < powerRZ 2 (Z.pos (digits2_pos mz) + ez')) by lra.
    apply bpow_lt_inv in H. cbn [Zdigits2]. lia. }
  pose proof (binary_round_aux_near (Z.pos mz) ez' loc_Exact (F2R (Z.pos mz) ez')
                Hmz Hdz) as H.
  specialize (H ltac:(split; [lra | rewrite F2R_succ; pose proof (bpow_pos ez'); lra])).
  destruct (SpecFloat.binary_round_aux prec emax false _ _ _) as [s|[]| |[] mr er];
    try done.
  - cbn [Zdigits2] in H.
    pose proof (bpow_le 1023 (Z.pos (digits2_pos mz) + ez' - 1) ltac:(lia)). lra.
  - destruct H as (Hmr & _ & Habs). split; [done|]. by rewrite <- Ex, <- Ez.
Qed.
End Sums64.

Section Moderate64.
Local Open Scope Z_scope.

(** A weight of ordinary size is a number of 53 digits. *)
Lemma moderate_spec (w : float) :
  moderate w = true ->
  exists s m e, Prim2SF w = S754_finite s m e
    /\ 2 ^ 52 <= Z.pos m < 2 ^ 53 /\ -502 <= e <= 398.
Proof.
  unfold moderate. rewrite andb_true_iff, !leb_spec, abs_spec.
  change (Prim2SF 0x1p-450) with (S754_finite false 4503599627370496 (-502)).
  change (Prim2SF 0x1p+450) with (S754_finite false 4503599627370496 398).
  pose proof (Prim2SF_valid w) as V.
  destruct (Prim2SF w) as [s|s| |s m e]; [by intros [? ?]..|].
  cbn [valid_binary] in V. apply bounded_digits in V as (Hd & He & Hn).
  cbn [SFabs]. unfold SFleb, SFcompare. rewrite !compare_cont_Eq.
  intros [H1 H2]. exists s, m, e. split; [done|].
  assert (He1 : -502 <= e) by (destruct (Z.compare_spec (-502) e); (done || lia)).
  assert (He2 : e <= 398) by (destruct (Z.compare_spec e 398); (done || lia)).
  specialize (Hn ltac:(lia)). pose proof (digits2_pos_bounds m) as Hm.
  rewrite Hn in Hm. done.
Qed.
End Moderate64.

Section Squares64.
Local Open Scope R_scope.

(** The product of a number of the normal range with itself overflows for
    an exponent above 458 only. *)
Lemma SFmul_self_overflow (mr : positive) (er : Z) :
  (2 ^ 52 <= Z.pos mr < 2 ^ 53)%Z ->
  SF64mul (S754_finite false mr er) (S754_finite false mr er) = S754_infinity false ->
  (459 <= er)%Z.
Proof.
  intros Hmr Hinf. destruct (Z_lt_le_dec er (-563)) as [Hlo|Hlo].
  { destruct (SFmul_self_clamped mr er Hmr ltac:(lia)) as (p & _ & _ & H).
    by rewrite Hinf in H. }
  revert Hinf. unfold SF64mul. cbn [SFmul xorb].
  change (2 ^ 52)%Z with 4503599627370496%Z in *.
  change (2 ^ 53)%Z with 9007199254740992%Z in *.
  assert (Hm : (2 ^ 104 <= Z.pos (mr * mr) < 2 ^ 106)%Z).
  { change (2 ^ 104)%Z with (4503599627370496 * 4503599627370496)%Z.
    change (2 ^ 106)%Z with (9007199254740992 * 9007199254740992)%Z.
    rewrite Pos2Z.inj_mul. nia. }
  pose proof (Zdigits2_bounds (Z.pos (mr * mr)) ltac:(lia)) as [Ld Ud].
  assert (Hd : (105 <= Zdigits2 (Z.pos (mr * mr)) <= 106)%Z).
  { split.
    - destruct (Z_lt_le_dec (Zdigits2 (Z.pos (mr * mr))) 105) as [H|H]; [|done].
      assert (2 ^ Zdigits2 (Z.pos (mr * mr)) <= 2 ^ 104)%Z by (apply Z.pow_le_mono_r; lia).
      lia.
    - destruct (Z_lt_le_dec 106 (Zdigits2 (Z.pos (mr * mr)))) as [H|H]; [|done].
      assert (2 ^ 106 <= 2 ^ (Zdigits2 (Z.pos (mr * mr)) - 1))%Z
        by (apply Z.pow_le_mono_r; lia).
      lia. }
  pose proof (binary_round_aux_near (Z.pos (mr * mr)) (er + er) loc_Exact
                (F2R (Z.pos (mr * mr)) (er + er))) as H.
  specialize (H ltac:(change (2 ^ 52)%Z with 4503599627370496%Z;
                      change (2 ^ 104)%Z with 20282409603651670423947251286016%Z in Hm; lia)
                ltac:(lia)).
  specialize (H ltac:(split; [lra | apply F2R_le; lia])).
  intros Hinf. rewrite Hinf in H. lia.
Qed.

(** The square of a weight of ordinary size. *)
Lemma SFmul_self_moderate (s : bool) (m : positive) (e : Z) :
  (2 ^ 52 <= Z.pos m < 2 ^ 53)%Z -> (-502 <= e <= 398)%Z ->
  match SF64mul (S754_finite s m e) (S754_finite s m e) with
  | S754_finite false mp ep =>
      powerRZ 2 (-901) <= F2R (Z.pos mp) ep <= powerRZ 2 903
  | _ => False
  end.
Proof.
  intros Hm He.
  assert (Es : SF64mul (S754_finite s m e) (S754_finite s m e)
               = SF64mul (S754_finite false m e) (S754_finite false m e)) by by destruct s.
  rewrite Es. clear Es.
  pose proof (SFmul_self_near m e Hm ltac:(lia)) as H.
  pose proof (SFmul_self_overflow m e Hm) as Hover.
  destruct (SF64mul _ _) as [[]|[]| |[] mp ep]; try done; [specialize (Hover eq_refl); lia|].
  destruct H as (Hmp & Habs).
  destruct (ulp_relative _ _ _ (proj1 Hmp) Habs) as [Hp Hrel].
  apply Rabs_bounds in Hrel. rewrite F2R_mul in Hrel.
  assert (Hsq : powerRZ 2 (-900) <= F2R (Z.pos m * Z.pos m) (e + e) <= powerRZ 2 902).
  { change (2 ^ 52)%Z with 4503599627370496%Z in Hm.
    change (2 ^ 53)%Z with 9007199254740992%Z in Hm. split.
    - etrans; [apply (bpow_le _ (104 + (e + e))); lia|].
      rewrite <- F2R_pow2 by lia. apply F2R_le.
      change (2 ^ 104)%Z with (4503599627370496 * 4503599627370496)%Z. nia.
    - etrans; [|apply (bpow_le (106 + (e + e))); lia].
      rewrite <- F2R_pow2 by lia. apply F2R_le.
      change (2 ^ 106)%Z with (9007199254740992 * 9007199254740992)%Z. nia. }
  assert (E1 : powerRZ 2 (-900) = 2 * powerRZ 2 (-901)) by exact (bpow_succ (-901)).
  assert (E2 : powerRZ 2 903 = 2 * powerRZ 2 902) by exact (bpow_succ 902).
  pose proof (bpow_pos (-901)). pose proof (bpow_pos 902).
  unfold epsilon in Hrel. lra.
Qed.
End Squares64.

Section SumOfSquares.
Local Open Scope R_scope.

Lemma sumUpTo_step (acc x : float) (k : Z) :
  (0 <= k < 2 ^ 50)%Z -> sumUpTo (Prim2SF acc) k -> moderate x = true ->
  sumUpTo (Prim2SF (acc + x * x)) (k + 1).
Proof.
  intros Hk Hacc Hx. apply moderate_spec in Hx as (s & m & e & Ex & Hm & He).
  rewrite add_spec, mul_spec, Ex.
  pose proof (SFmul_self_moderate s m e Hm He) as Hsq.
  destruct (SF64mul _ _) as [[]|[]| |[] mp ep]; try done.
  destruct Hsq as [Lp Up]. unfold sumUpTo in Hacc.
  change (2 ^ 50)%Z with 1125899906842624%Z in Hk.
  assert (HK : 0 <= IZR k <= 1125899906842624).
  { split; [apply (IZR_le 0) | apply IZR_le]; lia. }
  pose proof (bpow_pos 903) as HB.
  destruct (Prim2SF acc) as [[]|[]| |[] ma ea]; try done.
  - subst k. unfold SF64add. cbn [SFadd sumUpTo]. split; [lia|].
    change (IZR (0 + 1)) with 1. lra.
  - destruct Hacc as [Hk0 Ha].
    pose proof (SFadd_near ma mp ea ep
      ltac:(pose proof (bpow_le (-1021) (-901) ltac:(lia)); lra)) as H.
    assert (Hsum : F2R (Z.pos ma) ea + F2R (Z.pos mp) ep <= (2 * IZR k + 1) * powerRZ 2 903)
      by lra.
    destruct (SF64add _ _) as [[]|[]| |[] mr er]; try done.
    + exfalso.
      assert (E : powerRZ 2 1023 = powerRZ 2 120 * powerRZ 2 903) by (by rewrite <- bpow_add).
      assert (E' : powerRZ 2 120 = 1329227995784915872903807060280344576).
      { rewrite <- IZR_pow2 by lia. done. }
      nra.
    + destruct H as (Hmr & Habs).
      destruct (ulp_relative _ _ _ (proj1 Hmr) Habs) as [Hr Hrel].
      apply Rabs_bounds in Hrel. cbn [sumUpTo]. rewrite plus_IZR. split; [lia|].
      assert (F : 2 * IZR k + 1 <= (2 * (IZR k + 1)) * (1 - epsilon))
        by (unfold epsilon; lra).
      apply Rmult_le_reg_r with (1 - epsilon); [unfold epsilon; lra|].
      trans ((2 * IZR k + 1) * powerRZ 2 903); [lra|].
      replace (2 * (IZR k + 1) * powerRZ 2 903 * (1 - epsilon))
        with ((2 * (IZR k + 1)) * (1 - epsilon) * powerRZ 2 903) by ring.
      apply Rmult_le_compat_r; lra.
Qed.

Lemma sumOfSquares_moderate_from (v : list float) (i : nat) (acc : float) (k : Z) :
  Forall (fun x => moderate x = true) v ->
  (0 <= k)%Z -> (k + Z.of_nat (length v) <= 2 ^ 50)%Z ->
  sumUpTo (Prim2SF acc) k ->
  sumUpTo (Prim2SF
    (Num.reduceFrom (fun sum val (_ : nat) => (sum + val * val)%float) v i acc))
    (k + Z.of_nat (length v)).
Proof.
  revert i acc k. induction v as [|x v IH]; intros i acc k Hv Hk Hn Hacc.
  - cbn. by rewrite Z.add_0_r.
  - apply Forall_cons in Hv as [Hx Hv]. cbn [Num.reduceFrom].
    cbn [length] in *. rewrite Nat2Z.inj_succ in *.
    replace (k + Z.succ (Z.of_nat (length v)))%Z with (k + 1 + Z.of_nat (length v))%Z by lia.
    apply IH; [done|lia|lia|]. apply sumUpTo_step; [lia|done|done].
Qed.

(** The sum of the squares of weights of ordinary size is a positive
    number below [2^954]. *)
Lemma sumOfSquares_moderate (v : list float) :
  v <> [] -> Forall (fun x => moderate x = true) v ->
  (Z.of_nat (length v) <= 2 ^ 50)%Z ->
  exists m e, Prim2SF (sumOfSquares v) = S754_finite false m e
    /\ F2R (Z.pos m) e <= powerRZ 2 954.
Proof.
  intros Hne Hv Hn.
  pose proof (sumOfSquares_moderate_from v 0 0%float 0 Hv ltac:(lia) ltac:(lia)
                ltac:(done)) as H.
  fold (Num.reduce (fun sum val (_ : nat) => (sum + val * val)%float) v 0%float) in H.
  fold (sumOfSquares v) in H. rewrite Z.add_0_l in H.
  destruct (Prim2SF (sumOfSquares v)) as [[]|[]| |[] m e]; try done.
  - destruct v; [done | cbn in H; lia].
  - exists m, e. split; [done|]. destruct H as [_ H].
    change (2 ^ 50)%Z with 1125899906842624%Z in Hn. apply IZR_le in Hn.
    assert (E : powerRZ 2 954 = powerRZ 2 51 * powerRZ 2 903) by (by rewrite <- bpow_add).
    assert (E' : powerRZ 2 51 = 2251799813685248) by (rewrite <- IZR_pow2 by lia; done).
    pose proof (bpow_pos 903). nra.
Qed.
End SumOfSquares.

Lemma isFinite_finite (x : float) (s : bool) (m : positive) (e : Z) :
  Prim2SF x = S754_finite s m e -> isFinite x = true.
Proof. intros E. unfold isFinite. by rewrite ltb_spec, abs_spec, E. Qed.

Section Magnitude.
Local Open Scope R_scope.

(** The magnitude of a vector of weights of ordinary size is not zero,
    and its product with itself does not overflow. *)
Lemma magnitude_moderate (v : list float) :
  v <> [] -> Forall (fun x => moderate x = true) v ->
  (Z.of_nat (length v) <= 2 ^ 50)%Z ->
  Num.isZero (magnitude v) = false /\ isFinite (magnitude v * magnitude v) = true.
Proof.
  intros Hne Hv Hn.
  destruct (sumOfSquares_moderate v Hne Hv Hn) as (m & e & Es & Hs).
  pose proof (Prim2SF_valid (sumOfSquares v)) as V. rewrite Es in V.
  cbn [valid_binary] in V. unfold magnitude.
  pose proof (SFsqrt_near m e V) as Hr.
  pose proof (self_product_close m e V) as Hp.
  pose proof (sqrt_spec (sumOfSquares v)) as Eroot. rewrite Es in Eroot.
  pose proof (mul_spec (sqrt (sumOfSquares v)) (sqrt (sumOfSquares v))) as Ep.
  rewrite Eroot in Ep.
  destruct (SF64sqrt (S754_finite false m e)) as [[]|[]| |[] mr er] eqn:Er; try done.
  destruct Hr as (Hmr & Her & _ & Habs). split.
  - unfold Num.isZero. by rewrite FloatAxioms.eqb_spec, Eroot.
  - destruct (SF64mul _ _) as [[]|[]| |[] mp ep] eqn:Emul; try done;
      [|by apply (isFinite_finite _ _ _ _ Ep)].
    exfalso. pose proof (SFmul_self_overflow mr er Hmr Emul) as Hover.
    destruct (ulp_relative _ _ _ (proj1 Hmr) Habs) as [Hrpos Hrel].
    apply Rabs_bounds in Hrel.
    assert (Hroot : R_sqrt.sqrt (F2R (Z.pos m) e) <= powerRZ 2 477).
    { rewrite <- (sqrt_square (powerRZ 2 477)) by (pose proof (bpow_pos 477); lra).
      apply sqrt_le_1_alt. by rewrite <- bpow_add. }
    assert (Hbig : powerRZ 2 511 <= F2R (Z.pos mr) er).
    { etrans; [apply (bpow_le _ (52 + er)); lia|].
      rewrite <- F2R_pow2 by lia. apply F2R_le. lia. }
    assert (E1 : powerRZ 2 511 = 2 * powerRZ 2 510) by exact (bpow_succ 510).
    pose proof (bpow_le 477 510 ltac:(lia)). pose proof (bpow_pos 477).
    unfold epsilon in Hrel. lra.
Qed.
End Magnitude.

Lemma findTerm_present (terms : list Term) (name : string) :
  name ∈ map term terms ->
  exists t, findTerm terms name = Some t /\ In t terms.
Proof.
  intros Hin. destruct (findTerm terms name) as [t|] eqn:E.
  - exists t. split; [done|]. by apply findTerm_Some in E as [? _].
  - exfalso. apply list_elem_of_In, in_map_iff in Hin as (t & <- & Ht).
    apply (List.find_none _ _ E) in Ht. by rewrite String.eqb_refl in Ht.
Qed.

(** The vector of a list of terms against itself has a weight of the
    list for each distinct term. *)
Lemma vectorOf_moderate (terms : list Term) :
  terms <> [] -> Forall (fun t => moderate (tfidf t) = true) terms ->
  let vector := vectorOf terms (allTermsOf terms terms) in
  vector <> [] /\ Forall (fun x => moderate x = true) vector
  /\ length vector <= length terms.
Proof.
  intros Hne Hw. unfold vectorOf, allTermsOf, JS.setValues. cbn zeta.
  destruct (setAdd_spec (map term terms ++ map term terms) [] (NoDup_nil_2)) as [Hnd Hin].
  set (names := JS.setAdd [] _) in *.
  assert (Hnames : forall x, x ∈ names -> x ∈ map term terms).
  { intros x Hx. apply Hin in Hx as [Hx|Hx]; [by apply elem_of_nil in Hx|].
    by apply elem_of_app in Hx as [Hx|Hx]. }
  split; [|split].
  - destruct terms as [|t ts]; [done|].
    assert (Ht : term t ∈ names).
    { apply Hin. right. cbn [map]. apply elem_of_app. left. apply elem_of_cons. by left. }
    destruct names; [by apply elem_of_nil in Ht | done].
  - apply Forall_map, Forall_forall. intros name Hname.
    destruct (findTerm_present terms name (Hnames _ Hname)) as (t & -> & Ht).
    cbn. by apply (proj1 (List.Forall_forall _ _) Hw).
  - rewrite length_map, <- (length_map term terms).
    apply submseteq_length, NoDup_submseteq; done.
Qed.

(** The score of a list of terms with weights of ordinary size against
    itself. *)
Lemma selfScore_moderate (terms : list Term) :
  terms <> [] -> Forall (fun t => moderate (tfidf t) = true) terms ->
  (Z.of_nat (length terms) <= 2 ^ 50)%Z ->
  selfScore terms = 100%float.
Proof.
  intros Hne Hw Hn.
  destruct (vectorOf_moderate terms Hne Hw) as (Hv & Hm & Hl).
  destruct (magnitude_moderate _ Hv Hm ltac:(lia)) as [Hz Hfin].
  unfold selfScore. unfold magnitude in Hz, Hfin. cbn zeta. rewrite Hz.
  by apply self_score_100.
Qed.

(** C4, as amended. For a non-empty text whose two term lists are the
    same list [terms], the score is the rounded cosine of one vector with
    itself. It is 0 when the magnitude of the vector is zero, in
    particular when the text has no term at all. When the magnitude is
    not zero the score is exactly 100, whatever the weights, as long as
    the product of the magnitude with itself is a finite number; when
    this product overflows or is not a number, the score is not 100. In
    particular the score is exactly 100 when there is a term and every
    weight [w] is a number with [2^-450 <= |w| <= 2^450], for up to
    [2^50] terms. *)
Theorem identical_texts_score N (text : string) (terms : list Term) :
  text <> "" ->
  listTerms N (JS.toLowerCase text) (JS.toLowerCase text) = Return (terms, terms) ->
  let vector := vectorOf terms (allTermsOf terms terms) in
  calculateMatchScore N text text = Return (selfScore terms)
  /\ (Num.isZero (magnitude vector) = true -> selfScore terms = 0%float)
  /\ (terms = [] -> selfScore terms = 0%float)
  /\ (Num.isZero (magnitude vector) = false ->
      (selfScore terms = 100%float
       <-> isFinite (magnitude vector * magnitude vector) = true))
  /\ (terms <> [] -> Forall (fun t => moderate (tfidf t) = true) terms ->
      (Z.of_nat (length terms) <= 2 ^ 50)%Z ->
      calculateMatchScore N text text = Return 100%float).
Proof.
  intros Hne Hterms vector.
  assert (Hscore : calculateMatchScore N text text = Return (selfScore terms))
    by by rewrite (calculateMatchScore_terms N text text terms terms), cosineScore_self.
  split; [done|].
  unfold selfScore, magnitude. fold vector. repeat split.
  - by intros ->.
  - by intros ->.
  - rewrite H. intros H100.
    destruct (isFinite (sqrt (sumOfSquares vector) * sqrt (sumOfSquares vector))) eqn:E;
      [done|]. by destruct (self_score_overflow _ H E).
  - rewrite H. by apply self_score_100.
  - intros Hsome Hw Hn. by rewrite Hscore, selfScore_moderate.
Qed.

Lemma identical_texts_score_witness :
  calculateMatchScore Sample.wordTfIdf "React developer" "React developer"
  = Return 100%float.
Proof.
  apply (identical_texts_score Sample.wordTfIdf "React developer"
    [mkTerm "react" 0x1.3066e09a033dap-1%float;
     mkTerm "developer" 0x1.3066e09a033dap-1%float]
    ltac:(done) ltac:(by vm_compute)).
  - done.
  - by repeat constructor.
  - by vm_compute.
Defined.

(** C4, as stated, fails: a text of one space is not empty, it has no
    term, and its score against itself is 0. *)
Lemma identical_blank_texts_score_zero :
  " " <> "" /\ calculateMatchScore Sample.wordTfIdf " " " " = Return 0%float.
Proof. split; [done | by vm_compute]. Qed.

(** ** Further properties *)

(** X1. A text in which both the e-mail and the phone pattern are found
    scores at least 60: the base 50 and the two contact bonuses. *)
Theorem atsScore_contact_bonus (text : string) :
  hasEmail (signals text) = true -> hasPhone (signals text) = true ->
  (60 <= atsScore text)%Z.
Proof.
  intros He Hp. rewrite atsScore_sum.
  pose proof (actionVerbBonus_range text).
  unfold signalBonuses, bonus. rewrite He, Hp.
  destruct (hasSummary _), (hasExperience _), (hasEducation _), (hasSkills _),
    (hasNumbers _); lia.
Qed.

Lemma atsScore_contact_bonus_witness :
  (60 <= atsScore "email: john@x.com, phone 5551234567")%Z.
Proof.
  apply (atsScore_contact_bonus "email: john@x.com, phone 5551234567");
    by vm_compute.
Defined.

Lemma pushIf_length (b : bool) (s : string) (notes : list string) :
  length (pushIf b s notes) <= S (length notes).
Proof. unfold pushIf. destruct b; [rewrite length_app; cbn [length] | ]; lia. Qed.

Lemma improvementsOf_nonempty (text : string) (skills : list string) :
  improvementsOf text skills <> [].
Proof.
  unfold improvementsOf.
  destruct (pushIf _ _ (pushIf _ _ (pushIf _ _ (pushIf _ _ (pushIf _ _
             (pushIf _ _ (pushIf _ _ (pushIf _ _ [])))))))); done.
Qed.

(** X2. The notes of an analysis: at most five strengths, and between
    one and five improvements. *)
Theorem analysis_notes_bounded (text : string) :
  length (analysis_strengths (analyze text)) <= 5
  /\ 1 <= length (analysis_improvements (analyze text)) <= 5.
Proof.
  unfold analyze, JS.slice0. cbn [analysis_strengths analysis_improvements].
  rewrite !length_take. split; [lia|].
  pose proof (improvementsOf_nonempty text (extractSkills text)) as Hne.
  destruct (improvementsOf text (extractSkills text)); [done|]. cbn [length]. lia.
Qed.

Lemma bump_keys (word : string) (own own' : list (string * freq)) :
  bump word own = Some own' -> map fst own' = map fst own.
Proof.
  revert own'. induction own as [|[w v] own IH]; intros own' H; [done|].
  cbn in H. destruct (String.eqb w word).
  - by injection H as <-.
  - destruct (bump word own) as [own''|]; [|done].
    injection H as <-. cbn. f_equal. by apply IH.
Qed.

Lemma countWord_keys (own : list (string * freq)) (word k : string) :
  k ∈ map fst (countWord own word) -> k ∈ map fst own \/ k = word.
Proof.
  unfold countWord. destruct (bump word own) as [own'|] eqn:E.
  - rewrite (bump_keys _ _ _ E). by left.
  - destruct (inherited word); rewrite map_app; cbn; intros H;
      apply elem_of_app in H as [H|H]; auto;
      apply list_elem_of_singleton in H; auto.
Qed.

Lemma wordFreq_keys (words : list string) (own : list (string * freq)) (k : string) :
  k ∈ map fst (fold_left countWord words own) -> k ∈ map fst own \/ k ∈ words.
Proof.
  revert own. induction words as [|w words IH]; intros own H; [by left|].
  cbn in H. apply IH in H as [H|H].
  - apply countWord_keys in H as [H| ->]; [by left | right; left].
  - right. by right.
Qed.

(** X3. Every keyword is a word of more than three characters of the
    lower-cased text, and none is a stop word. *)
Theorem keywords_are_words (text keyword : string) :
  keyword ∈ keywordsOf text ->
  (3 < String.length keyword)
  /\ (keyword ∉ stopWords)
  /\ (keyword ∈ splitSpaces (blankNonLetters (JS.toLowerCase text))).
Proof.
  unfold keywordsOf, JS.slice0. intros H.
  apply list_elem_of_fmap in H as ([k v] & -> & H). cbn [fst].
  apply elem_of_take in H as (i & H & _). apply list_elem_of_lookup_2 in H.
  rewrite (sort_Permutation moreFrequent) in H.
  apply list_elem_of_In, List.filter_In in H as [Hin Hstop]. cbn [fst] in Hstop.
  assert (Hk : k ∈ map fst (fold_left countWord
             (List.filter (fun word => (3 <? String.length word)%nat)
                (splitSpaces (blankNonLetters (JS.toLowerCase text)))) [])).
  { apply list_elem_of_fmap. exists (k, v). split; [done | by apply list_elem_of_In]. }
  apply wordFreq_keys in Hk as [Hk|Hk]; [by apply elem_of_nil in Hk|].
  apply list_elem_of_In, List.filter_In in Hk as [Hw Hlen].
  split; [by apply Nat.ltb_lt|]. split; [|by apply list_elem_of_In].
  intros Hs. apply negb_true_iff, not_true_iff_false in Hstop. apply Hstop.
  apply existsb_exists. exists k. split; [by apply list_elem_of_In | apply String.eqb_refl].
Qed.

Lemma keywords_are_words_witness :
  3 < String.length "react".
Proof.
  apply (keywords_are_words "React and React Native apps" "react").
  by vm_compute; left.
Defined.

(** ** The matcher finds words of the pattern *)

Lemma spans_refl (s : Regex.pos) : spans s s [].
Proof. by split. Qed.

Lemma spans_trans (s m e : Regex.pos) (u v : list ascii) :
  spans s m u -> spans m e v -> spans s e (u ++ v).
Proof.
  intros [H1 H2] [H3 H4]. split.
  - by rewrite H1, H3, app_assoc.
  - by rewrite H4, H2, rev_app_distr, app_assoc.
Qed.

Lemma iterate_sound (body : Regex.pos -> list Regex.pos) (r : Regex.regex)
    (fuel : nat) (s e : Regex.pos) :
  (forall s' e', In e' (body s') -> exists w, spans s' e' w /\ derives r w) ->
  In e (Regex.iterate body fuel s) ->
  exists w, spans s e w /\ derives (Regex.Star r) w.
Proof.
  intros Hbody. revert s. induction fuel as [|n IH]; intros s; cbn [Regex.iterate].
  - intros [<- | []]. exists []. split; [apply spans_refl | constructor].
  - intros H. apply in_app_or in H as [H | [<- | []]].
    + apply in_flat_map in H as (m & Hm & He).
      destruct (_ <? _)%nat; [|done].
      apply Hbody in Hm as (u & Hu & Hdu). apply IH in He as (v & Hv & Hdv).
      exists (u ++ v). split; [by apply spans_trans with m | by constructor].
    + exists []. split; [apply spans_refl | constructor].
Qed.

Lemma run_sound (r : Regex.regex) (s e : Regex.pos) :
  In e (Regex.run r s) -> exists w, spans s e w /\ derives r w.
Proof.
  revert s e. induction r as [|p|r1 IH1 r2 IH2|r1 IH1 r2 IH2|r1 IH1|];
    intros s e; cbn [Regex.run].
  - intros [<- | []]. exists []. split; [apply spans_refl | constructor].
  - destruct s as [bef [|c rest]]; cbn; [done|].
    destruct (p c) eqn:Hp; [|done]. intros [<- | []].
    exists [c]. split; [by split | by constructor].
  - intros H. apply in_flat_map in H as (m & Hm & He).
    apply IH1 in Hm as (u & Hu & Hdu). apply IH2 in He as (v & Hv & Hdv).
    exists (u ++ v). split; [by apply spans_trans with m | by constructor].
  - intros H. apply in_app_or in H as [H|H].
    + apply IH1 in H as (w & Hw & Hd). exists w. split; [done | by constructor].
    + apply IH2 in H as (w & Hw & Hd). exists w. split; [done | by apply derives_Or_r].
  - apply iterate_sound. intros s' e'. apply IH1.
  - destruct (xorb _ _); [|done]. intros [<- | []].
    exists []. split; [apply spans_refl | constructor].
Qed.

(** The first match of a search: it starts after some characters [u] of
    the subject and reads a word of the pattern. *)
Lemma search_sound (r : Regex.regex) (bef aft : list ascii) (s e : Regex.pos) :
  Regex.search r bef aft = Some (s, e) ->
  exists u w, aft = u ++ w ++ Regex.after e /\ Regex.after s = w ++ Regex.after e
              /\ derives r w.
Proof.
  revert bef. induction aft as [|c rest IH]; intros bef; cbn [Regex.search].
  - destruct (Regex.run r _) as [|e' l] eqn:E; [done|]. intros [= <- <-].
    destruct (run_sound r (Regex.mkPos bef []) e') as (w & [Hw _] & Hd);
      [rewrite E; by left|].
    exists [], w. by cbn in *.
  - destruct (Regex.run r _) as [|e' l] eqn:E.
    + intros H. apply IH in H as (u & w & -> & Hs & Hd).
      exists (c :: u), w. by cbn.
    + intros [= <- <-].
      destruct (run_sound r (Regex.mkPos bef (c :: rest)) e') as (w & [Hw _] & Hd);
        [rewrite E; by left|].
      exists [], w. by cbn in *.
Qed.

Lemma matched_spans (s e : Regex.pos) (w : list ascii) :
  Regex.after s = w ++ Regex.after e ->
  Regex.matched (s, e) = string_of_list_ascii w.
Proof.
  intros H. unfold Regex.matched. rewrite H, length_app.
  replace (_ + _ - _) with (length w) by lia. by rewrite take_app_length.
Qed.

(** What [firstMatch] returns is a word of the pattern that the text
    contains. *)
Lemma firstMatch_sound (r : Regex.regex) (text m : string) :
  Regex.firstMatch r text = Some m ->
  exists u w v, list_ascii_of_string text = u ++ w ++ v
                /\ m = string_of_list_ascii w /\ derives r w.
Proof.
  unfold Regex.firstMatch, Regex.exec.
  destruct (Regex.search _ _ _) as [[s e]|] eqn:E; [|done]. intros [= <-].
  apply search_sound in E as (u & w & H & Hs & Hd).
  exists u, w, (Regex.after e). split; [done|]. split; [|done].
  by apply matched_spans.
Qed.

Lemma firstMatch_test (r : Regex.regex) (text : string) :
  Regex.test r text = match Regex.firstMatch r text with Some _ => true | None => false end.
Proof. unfold Regex.test, Regex.firstMatch. by destruct (Regex.exec r text). Qed.

(** ** Substrings *)

Lemma startsWith_prefix (w v : list ascii) :
  JS.startsWith (string_of_list_ascii (w ++ v)) (string_of_list_ascii w) = true.
Proof.
  induction w as [|c w IH]; cbn; [by destruct (string_of_list_ascii v)|].
  by rewrite Ascii.eqb_refl.
Qed.

Lemma includes_startsWith (s p : string) :
  JS.startsWith s p = true -> JS.includes s p = true.
Proof. intros H. destruct s; cbn [JS.includes]; by rewrite H. Qed.

Lemma includes_middle (u w v : list ascii) :
  JS.includes (string_of_list_ascii (u ++ w ++ v)) (string_of_list_ascii w) = true.
Proof.
  induction u as [|c u IH].
  - cbn [app]. apply includes_startsWith, startsWith_prefix.
  - cbn [app string_of_list_ascii JS.includes]. rewrite IH. apply orb_true_r.
Qed.

Lemma includes_firstMatch (r : Regex.regex) (text m : string) :
  Regex.firstMatch r text = Some m -> JS.includes text m = true.
Proof.
  intros H. apply firstMatch_sound in H as (u & w & v & Ht & -> & _).
  rewrite <- (string_of_list_ascii_of_string text), Ht. apply includes_middle.
Qed.

(** ** The shape of the contact fields *)

Lemma derives_Star_Class (p : ascii -> bool) (w : list ascii) :
  derives (Regex.Star (Regex.Class p)) w -> Forall (fun c => p c = true) w.
Proof.
  intros H. remember (Regex.Star (Regex.Class p)) as r eqn:Er.
  induction H as [|q c Hq|r1 r2 u v _ _ _ _|r1 r2 w _ _|r1 r2 w _ _| r |r u v Hu _ _ IH|];
    try discriminate; [constructor|].
  injection Er as ->. inversion Hu; subst. constructor; [done | by apply IH].
Qed.

Ltac derives_inv :=
  repeat match goal with
  | H : derives Regex.Empty _ |- _ => inversion H; subst; clear H
  | H : derives Regex.WordBoundary _ |- _ => inversion H; subst; clear H
  | H : derives (Regex.Class _) _ |- _ => inversion H; subst; clear H
  | H : derives (Regex.Cat _ _) _ |- _ => inversion H; subst; clear H
  | H : derives (Regex.Or _ _) _ |- _ => inversion H; subst; clear H
  | H : derives (Regex.Star (Regex.Class _)) _ |- _ => apply derives_Star_Class in H
  | H : Ascii.eqb _ _ = true |- _ => apply Ascii.eqb_eq in H; subst
  end.

Lemma emailRegex_shaped (w : list ascii) :
  derives emailRegex w -> emailShaped (string_of_list_ascii w).
Proof.
  unfold emailRegex, Regex.Plus, Regex.AtLeast, Regex.Times, Regex.Chr. intros H.
  derives_inv. unfold emailShaped. rewrite list_ascii_of_string_of_list_ascii.
  match goal with
  | |- context [ [] ++ ([?a] ++ ?l) ++ ["@"%char] ++ ([?b] ++ ?d) ++ ["."%char]
                 ++ (([?t1] ++ [?t2] ++ []) ++ ?t) ++ [] ] =>
      exists (a :: l), (b :: d), (t1 :: t2 :: t)
  end.
  cbn [app]. rewrite app_nil_r. repeat split; try done; cbn [length]; try lia;
    repeat constructor; done.
Qed.

Lemma phoneSep_chars :
  forall c, (oneOf "-." c || JS.isSpace c) = true ->
            JS.isDigit c = false /\ phoneChar c = true.
Proof.
  assert (H : forallb (fun c => implb (oneOf "-." c || JS.isSpace c)
                                  (negb (JS.isDigit c) && phoneChar c)) allChars = true)
    by (vm_compute; reflexivity).
  intros c Hc. pose proof (forall_chars _ H c) as H'. cbv beta in H'.
  rewrite Hc in H'. cbn [implb] in H'.
  apply andb_prop in H' as [H1 H2]. by apply negb_true_iff in H1.
Qed.

Lemma derives_Cat_inv (r1 r2 : Regex.regex) (w : list ascii) :
  derives (Regex.Cat r1 r2) w ->
  exists u v, w = u ++ v /\ derives r1 u /\ derives r2 v.
Proof. intros H. inversion H; subst. by eexists _, _. Qed.

Lemma digitsIn_app (u v : list ascii) : digitsIn (u ++ v) = digitsIn u + digitsIn v.
Proof. unfold digitsIn. by rewrite List.filter_app, length_app. Qed.

Lemma phonePiece_nil : phonePiece 0 0 0 [].
Proof. repeat split; cbn; try lia. constructor. Qed.

Lemma phonePiece_app (a b c a' b' c' : nat) (u v : list ascii) :
  phonePiece a b c u -> phonePiece a' b' c' v ->
  phonePiece (a + a') (b + b') (c + c') (u ++ v).
Proof.
  intros (H1 & H2 & H3) (H1' & H2' & H3'). unfold phonePiece.
  rewrite digitsIn_app, length_app. repeat split; try lia. by apply Forall_app.
Qed.

Lemma phonePiece_weaken (a b c a' b' c' : nat) (w : list ascii) :
  phonePiece a b c w -> a' <= a -> b <= b' -> c <= c' -> phonePiece a' b' c' w.
Proof. intros (H1 & H2 & H3) ? ? ?. repeat split; try lia. done. Qed.

Lemma phonePiece_digit (w : list ascii) : derives digit w -> phonePiece 1 1 1 w.
Proof.
  unfold digit. intros H. inversion H as [|p c Hc| | | | | |]; subst.
  unfold phonePiece, digitsIn, phoneChar. cbn [List.filter length]. rewrite Hc.
  cbn. repeat split; try lia. repeat constructor. by rewrite Hc.
Qed.

Lemma phonePiece_sep (w : list ascii) : derives phoneSep w -> phonePiece 0 0 1 w.
Proof.
  unfold phoneSep. intros H. inversion H as [|p c Hc| | | | | |]; subst.
  apply phoneSep_chars in Hc as [Hd Hc].
  unfold phonePiece, digitsIn. cbn [List.filter length]. rewrite Hd.
  cbn. repeat split; try lia. by repeat constructor.
Qed.

Lemma phonePiece_Chr (a : ascii) :
  JS.isDigit a = false -> phoneChar a = true ->
  forall w, derives (Regex.Chr a) w -> phonePiece 0 0 1 w.
Proof.
  unfold Regex.Chr. intros Hd Hc w H. inversion H as [|p c Hac| | | | | |]; subst.
  apply Ascii.eqb_eq in Hac as <-.
  unfold phonePiece, digitsIn. cbn [List.filter length]. rewrite Hd.
  cbn. repeat split; try lia. by repeat constructor.
Qed.

Lemma phonePiece_Opt (r : Regex.regex) (b c : nat) (w : list ascii) :
  (forall w, derives r w -> phonePiece 0 b c w) ->
  derives (Regex.Opt r) w -> phonePiece 0 b c w.
Proof.
  intros Hr H. inversion H as [| | |r1 r2 w' Hw|r1 r2 w' Hw| | |]; subst; [by apply Hr|].
  inversion Hw; subst. eapply phonePiece_weaken; [apply phonePiece_nil | lia..].
Qed.

Lemma phonePiece_Times (n : nat) (w : list ascii) :
  derives (Regex.Times n digit) w -> phonePiece n n n w.
Proof.
  revert w. induction n as [|n IH]; intros w H; cbn [Regex.Times] in H.
  - inversion H; subst. apply phonePiece_nil.
  - apply derives_Cat_inv in H as (u & v & -> & Hu & Hv).
    apply (phonePiece_app 1 1 1 n n n); [by apply phonePiece_digit | by apply IH].
Qed.

Lemma phonePiece_UpTo (n : nat) (w : list ascii) :
  derives (Regex.UpTo n digit) w -> phonePiece 0 n n w.
Proof.
  revert w. induction n as [|n IH]; intros w H; cbn [Regex.UpTo] in H.
  - inversion H; subst. apply phonePiece_nil.
  - revert H. apply phonePiece_Opt. clear w. intros w H.
    apply derives_Cat_inv in H as (u & v & -> & Hu & Hv).
    eapply phonePiece_weaken;
      [apply (phonePiece_app 1 1 1 0 n n); [by apply phonePiece_digit | by apply IH]
      | lia..].
Qed.

Lemma Times_digits (n : nat) (w : list ascii) :
  derives (Regex.Times n digit) w -> length w = n /\ forallb JS.isDigit w = true.
Proof.
  revert w. induction n as [|n IH]; intros w H; cbn [Regex.Times] in H.
  - by inversion H.
  - apply derives_Cat_inv in H as (u & v & -> & Hu & Hv).
    unfold digit in Hu. inversion Hu as [|p c Hc| | | | | |]; subst.
    apply IH in Hv as [<- Hv]. cbn. by rewrite Hc, Hv.
Qed.

Lemma phoneRegex_shaped (w : list ascii) :
  derives phoneRegex w -> phoneShaped (string_of_list_ascii w).
Proof.
  unfold phoneRegex. intros H.
  unfold phoneShaped. rewrite list_ascii_of_string_of_list_ascii.
  apply derives_Cat_inv in H as (w0 & x0 & -> & H0 & H). inversion H0; subst. clear H0.
  apply derives_Cat_inv in H as (w1 & x1 & -> & H1 & H).
  apply derives_Cat_inv in H as (w2 & x2 & -> & H2 & H).
  apply derives_Cat_inv in H as (w3 & x3 & -> & H3 & H).
  apply derives_Cat_inv in H as (w4 & x4 & -> & H4 & H).
  apply derives_Cat_inv in H as (w5 & x5 & -> & H5 & H).
  apply derives_Cat_inv in H as (w6 & x6 & -> & H6 & H).
  apply derives_Cat_inv in H as (w7 & x7 & -> & H7 & H).
  apply derives_Cat_inv in H as (w8 & x8 & -> & H8 & H). inversion H; subst. clear H.
  assert (P1 : phonePiece 0 3 5 w1).
  { revert H1. apply phonePiece_Opt. intros w H.
    apply derives_Cat_inv in H as (u & y & -> & Hu & H).
    apply derives_Cat_inv in H as (v & x & -> & Hv & Hx).
    unfold Regex.Between in Hv. apply derives_Cat_inv in Hv as (v1 & v2 & -> & Hv1 & Hv2).
    apply (phonePiece_app 0 0 1 0 3 4).
    - revert Hu. apply phonePiece_Opt, phonePiece_Chr; by vm_compute.
    - apply (phonePiece_app 0 3 3 0 0 1).
      + eapply phonePiece_weaken;
          [apply (phonePiece_app 1 1 1 0 2 2);
             [by apply (phonePiece_Times 1) | by apply (phonePiece_UpTo 2)]
          | lia..].
      + revert Hx. apply phonePiece_Opt, phonePiece_sep. }
  assert (P2 : phonePiece 0 0 1 w2)
    by (revert H2; apply phonePiece_Opt, phonePiece_Chr; by vm_compute).
  assert (P4 : phonePiece 0 0 1 w4)
    by (revert H4; apply phonePiece_Opt, phonePiece_Chr; by vm_compute).
  assert (P5 : phonePiece 0 0 1 w5) by (revert H5; apply phonePiece_Opt, phonePiece_sep).
  assert (P7 : phonePiece 0 0 1 w7) by (revert H7; apply phonePiece_Opt, phonePiece_sep).
  pose proof (phonePiece_Times 3 w3 H3) as P3.
  pose proof (phonePiece_Times 3 w6 H6) as P6.
  pose proof (phonePiece_Times 4 w8 H8) as P8.
  apply Times_digits in H8 as [Hlen Hdig].
  pose proof (phonePiece_app _ _ _ _ _ _ _ _ P1
               (phonePiece_app _ _ _ _ _ _ _ _ P2
               (phonePiece_app _ _ _ _ _ _ _ _ P3
               (phonePiece_app _ _ _ _ _ _ _ _ P4
               (phonePiece_app _ _ _ _ _ _ _ _ P5
               (phonePiece_app _ _ _ _ _ _ _ _ P6
               (phonePiece_app _ _ _ _ _ _ _ _ P7 P8))))))) as (Hd & Hl & Hc).
  cbn [app]. rewrite app_nil_r. cbn [Nat.add] in Hd, Hl.
  split; [lia|]. split; [lia|]. split; [done|].
  rewrite !app_assoc, length_app, Hlen.
  replace (_ + 4 - 4) with (length (((((((w1 ++ w2) ++ w3) ++ w4) ++ w5) ++ w6) ++ w7)))
    by lia.
  by rewrite drop_app_length.
Qed.

(** The contact field that [x || 'N/A'] gives for the first match of a
    pattern whose matches are never empty. *)
Lemma orNA_firstMatch (r : Regex.regex) (text : string) :
  (forall w, derives r w -> w <> []) ->
  match Regex.firstMatch r text with
  | Some m => orNA (Regex.firstMatch r text) = m /\ Regex.test r text = true
              /\ JS.includes text m = true
              /\ exists w, m = string_of_list_ascii w /\ derives r w
  | None => orNA (Regex.firstMatch r text) = "N/A" /\ Regex.test r text = false
  end.
Proof.
  intros Hne. rewrite firstMatch_test.
  destruct (Regex.firstMatch r text) as [m|] eqn:E; [|done].
  pose proof (includes_firstMatch _ _ _ E) as Hin.
  apply firstMatch_sound in E as (u & w & v & _ & -> & Hd).
  split; [|eauto]. cbn [orNA]. specialize (Hne w Hd). by destruct w.
Qed.

Lemma emailRegex_nonempty (w : list ascii) : derives emailRegex w -> w <> [].
Proof.
  intros H Hw. apply emailRegex_shaped in H as (l & d & t & H & _).
  rewrite list_ascii_of_string_of_list_ascii in H. subst w. by destruct l.
Qed.

Lemma phoneRegex_nonempty (w : list ascii) : derives phoneRegex w -> w <> [].
Proof.
  intros H Hw. apply phoneRegex_shaped in H as ([H _] & _).
  rewrite list_ascii_of_string_of_list_ascii in H. subst w. cbn in H. lia.
Qed.

(** X4. The e-mail of the contact information is ['N/A'] exactly when the
    e-mail rule of the ATS score finds nothing in the text; otherwise it
    is a substring of the text of the form [local@domain.tld]: a
    non-empty local part of letters, digits and [._%+-], a non-empty
    domain of letters, digits, dots and hyphens, and after its last dot
    two or more characters that are letters or [|]. *)
Theorem extractContactInfo_email (text : string) :
  let e := email (extractContactInfo text) in
  (hasEmail (signals text) = false /\ e = "N/A")
  \/ (hasEmail (signals text) = true /\ e <> "N/A"
      /\ JS.includes text e = true /\ emailShaped e).
Proof.
  cbn [extractContactInfo email signals hasEmail].
  pose proof (orNA_firstMatch emailRegex text emailRegex_nonempty) as H.
  destruct (Regex.firstMatch emailRegex text) as [m|].
  - destruct H as (-> & -> & Hin & w & -> & Hd). right.
    apply emailRegex_shaped in Hd as Hs. repeat split; try done.
    intros HNA. destruct Hs as (l & d & t & Hs & _). rewrite HNA in Hs.
    destruct l as [|? [|? [|? [|? ?]]]]; discriminate.
  - left. by destruct H as [-> ->].
Qed.

(** X5. The phone of the contact information is ['N/A'] exactly when the
    phone rule of the ATS score finds nothing in the text; otherwise it
    is a substring of the text of at most 19 characters, each a digit,
    one of [+()-.] or white space, with 10 to 13 digits of which the last
    four end the match. *)
Theorem extractContactInfo_phone (text : string) :
  let p := phone (extractContactInfo text) in
  (hasPhone (signals text) = false /\ p = "N/A")
  \/ (hasPhone (signals text) = true /\ p <> "N/A"
      /\ JS.includes text p = true /\ phoneShaped p).
Proof.
  cbn [extractContactInfo phone signals hasPhone].
  pose proof (orNA_firstMatch phoneRegex text phoneRegex_nonempty) as H.
  destruct (Regex.firstMatch phoneRegex text) as [m|].
  - destruct H as (-> & -> & Hin & w & -> & Hd). right.
    apply phoneRegex_shaped in Hd as Hs. repeat split; try done; try apply Hs.
    intros HNA. destruct Hs as ([Hs _] & _). rewrite HNA in Hs. vm_compute in Hs. lia.
  - left. by destruct H as [-> ->].
Qed.

(** ** Notes of the analysis *)

Ltac find_elem :=
  repeat first [ apply list_elem_of_here | apply list_elem_of_further ].

Lemma elem_of_pushIf (x : string) (b : bool) (s : string) (notes : list string) :
  x ∈ pushIf b s notes <-> x ∈ notes \/ (b = true /\ x = s).
Proof.
  unfold pushIf. destruct b.
  - rewrite elem_of_app, list_elem_of_singleton. tauto.
  - split; [by left | by intros [? | [? _]]].
Qed.

Lemma pushIf_nil (b : bool) (s : string) (notes : list string) :
  pushIf b s notes = [] <-> b = false /\ notes = [].
Proof.
  unfold pushIf. destruct b; [|by split; [|intros [_ ?]]].
  split; [|by intros [? _]]. intros H. by destruct notes.
Qed.

(** A note that is within the first [n] stays there when more notes are
    pushed. *)
Lemma elem_of_take_pushIf (n : nat) (x : string) (b : bool) (s : string)
    (notes : list string) :
  x ∈ take n notes -> x ∈ take n (pushIf b s notes).
Proof.
  unfold pushIf. destruct b; [|done]. rewrite take_app, elem_of_app. by left.
Qed.

Lemma elem_of_take_pushed (n : nat) (s : string) (notes : list string) :
  length notes < n -> s ∈ take n (pushIf true s notes).
Proof.
  intros H. unfold pushIf. rewrite take_app, take_ge by lia.
  apply elem_of_app. right. destruct (n - length notes) eqn:E; [lia|]. left.
Qed.

Lemma elem_of_take_nonempty (n : nat) (x : string) (notes filler : list string) :
  x ∈ take n notes -> x ∈ take n (match notes with [] => filler | _ => notes end).
Proof. destruct notes; [|done]. rewrite take_nil. by intros ?%elem_of_nil. Qed.

Lemma atsScore_allRules (text : string) :
  allRulesPass text -> atsScore text = 100%Z.
Proof.
  intros (Hsig & _ & Hv). rewrite atsScore_sum.
  unfold signalBonuses, actionVerbBonus, bonus. rewrite Hsig.
  cbn [hasEmail hasPhone hasSummary hasExperience hasEducation hasSkills hasNumbers]. lia.
Qed.

(** The rule that stands behind a strength. *)
Lemma strengthsOf_elem (text : string) (skills : list string) (x : string) :
  x ∈ strengthsOf text skills ->
  let sg := signals text in
  (hasEmail sg && hasPhone sg = true /\ x = "Complete contact information provided")
  \/ (hasExperience sg = true /\ x = "Work experience section is present")
  \/ (hasSkills sg = true /\ x = "Technical skills are clearly listed")
  \/ (5 <= length skills /\ x = profileNote (length skills))
  \/ (3 <= actionVerbCount text /\ x = "Uses strong action verbs")
  \/ (hasNumbers sg = true /\ x = "Includes quantifiable achievements").
Proof.
  unfold strengthsOf. cbv zeta. rewrite !elem_of_pushIf, elem_of_nil, !Nat.leb_le.
  unfold profileNote. tauto.
Qed.

Lemma improvementsOf_allRules (text : string) (skills : list string) :
  allRulesPass_for text skills -> improvementsOf text skills = fillerNotes.
Proof.
  intros (Hsig & Hs & Hv). unfold improvementsOf. rewrite Hsig.
  cbn [hasEmail hasPhone hasSummary hasExperience hasEducation hasSkills hasNumbers].
  by rewrite (proj2 (Nat.ltb_ge _ 5) Hs), (proj2 (Nat.ltb_ge _ 3) Hv).
Qed.

(** The rule that stands behind an improvement. *)
Lemma improvementsOf_elem (text : string) (skills : list string) (x : string) :
  x ∈ improvementsOf text skills ->
  let sg := signals text in
  (allRulesPass_for text skills /\ x = "Tailor resume for specific job descriptions")
  \/ (allRulesPass_for text skills /\ x = "Keep skills section updated")
  \/ (hasEmail sg && hasPhone sg = false /\ x = "Add complete contact information")
  \/ (hasSummary sg = false /\ x = "Include a professional summary")
  \/ (hasExperience sg = false /\ x = "Add work experience section")
  \/ (hasEducation sg = false /\ x = "Include education background")
  \/ (hasSkills sg = false /\ x = "Create a dedicated skills section")
  \/ (length skills < 5 /\ x = "List more relevant technical skills")
  \/ (actionVerbCount text < 3 /\ x = "Use more action verbs")
  \/ (hasNumbers sg = false /\ x = "Add quantifiable achievements").
Proof.
  unfold improvementsOf. cbv zeta.
  remember (pushIf _ "Add quantifiable achievements" _) as chain eqn:E.
  symmetry in E. destruct chain as [|y l'].
  - assert (Hall : allRulesPass_for text skills).
    { apply pushIf_nil in E as [Hnum E]. apply pushIf_nil in E as [Hverbs E].
      apply pushIf_nil in E as [Hcount E]. apply pushIf_nil in E as [Hskills E].
      apply pushIf_nil in E as [Hedu E]. apply pushIf_nil in E as [Hexp E].
      apply pushIf_nil in E as [Hsum E]. apply pushIf_nil in E as [Hcontact _].
      apply Nat.ltb_ge in Hverbs, Hcount.
      apply orb_false_elim in Hcontact as [He Hp].
      apply negb_false_iff in He, Hp, Hsum, Hexp, Hedu, Hskills, Hnum.
      unfold allRulesPass_for.
      destruct (signals text). cbn in He, Hp, Hsum, Hexp, Hedu, Hskills, Hnum.
      by subst. }
    intros H. apply elem_of_cons in H as [->|H]; [by left|].
    apply list_elem_of_singleton in H as ->. right. by left.
  - rewrite <- E, <- negb_andb.
    rewrite !elem_of_pushIf, elem_of_nil, !Nat.ltb_lt, !negb_true_iff. tauto.
Qed.

Lemma elem_of_take_elem {A} (n : nat) (x : A) (l : list A) : x ∈ take n l -> x ∈ l.
Proof. intros H. apply elem_of_take in H as (i & H & _). by apply list_elem_of_lookup_2 in H. Qed.

(** Splits the alternatives of [strengthsOf_elem] and [improvementsOf_elem]
    and drops those that name another note. *)
Ltac note_rule H :=
  cbv zeta in H; unfold profileNote in H;
  repeat (match type of H with _ \/ _ => destruct H as [H|H] end);
  (let Hc := fresh "Hc" in destruct H as [Hc H]); try discriminate H.

(** X6. The two general suggestions appear among the improvements only
    when every rule of the analysis is satisfied: all seven signals are
    found, at least five skills and at least three action verbs. The
    improvements are then these two suggestions, the ATS score is 100, and
    five of the six strengths are listed, the one about quantifiable
    achievements being cut. *)
Theorem filler_improvements (text note : string) :
  let a := analyze text in
  note ∈ fillerNotes -> note ∈ analysis_improvements a ->
  allRulesPass text
  /\ analysis_improvements a = fillerNotes
  /\ analysis_atsScore a = 100%Z
  /\ analysis_strengths a =
       [ "Complete contact information provided"; "Work experience section is present";
         "Technical skills are clearly listed";
         profileNote (length (extractSkills text)); "Uses strong action verbs" ].
Proof.
  intros a Hfill Hin. unfold a, analyze in *.
  cbn [analysis_improvements analysis_atsScore analysis_strengths] in *.
  apply elem_of_take_elem, improvementsOf_elem in Hin.
  assert (Hall : allRulesPass text).
  { unfold fillerNotes in Hfill. apply elem_of_cons in Hfill as [->|Hfill];
      [|apply list_elem_of_singleton in Hfill as ->]; note_rule Hin; done. }
  split; [done|]. split; [by rewrite improvementsOf_allRules|].
  split; [by apply atsScore_allRules|].
  destruct Hall as (Hsig & Hs & Hv). unfold strengthsOf, JS.slice0. rewrite Hsig.
  cbn [hasEmail hasPhone hasSummary hasExperience hasEducation hasSkills hasNumbers].
  rewrite (proj2 (Nat.leb_le 5 _) Hs), (proj2 (Nat.leb_le 3 _) Hv). reflexivity.
Qed.

Lemma filler_improvements_witness :
  analysis_atsScore
    (analyze ("Profile: jane@mail.org, 555-123-4567. Experience: developed, designed and "
              ++ "built 12 services with Python, Java, React, SQL and AWS. "
              ++ "Education: BSc. Skills: see above.")) = 100%Z.
Proof.
  apply (filler_improvements _ "Keep skills section updated"); vm_compute; find_elem.
Defined.

(** Bounds the length of a list of notes by the number of rules. *)
Ltac notes_length :=
  repeat match goal with
  | |- context [pushIf ?b ?s ?l] =>
      generalize (pushIf_length b s l); generalize (pushIf b s l); intros ?
  end;
  cbn [length]; intros; lia.

(** X7. No analysis names an aspect of the resume both as a strength and
    as an improvement. For the contact information, the experience
    section and the skills section exactly one of the two notes is
    given; the notes on the number of skills, the action verbs and the
    quantifiable achievements can both be missing, cut by the limit of
    five. *)
Theorem notes_exclusive (text : string) :
  let a := analyze text in
  (forall s i, (s, i) ∈ aspectNotes ->
     ~ (s ∈ analysis_strengths a /\ i ∈ analysis_improvements a))
  /\ (forall s i, (s, i) ∈ take 3 aspectNotes ->
        s ∈ analysis_strengths a \/ i ∈ analysis_improvements a)
  /\ (forall n, ~ (profileNote n ∈ analysis_strengths a
                   /\ "List more relevant technical skills" ∈ analysis_improvements a)).
Proof.
  cbv zeta. unfold analyze, JS.slice0.
  cbn [analysis_improvements analysis_atsScore analysis_strengths].
  split; [|split].
  - intros s i Hin [H1 H2]. unfold aspectNotes in Hin.
    apply elem_of_take_elem, strengthsOf_elem in H1.
    apply elem_of_take_elem, improvementsOf_elem in H2.
    repeat (apply elem_of_cons in Hin as [Hin|Hin];
            [injection Hin as -> ->; note_rule H1; note_rule H2; try congruence; try lia|]).
    by apply elem_of_nil in Hin.
  - intros s i Hin. unfold aspectNotes in Hin. cbn [take] in Hin.
    unfold strengthsOf, improvementsOf. cbv zeta.
    repeat (apply elem_of_cons in Hin as [Hin|Hin]; [injection Hin as -> ->|]);
      [| | |by apply elem_of_nil in Hin].
    + destruct (hasEmail (signals text) && hasPhone (signals text)) eqn:E.
      * left. do 5 apply elem_of_take_pushIf. apply elem_of_take_pushed. notes_length.
      * right. apply elem_of_take_nonempty. do 7 apply elem_of_take_pushIf.
        rewrite <- negb_andb, E. apply elem_of_take_pushed. notes_length.
    + destruct (hasExperience (signals text)).
      * left. do 4 apply elem_of_take_pushIf. apply elem_of_take_pushed. notes_length.
      * right. apply elem_of_take_nonempty. do 5 apply elem_of_take_pushIf.
        apply elem_of_take_pushed. notes_length.
    + destruct (hasSkills (signals text)).
      * left. do 3 apply elem_of_take_pushIf. apply elem_of_take_pushed. notes_length.
      * right. apply elem_of_take_nonempty. do 3 apply elem_of_take_pushIf.
        apply elem_of_take_pushed. notes_length.
  - intros n [H1 H2].
    apply elem_of_take_elem, strengthsOf_elem in H1.
    apply elem_of_take_elem, improvementsOf_elem in H2.
    note_rule H2. note_rule H1. lia.
Qed.

(** ** Keywords by frequency *)

Section StableSort.
Context {A : Type} (after : A -> A -> bool) (key : A -> Z) (pre : A -> A -> Prop)
  (ordered : A -> Prop).
Hypothesis after_key :
  forall y x, ordered y -> ordered x -> after y x = (key y <? key x)%Z.

Local Abbreviation before := (rankedBefore key pre).

Lemma insert_ranked (x : A) (acc : list A) :
  ordered x -> Forall ordered acc ->
  StronglySorted before acc -> Forall (fun y => pre y x) acc ->
  StronglySorted before (JS.insert after x acc).
Proof.
  intros Hx Hord. induction 1 as [|y acc Hacc IH Hy]; intros Hpre; cbn [JS.insert].
  - repeat constructor.
  - apply Forall_cons in Hpre as [Hyx Hpre]. apply Forall_cons in Hord as [Hoy Hord].
    rewrite (after_key y x Hoy Hx).
    destruct (Z.ltb_spec (key y) (key x)) as [Hlt|Hge].
    + constructor; [by constructor|]. constructor; [by left|].
      eapply Forall_impl; [exact Hy|]. intros z [Hz|[Hz _]]; left; lia.
    + constructor; [by apply IH|].
      rewrite (insert_Permutation after x acc). constructor; [|done].
      destruct (Z.eq_dec (key y) (key x)); [by right | left; lia].
Qed.

Lemma sort_ranked_from (l p rest acc : list A) :
  l = p ++ rest -> acc ≡ₚ p -> (forall a b, pre a b <-> precedes l a b) ->
  Forall ordered l ->
  StronglySorted before acc ->
  StronglySorted before (fold_left (fun acc x => JS.insert after x acc) rest acc).
Proof.
  revert p acc. induction rest as [|x rest IH]; intros p acc Hl Hp Hpre Hord Hacc; [done|].
  cbn [fold_left]. rewrite Hl in Hord. apply Forall_app in Hord as Hord'.
  destruct Hord' as [Hop Hor]. apply Forall_cons in Hor as [Hox Hor].
  apply (IH (p ++ [x])).
  - by rewrite <- app_assoc.
  - by rewrite insert_Permutation, Hp, Permutation_app_comm.
  - done.
  - by rewrite Hl.
  - apply insert_ranked; [done| by rewrite Hp |done|]. apply Forall_forall. intros y Hy.
    rewrite Hp in Hy. apply list_elem_of_split in Hy as (p1 & p2 & ->).
    apply Hpre. exists p1, p2, rest. by rewrite Hl, <- app_assoc.
Qed.

End StableSort.

(** The stable sort by descending key: what stands before is ranked
    before. *)
Lemma sort_ranked {A} (after : A -> A -> bool) (key : A -> Z) (ordered : A -> Prop)
    (l : list A) :
  (forall y x, ordered y -> ordered x -> after y x = (key y <? key x)%Z) ->
  Forall ordered l ->
  StronglySorted (rankedBefore key (precedes l)) (JS.sort after l).
Proof.
  intros Hafter Hord.
  apply (sort_ranked_from after key (precedes l) ordered Hafter l [] l []); try done.
  constructor.
Qed.

Lemma StronglySorted_impl {A} (R R' : A -> A -> Prop) (l : list A) :
  (forall a b, R a b -> R' a b) -> StronglySorted R l -> StronglySorted R' l.
Proof.
  intros H. induction 1 as [|x l Hl IH Hx]; constructor; [done|].
  eapply Forall_impl; [exact Hx|]. apply H.
Qed.

Lemma insert_map {A B} (after : A -> A -> bool) (after' : B -> B -> bool)
    (f : A -> B) (x : A) (l : list A) :
  (forall y x, after' (f y) (f x) = after y x) ->
  JS.insert after' (f x) (map f l) = map f (JS.insert after x l).
Proof.
  intros H. induction l as [|y l IH]; cbn; [done|].
  rewrite H. destruct (after y x); cbn; [done|]. by rewrite IH.
Qed.

Lemma sort_map {A B} (after : A -> A -> bool) (after' : B -> B -> bool)
    (f : A -> B) (l : list A) :
  (forall y x, after' (f y) (f x) = after y x) ->
  JS.sort after' (map f l) = map f (JS.sort after l).
Proof.
  intros H. unfold JS.sort. change (@nil B) with (map f []).
  generalize (@nil A) as acc. induction l as [|x l IH]; intros acc; cbn; [done|].
  by rewrite (insert_map after), IH.
Qed.

(** *** The counts *)

Lemma occurrences_snoc (k w : string) (l : list string) :
  occurrences k (l ++ [w]) = occurrences k l + (if String.eqb k w then 1 else 0).
Proof.
  unfold occurrences. rewrite List.filter_app, length_app. cbn.
  by destruct (String.eqb k w).
Qed.

Lemma occurrences_absent (w : string) (l : list string) :
  w ∉ l -> occurrences w l = 0.
Proof.
  intros H. unfold occurrences. induction l as [|x l IH]; cbn; [done|].
  apply not_elem_of_cons in H as [Hx Hl].
  destruct (String.eqb_spec w x); [done | by apply IH].
Qed.

Lemma occurrences_present (w : string) (l : list string) :
  w ∈ l -> 0 < occurrences w l.
Proof.
  intros H. unfold occurrences. induction H as [x l|x y l _ IH]; cbn.
  - rewrite String.eqb_refl. cbn. lia.
  - destruct (String.eqb x y); cbn; lia.
Qed.

Lemma setAdd_app (seen l1 l2 : list string) :
  JS.setAdd seen (l1 ++ l2) = JS.setAdd (JS.setAdd seen l1) l2.
Proof.
  revert seen. induction l1 as [|x l1 IH]; intros seen; cbn; [done|].
  by destruct (existsb _ _).
Qed.

Lemma setValues_spec (l : list string) :
  NoDup (JS.setValues l) /\ forall x, x ∈ JS.setValues l <-> x ∈ l.
Proof.
  destruct (setAdd_spec l [] (NoDup_nil_2)) as [H1 H2]. split; [done|].
  intros x. rewrite (H2 x), elem_of_nil. tauto.
Qed.

Lemma bump_absent (w : string) (c : string -> nat) (keys : list string) :
  w ∉ keys -> bump w (map (fun k => (k, Count (c k))) keys) = None.
Proof.
  induction keys as [|k keys IH]; intros H; cbn; [done|].
  apply not_elem_of_cons in H as [Hk Hkeys].
  destruct (String.eqb_spec k w); [congruence|]. by rewrite IH.
Qed.

Lemma bump_present (w : string) (c : string -> nat) (keys : list string) :
  NoDup keys -> w ∈ keys ->
  bump w (map (fun k => (k, Count (c k))) keys)
  = Some (map (fun k => (k, Count (c k + (if String.eqb k w then 1 else 0)))) keys).
Proof.
  induction 1 as [|k keys Hk Hnd IH]; intros H; [by apply elem_of_nil in H|].
  cbn. destruct (String.eqb_spec k w) as [->|Hne].
  - f_equal. f_equal. apply map_ext_in. intros k' Hk'.
    destruct (String.eqb_spec k' w) as [->|_]; [|by rewrite Nat.add_0_r].
    by apply list_elem_of_In in Hk'.
  - apply elem_of_cons in H as [->|H]; [done|]. rewrite (IH H). cbn.
    by rewrite Nat.add_0_r.
Qed.

Lemma countWord_countsOf (l : list string) (w : string) :
  w <> "constructor" -> countWord (countsOf l) w = countsOf (l ++ [w]).
Proof.
  intros Hw. unfold countWord, countsOf, JS.setValues.
  rewrite setAdd_app. fold (JS.setValues l). cbn [JS.setAdd].
  destruct (setValues_spec l) as [Hnd Hin].
  destruct (existsb (String.eqb w) (JS.setValues l)) eqn:E.
  - apply existsb_eqb_elem in E. rewrite (bump_present _ _ _ Hnd E).
    apply map_ext. intros k. by rewrite occurrences_snoc.
  - assert (Hout : w ∉ JS.setValues l) by (rewrite <- existsb_eqb_elem; congruence).
    rewrite (bump_absent _ _ _ Hout). unfold inherited.
    destruct (String.eqb_spec w "constructor"); [done|].
    rewrite map_app. cbn [map]. f_equal.
    + apply map_ext_in. intros k Hk. rewrite occurrences_snoc.
      destruct (String.eqb_spec k w) as [->|_]; [|by rewrite Nat.add_0_r].
      by apply list_elem_of_In in Hk.
    + rewrite occurrences_snoc, String.eqb_refl, occurrences_absent; [done|].
      by rewrite <- Hin.
Qed.

Lemma wordFreq_countsOf (rest counted : list string) :
  "constructor" ∉ rest ->
  fold_left countWord rest (countsOf counted) = countsOf (counted ++ rest).
Proof.
  revert counted. induction rest as [|w rest IH]; intros counted H; cbn.
  - by rewrite app_nil_r.
  - apply not_elem_of_cons in H as [Hw Hrest].
    rewrite countWord_countsOf by done. rewrite IH by done. by rewrite <- app_assoc.
Qed.

Lemma filter_map_comm {A B} (p : B -> bool) (f : A -> B) (l : list A) :
  List.filter p (map f l) = map f (List.filter (fun a => p (f a)) l).
Proof.
  induction l as [|x l IH]; cbn; [done|]. rewrite IH. by destruct (p (f x)).
Qed.

(** The keywords of a text without the word [constructor]: the first
    eight candidates of the stable sort by descending frequency. *)
Lemma keywordsOf_sorted (text : string) :
  "constructor" ∉ wordsOf text ->
  keywordsOf text =
  take 8 (JS.sort (fun y x => (occurrences y (wordsOf text) <? occurrences x (wordsOf text))%nat)
            (candidates text)).
Proof.
  intros H. unfold keywordsOf, JS.slice0. fold (wordsOf text).
  change (@nil (string * freq)) with (countsOf []).
  rewrite (wordFreq_countsOf (wordsOf text) [] H). cbn [app]. unfold countsOf.
  rewrite filter_map_comm. cbn [fst]. fold (candidates text).
  rewrite (sort_map (fun y x => (occurrences y (wordsOf text) <? occurrences x (wordsOf text))%nat)
             moreFrequent) by done.
  rewrite <- fmap_take. change (fmap ?f ?l) with (map f l). rewrite map_map. cbn [fst].
  by rewrite map_id.
Qed.

Lemma candidates_NoDup (text : string) : NoDup (candidates text).
Proof.
  unfold candidates. eapply sublist_NoDup; [|apply filter_sublist_of].
  apply setValues_spec.
Qed.

Lemma StronglySorted_app_inv {A} (R : A -> A -> Prop) (l1 l2 : list A) :
  StronglySorted R (l1 ++ l2) ->
  StronglySorted R l1 /\ forall a b, a ∈ l1 -> b ∈ l2 -> R a b.
Proof.
  induction l1 as [|x l1 IH]; cbn.
  - intros _. split; [constructor|]. by intros a b ?%elem_of_nil.
  - intros H. apply StronglySorted_inv in H as [Hs Hx]. destruct (IH Hs) as [H1 H2].
    split; [constructor; [done|] |].
    + apply Forall_app in Hx. apply Hx.
    + intros a b Ha Hb. apply elem_of_cons in Ha as [->|Ha]; [|by apply H2].
      apply Forall_app in Hx as [_ Hx]. by apply (proj1 (Forall_forall _ _) Hx).
Qed.

(** X8. In a text without the word [constructor], the keywords are the
    first eight candidates (the distinct words of more than three letters
    that are no stop words) in the order of a stable sort by descending
    frequency: a keyword stands before every keyword and every other
    candidate that is less frequent, or as frequent and later in the
    text. No keyword is listed twice. *)
Theorem keywords_ranked (text : string) :
  "constructor" ∉ wordsOf text ->
  let keywords := keywordsOf text in
  NoDup keywords
  /\ (forall k, k ∈ keywords -> k ∈ candidates text)
  /\ length keywords = Nat.min 8 (length (candidates text))
  /\ StronglySorted (ranksBefore text) keywords
  /\ (forall k w, k ∈ keywords -> w ∈ candidates text -> w ∉ keywords ->
        ranksBefore text k w).
Proof.
  intros H keywords. unfold keywords. rewrite (keywordsOf_sorted text H).
  set (n := fun w => occurrences w (wordsOf text)).
  set (ranked := JS.sort (fun y x => (n y <? n x)%nat) (candidates text)).
  assert (Hperm : ranked ≡ₚ candidates text) by apply sort_Permutation.
  assert (Hsorted : StronglySorted (ranksBefore text) ranked).
  { apply (StronglySorted_impl
             (rankedBefore (fun w => Z.of_nat (n w)) (precedes (candidates text)))).
    - unfold rankedBefore, ranksBefore.
      intros a b Hab. cbv beta in Hab. unfold n in Hab.
      destruct Hab as [H1|[H1 H2]]; [left; lia | right; split; [lia | done]].
    - apply (sort_ranked _ _ (fun _ => True)).
      + intros y x _ _.
        destruct (Nat.ltb_spec (n y) (n x)), (Z.ltb_spec (Z.of_nat (n y)) (Z.of_nat (n x)));
          (done || lia).
      + by apply Forall_forall. }
  assert (Hnd : NoDup ranked) by (rewrite Hperm; apply candidates_NoDup).
  rewrite <- (take_drop 8 ranked) in Hsorted, Hnd.
  apply StronglySorted_app_inv in Hsorted as [Hs Hcut].
  apply NoDup_app in Hnd as (Hnd & _ & _).
  split; [done|]. split; [|split; [|split; [done|]]].
  - intros k Hk. rewrite <- Hperm. apply elem_of_take in Hk as (i & Hk & _).
    by apply list_elem_of_lookup_2 in Hk.
  - rewrite length_take. f_equal. by apply Permutation_length.
  - intros k w Hk Hw Hout. apply Hcut; [done|].
    rewrite <- Hperm, <- (take_drop 8 ranked), elem_of_app in Hw. by destruct Hw.
Qed.

Lemma keywords_ranked_witness :
  StronglySorted
    (ranksBefore "Node and React apps: built React with Node, tested React")
    ["react"; "node"; "apps"; "built"; "tested"].
Proof.
  replace ["react"; "node"; "apps"; "built"; "tested"]
    with (keywordsOf "Node and React apps: built React with Node, tested React")
    by (by vm_compute).
  apply (keywords_ranked "Node and React apps: built React with Node, tested React").
  apply (bool_decide_unpack _). by vm_compute.
Defined.

(** ** The upload filter *)

Lemma allowedTypes_supported :
  forallb supportedType allowedTypes = true.
Proof. by vm_compute. Qed.

(** X9. The upload filter accepts a file exactly when its media type is
    one of the eight allowed types, and refuses every other file with an
    error. For every file that it accepts the extraction has an
    extractor: [extractTextFromFile] returns what the selected package
    call returned or raises the error of the format, and "Unsupported
    file type" is not raised by the dispatch. *)
Theorem fileFilter_supported (X : Extractors) (f : File) :
  (fileFilter f = Return true <-> mimetype f ∈ allowedTypes)
  /\ (fileFilter f <> Return true -> exists e, fileFilter f = Throw e)
  /\ (fileFilter f = Return true ->
      supportedType (mimetype f) = true
      /\ extractTextFromFile X (buffer f) (mimetype f) (originalname f) =
         match selectedExtractor X (mimetype f) (buffer f) with
         | Return text => Return text
         | Throw e => Throw (extractionError (mimetype f) e)
         end).
Proof.
  unfold fileFilter, arrayIncludes.
  destruct (existsb (String.eqb (mimetype f)) allowedTypes) eqn:E.
  - assert (Hin : mimetype f ∈ allowedTypes) by by apply existsb_eqb_elem.
    split; [done|]. split; [done|]. intros _.
    assert (Hs : supportedType (mimetype f) = true).
    { apply (proj1 (forallb_forall _ _) allowedTypes_supported).
      by apply list_elem_of_In. }
    split; [done|]. by rewrite extractTextFromFile_eq, Hs.
  - split; [|split; [eauto | done]].
    split; [done|]. intros Hin. apply existsb_eqb_elem in Hin. congruence.
Qed.

Lemma fileFilter_supported_witness :
  extractTextFromFile Sample.plainExtractors (Sample.bytesOf "Curriculum vitae")
    "application/msword" "cv.doc" = Return "Curriculum vitae".
Proof.
  apply (fileFilter_supported Sample.plainExtractors
           (mkFile "cv.doc" "application/msword" (Sample.bytesOf "Curriculum vitae"))).
  reflexivity.
Defined.

(** ** The ranking form and the recruiter listing *)

Lemma falsy_trim (s : string) :
  JS.falsy (JS.trim s) = JS.falsy s || (String.length (JS.trim s) =? 0)%nat.
Proof.
  destruct (JS.falsy s) eqn:E.
  - destruct s; [done | discriminate].
  - cbn [orb]. by destruct (JS.trim s).
Qed.

(** X10. The recruiter page and the ranking route apply the same test to
    the job description: the page posts a description exactly when the
    route does not answer that a description is required. What the page
    posts is the description as typed, not trimmed. *)
Theorem handleRank_accepted (N : Natural) (jobDescription : string)
    (resumes : result (list Resume)) :
  (handleRank jobDescription = None
   <-> rankRoute N (Some jobDescription) resumes = RankNoDescription)
  /\ (forall body, handleRank jobDescription = Some body -> body = jobDescription).
Proof.
  unfold handleRank, rankRoute. rewrite falsy_trim.
  destruct (JS.falsy jobDescription || _).
  - split; [done|]. by intros body.
  - split; [|by intros body [= <-]]. split; [done|].
    destruct resumes as [l|e]; [|done]. by destruct (mapM _ l).
Qed.

Lemma unscored_rankedOf (N : Natural) (jd : string) (r : Resume) :
  unscored (rankedOf N jd r) = formatResume r.
Proof. done. Qed.

(** X11. The ranking shows the candidates of the listing: when both
    routes are given the same resumes, in whatever order, the ranked
    entries without their scores are the entries of the listing in another
    order, with the same contact data and skills. *)
Theorem ranking_lists_same (N : Natural) (jobDescription : string)
    (resumes resumes' : list Resume) (ranked : list Ranked) (total : nat) :
  resumes ≡ₚ resumes' ->
  rankRoute N (Some jobDescription) (Return resumes) = RankOk ranked total ->
  exists listed,
    recruiterResumesRoute (Return resumes') = ListOk listed
    /\ map unscored ranked ≡ₚ listed
    /\ total = length listed.
Proof.
  intros Hperm. unfold rankRoute.
  destruct (JS.falsy jobDescription || _); [done|].
  rewrite (mapM_returns _ (rankedOf N jobDescription)) by apply rankOne_returns.
  intros [= <- <-]. eexists. split; [done|].
  rewrite (Permutation_length (sort_Permutation _ _)), !length_map.
  split; [|by apply Permutation_length].
  rewrite (sort_Permutation scoreBelow), map_map.
  rewrite (map_ext _ _ (unscored_rankedOf N jobDescription)).
  by apply Permutation_map.
Qed.

Lemma ranking_lists_same_witness :
  exists listed,
    recruiterResumesRoute
      (Return [Sample.resumeOf 1 "react"; Sample.resumeOf 0 "java spring"]) = ListOk listed
    /\ map unscored
         (JS.sort scoreBelow
            (map (rankedOf Sample.wordTfIdf "react developer")
               [Sample.resumeOf 0 "java spring"; Sample.resumeOf 1 "react"]))
       ≡ₚ listed
    /\ 2 = length listed.
Proof.
  apply (ranking_lists_same Sample.wordTfIdf "react developer"
           [Sample.resumeOf 0 "java spring"; Sample.resumeOf 1 "react"]).
  - apply Permutation_swap.
  - reflexivity.
Defined.

(** ** Sessions *)

(** X12. The session changes only by a successful login and a successful
    logout. A login succeeds only for the user that [findOne] returned
    for the e-mail and a password that bcrypt accepts for the stored
    hash; the session is then that of this user: the check route reports
    the role, name and id, the routes behind [requireAuth] are open, and
    of the candidate and recruiter routes those of the role of the user,
    never both. After a logout the check route reports no
    authentication and every route behind [requireAuth] answers 401,
    before any role is looked at. *)
Theorem session_life_cycle (B : Bcrypt) (U : Users) (email password : option string)
    (users : list Account) (destroyed : option error) (session : Session) :
  match loginRoute B U email password users session with
  | (LoginOk role name userId, session') =>
      (exists user,
         findOneUser U (ByEmail (orEmpty email)) users = Return (Some user)
         /\ bcrypt_compare B (orEmpty password) (account_password user) = Return true
         /\ role = account_role user /\ name = account_username user
         /\ userId = account_id user)
      /\ checkRoute session' = Authenticated (Some role) (Some name) userId
      /\ guard anyUser session' = None
      /\ (guard candidateOnly session' = None <-> role = "candidate")
      /\ (guard recruiterOnly session' = None <-> role = "recruiter")
      /\ ~ (guard candidateOnly session' = None /\ guard recruiterOnly session' = None)
  | (_, session') => session' = session
  end
  /\ match logoutRoute destroyed session with
     | (LoggedOut, session') =>
         checkRoute session' = NotAuthenticated
         /\ guard anyUser session' = Some Unauthorized
         /\ guard candidateOnly session' = Some Unauthorized
         /\ guard recruiterOnly session' = Some Unauthorized
     | (LogoutFailed, session') => session' = session
     end.
Proof.
  split; [|by destruct destroyed].
  unfold loginRoute. destruct (missing email || missing password); [done|].
  destruct (findOneUser U _ users) as [[user|]|] eqn:Hfind; [|done..].
  destruct (bcrypt_compare B _ _) as [[]|] eqn:Hcmp; [|done..].
  split; [by exists user|]. split; [done|]. split; [done|].
  cbn. destruct (String.eqb_spec (account_role user) "candidate") as [->|Hc];
    destruct (String.eqb_spec (account_role user) "recruiter") as [Hr|Hr];
    try discriminate Hr; repeat split; try done; intros []; done.
Qed.

(** ** Stored files *)




(** ** Deleting a resume *)

Lemma removeFirst_removesOne (p : ResumeDoc -> bool) (docs : list ResumeDoc) :
  Memory.removeFirst p docs = docs \/ removesOne p docs (Memory.removeFirst p docs).
Proof.
  induction docs as [|d docs IH]; cbn; [by left|].
  destruct (p d) eqn:E.
  - right. by exists [], d, docs.
  - destruct IH as [->|(l1 & d' & l2 & -> & -> & Hp)]; [by left|].
    right. by exists (d :: l1), d', l2.
Qed.

Lemma Memory_meaningOf (q : resumeQuery) (p : ResumeDoc -> bool) :
  meaningOf q = Some p -> Memory.admits q = p.
Proof. destruct q as [id [userId|]|id]; cbn; [|done|]; by intros [= <-]. Qed.

(** The collection in memory is a model of the collection. *)
Lemma Memory_collectionModel : collectionModel Memory.resumes.
Proof.
  split.
  - intros q p docs d Hq [= Hfind]. rewrite (Memory_meaningOf q p Hq) in Hfind.
    apply find_some in Hfind as [Hin Hp]. split; [by apply list_elem_of_In | done].
  - intros q p docs Hq. cbn. rewrite (Memory_meaningOf q p Hq).
    apply removeFirst_removesOne.
Qed.

Lemma NoDup_ids_eq (docs : list ResumeDoc) (d d' : ResumeDoc) :
  NoDup (map doc_id docs) -> d ∈ docs -> d' ∈ docs -> doc_id d = doc_id d' -> d = d'.
Proof.
  intros Hnd Hd Hd' Hid.
  apply list_elem_of_lookup in Hd as [i Hi]. apply list_elem_of_lookup in Hd' as [j Hj].
  assert (i = j) as ->; [|congruence].
  apply (NoDup_lookup (map doc_id docs) i j (doc_id d)); [done|..].
  - change (map doc_id docs) with (doc_id <$> docs). by rewrite list_lookup_fmap, Hi.
  - change (map doc_id docs) with (doc_id <$> docs). by rewrite list_lookup_fmap, Hj, Hid.
Qed.

(** X14. A delete request changes the collection at most by removing one
    resume, and only the one it names when that resume belongs to the
    candidate of the session: on a collection whose ids are distinct, a
    resume of another user, or with another id, is never removed, and
    without the session of a candidate nothing is removed. *)
Theorem delete_own_only (R : Resumes) (session : Session) (id : nat)
    (docs : list ResumeDoc) :
  collectionModel R -> NoDup (map doc_id docs) ->
  let (response, docs') := deleteEndpoint R session id docs in
  docs' = docs
  \/ (exists l1 d l2,
        docs = l1 ++ d :: l2 /\ docs' = l1 ++ l2
        /\ doc_id d = id
        /\ session_userId session = Some (doc_userId d)
        /\ session_role session = Some "candidate"
        /\ (response = Handled DeleteOk \/ response = Handled DeleteFailed)).
Proof.
  intros [Hfind Hdelete] Hnd. unfold deleteEndpoint, deleteRoute.
  cbn [guard candidateOnly]. unfold requireAuth, requireRole.
  destruct (session_userId session) as [userId|]; [|by left].
  destruct (session_role session) as [role|]; [|by left].
  destruct (String.eqb_spec role "candidate") as [->|]; [|by left].
  destruct (findOneResume R _ docs) as [[resume|]|] eqn:E; [|by left..].
  destruct (Hfind (OwnResume id (Some userId)) _ docs resume eq_refl E) as [Hin Hown].
  apply andb_prop in Hown as [Hid Huser].
  apply Nat.eqb_eq in Hid, Huser.
  specialize (Hdelete (ResumeWithId id) _ docs eq_refl).
  destruct (deleteOneResume R (ResumeWithId id) docs) as [docs' err].
  cbn [fst] in Hdelete.
  destruct Hdelete as [->|(l1 & d & l2 & Hdocs & -> & Hd)]; [by destruct err; left|].
  apply Nat.eqb_eq in Hd.
  assert (d = resume) as ->.
  { apply (NoDup_ids_eq docs); [done| |done|congruence].
    rewrite Hdocs. apply elem_of_app. right. left. }
  destruct err; right; exists l1, resume, l2; repeat split; auto; congruence.
Qed.

Lemma delete_own_only_witness :
  deleteEndpoint Memory.resumes (Memory.candidate 7) 1
    [Memory.docOf 0 7; Memory.docOf 1 8; Memory.docOf 2 7]
  = (Handled DeleteNotFound, [Memory.docOf 0 7; Memory.docOf 1 8; Memory.docOf 2 7])
  /\ (let (response, docs') :=
        deleteEndpoint Memory.resumes (Memory.candidate 7) 2
          [Memory.docOf 0 7; Memory.docOf 1 8; Memory.docOf 2 7] in
      docs' = [Memory.docOf 0 7; Memory.docOf 1 8; Memory.docOf 2 7]
      \/ exists l1 d l2,
           [Memory.docOf 0 7; Memory.docOf 1 8; Memory.docOf 2 7] = l1 ++ d :: l2
           /\ docs' = l1 ++ l2 /\ doc_id d = 2
           /\ session_userId (Memory.candidate 7) = Some (doc_userId d)
           /\ session_role (Memory.candidate 7) = Some "candidate"
           /\ (response = Handled DeleteOk \/ response = Handled DeleteFailed)).
Proof.
  split; [reflexivity|].
  apply (delete_own_only Memory.resumes (Memory.candidate 7) 2
           [Memory.docOf 0 7; Memory.docOf 1 8; Memory.docOf 2 7]).
  - apply Memory_collectionModel.
  - apply (bool_decide_unpack _). by vm_compute.
Defined.

(** ** Signing up *)



(** ** Letter case *)

Lemma chars_ext (f g : ascii -> bool) :
  forallb (fun c => Bool.eqb (f c) (g c)) allChars = true -> forall c, f c = g c.
Proof. intros H c. apply Bool.eqb_prop. apply (forall_chars _ H c). Qed.

Lemma lowerChar_idem (c : ascii) : JS.lowerChar (JS.lowerChar c) = JS.lowerChar c.
Proof.
  apply Ascii.eqb_eq.
  apply (forall_chars (fun c => Ascii.eqb (JS.lowerChar (JS.lowerChar c)) (JS.lowerChar c))).
  by vm_compute.
Qed.

Lemma canonicalize_lower (c : ascii) : JS.canonicalize (JS.lowerChar c) = JS.canonicalize c.
Proof.
  apply Ascii.eqb_eq.
  apply (forall_chars (fun c => Ascii.eqb (JS.canonicalize (JS.lowerChar c))
                                  (JS.canonicalize c))).
  by vm_compute.
Qed.

Lemma toLowerCase_idem (s : string) : JS.toLowerCase (JS.toLowerCase s) = JS.toLowerCase s.
Proof. induction s as [|c s IH]; cbn; [done|]. by rewrite lowerChar_idem, IH. Qed.

Lemma toLowerCase_chars (s : string) :
  list_ascii_of_string (JS.toLowerCase s) = map JS.lowerChar (list_ascii_of_string s).
Proof. induction s as [|c s IH]; cbn; [done|]. by rewrite IH. Qed.

Lemma toLowerCase_length (s : string) : String.length (JS.toLowerCase s) = String.length s.
Proof. induction s as [|c s IH]; cbn; [done|]. by rewrite IH. Qed.

Lemma toLowerCase_falsy (s : string) : JS.falsy (JS.toLowerCase s) = JS.falsy s.
Proof. by destruct s. Qed.

Lemma wordAt_lower (l : list ascii) : Regex.wordAt (map JS.lowerChar l) = Regex.wordAt l.
Proof.
  destruct l as [|c l]; [done|]. cbn. revert c. apply chars_ext. by vm_compute.
Qed.

Lemma iterate_lower (body body' : Regex.pos -> list Regex.pos) (fuel : nat) (s : Regex.pos) :
  (forall s, body' (lowerPos s) = map lowerPos (body s)) ->
  Regex.iterate body' fuel (lowerPos s) = map lowerPos (Regex.iterate body fuel s).
Proof.
  intros Hbody. revert s. induction fuel as [|n IH]; intros s; cbn [Regex.iterate]; [done|].
  rewrite Hbody, map_app. cbn [map]. f_equal.
  induction (body s) as [|m l IHl]; cbn [flat_map map]; [done|].
  rewrite map_app, IHl. f_equal.
  unfold lowerPos at 1 2. cbn [Regex.after]. rewrite !length_map.
  destruct (_ <? _)%nat; [apply IH | done].
Qed.

(** A case-blind pattern matches in the lower-cased subject where it
    matches in the subject. *)
Lemma run_lower (r : Regex.regex) (s : Regex.pos) :
  caseBlind r -> Regex.run r (lowerPos s) = map lowerPos (Regex.run r s).
Proof.
  revert s. induction r as [|p|r1 IH1 r2 IH2|r1 IH1 r2 IH2|r1 IH1|]; intros s Hr;
    cbn [Regex.run caseBlind] in *.
  - done.
  - destruct s as [bef [|c rest]]; cbn; [done|]. rewrite Hr. by destruct (p c).
  - destruct Hr as [H1 H2]. rewrite (IH1 _ H1).
    induction (Regex.run r1 s) as [|m l IHl]; cbn [flat_map map]; [done|].
    by rewrite map_app, IHl, (IH2 _ H2).
  - destruct Hr as [H1 H2]. by rewrite map_app, (IH1 _ H1), (IH2 _ H2).
  - unfold lowerPos at 1. cbn [Regex.after]. rewrite length_map.
    apply iterate_lower. intros s'. by apply IH1.
  - unfold lowerPos at 1 2. cbn [Regex.after Regex.before]. rewrite !wordAt_lower.
    by destruct (xorb _ _).
Qed.

Lemma search_lower (r : Regex.regex) (bef aft : list ascii) :
  caseBlind r ->
  Regex.search r (map JS.lowerChar bef) (map JS.lowerChar aft)
  = option_map (fun m => (lowerPos (fst m), lowerPos (snd m))) (Regex.search r bef aft).
Proof.
  intros Hr. revert bef. induction aft as [|c rest IH]; intros bef;
    cbn [Regex.search map].
  - pose proof (run_lower r (Regex.mkPos bef []) Hr) as H. unfold lowerPos in H at 1.
    cbn [Regex.before Regex.after map] in H. rewrite H.
    clear H. destruct (Regex.run r (Regex.mkPos bef [])); reflexivity.
  - pose proof (run_lower r (Regex.mkPos bef (c :: rest)) Hr) as H.
    unfold lowerPos in H at 1. cbn [Regex.before Regex.after map] in H. rewrite H.
    clear H. destruct (Regex.run r (Regex.mkPos bef (c :: rest))); [|reflexivity].
    cbn [map]. apply (IH (c :: bef)).
Qed.

Lemma test_lower (r : Regex.regex) (text : string) :
  caseBlind r -> Regex.test r (JS.toLowerCase text) = Regex.test r text.
Proof.
  intros Hr. unfold Regex.test, Regex.exec. rewrite toLowerCase_chars.
  rewrite (search_lower r [] _ Hr). by destruct (Regex.search r [] _).
Qed.

Lemma caseBlind_LitI (w : string) : caseBlind (Regex.LitI w).
Proof.
  induction w as [|c w IH]; cbn; [done|]. split; [|done].
  intros x. by rewrite canonicalize_lower.
Qed.

Lemma caseBlind_Alternatives (l : list Regex.regex) :
  Forall caseBlind l -> caseBlind (Regex.Alternatives l).
Proof.
  induction 1 as [|r l Hr Hl IH]; [done|]. destruct l as [|r' l]; [done|].
  by split.
Qed.

Lemma caseBlind_anyOfI (words : list string) : caseBlind (anyOfI words).
Proof.
  apply caseBlind_Alternatives, Forall_forall. intros r Hr.
  apply list_elem_of_fmap in Hr as (w & -> & _). apply caseBlind_LitI.
Qed.

Ltac case_blind :=
  cbv [caseBlind emailRegex phoneRegex numbersRegex Regex.Plus Regex.Opt Regex.Times
       Regex.UpTo Regex.Between Regex.AtLeast Regex.Chr Regex.Alternatives digit
       phoneSep Nat.sub];
  repeat match goal with |- _ /\ _ => split | |- True => exact I end;
  match goal with
  | |- forall c : ascii, @?f c = @?g c => apply (chars_ext f g); by vm_compute
  end.

Lemma caseBlind_emailRegex : caseBlind emailRegex.
Proof. case_blind. Qed.

Lemma caseBlind_phoneRegex : caseBlind phoneRegex.
Proof. case_blind. Qed.

Lemma caseBlind_numbersRegex : caseBlind numbersRegex.
Proof. case_blind. Qed.

Lemma signals_lower (text : string) : signals (JS.toLowerCase text) = signals text.
Proof.
  unfold signals.
  rewrite (test_lower _ text caseBlind_emailRegex), (test_lower _ text caseBlind_phoneRegex),
    (test_lower _ text caseBlind_numbersRegex).
  unfold summaryRegex, experienceRegex, educationRegex, skillsRegex.
  by rewrite !(test_lower _ text (caseBlind_anyOfI _)).
Qed.

Lemma actionVerbCount_lower (text : string) :
  actionVerbCount (JS.toLowerCase text) = actionVerbCount text.
Proof.
  unfold actionVerbCount. f_equal. apply List.filter_ext. intros verb.
  apply test_lower, caseBlind_LitI.
Qed.

Lemma extractSkills_lower (text : string) :
  extractSkills (JS.toLowerCase text) = extractSkills text.
Proof. unfold extractSkills. by rewrite toLowerCase_idem. Qed.

Lemma keywordsOf_lower (text : string) :
  keywordsOf (JS.toLowerCase text) = keywordsOf text.
Proof. unfold keywordsOf. by rewrite toLowerCase_idem. Qed.

Lemma atsScore_lower (text : string) : atsScore (JS.toLowerCase text) = atsScore text.
Proof.
  unfold atsScore, actionVerbBonus. by rewrite signals_lower, actionVerbCount_lower.
Qed.

(** X16. The analysis and the match score are blind to letter case: a
    text and its lower-case form have the same ATS score, strengths,
    improvements, skills and keywords, the analyze route answers both
    alike, and the score of a resume against a job description is the
    score of their lower-case forms, whatever the TF-IDF package does.
    The texts are those of this development: strings of the characters up
    to [U+00FF]. *)
Theorem analysis_case_blind (N : Natural) (text jobDescription : string) :
  analyze (JS.toLowerCase text) = analyze text
  /\ analyzeRoute (Some (JS.toLowerCase text)) = analyzeRoute (Some text)
  /\ calculateMatchScore N (JS.toLowerCase text) (JS.toLowerCase jobDescription)
     = calculateMatchScore N text jobDescription.
Proof.
  assert (Ha : analyze (JS.toLowerCase text) = analyze text).
  { unfold analyze, strengthsOf, improvementsOf.
    by rewrite atsScore_lower, signals_lower, actionVerbCount_lower, extractSkills_lower,
      keywordsOf_lower. }
  split; [done|]. split.
  - unfold analyzeRoute. by rewrite toLowerCase_falsy, toLowerCase_length, Ha.
  - unfold calculateMatchScore, scoreOrThrow.
    by rewrite !toLowerCase_falsy, !toLowerCase_idem.
Qed.

(** ** The pages *)

Lemma dropChars_app (stem rest : string) :
  dropChars (String.length stem) (stem ++ rest) = rest.
Proof.
  induction stem as [|c stem IH]; [done|].
  change (dropChars (String.length stem) (String.append stem rest) = rest). exact IH.
Qed.

Lemma dropChars_suffix (n : nat) (s : string) : endsWith s (dropChars n s).
Proof.
  revert s. induction n as [|n IH]; intros s; [by exists ""|].
  destruct s as [|c s]; cbn; [by exists ""|].
  destruct (IH s) as [stem Hs]. exists (String c stem).
  exact (f_equal (String c) Hs).
Qed.

Lemma lastIndexFrom_none (c : ascii) (s : string) (i : nat) (last : Z) :
  (forall x, In x (list_ascii_of_string s) -> x <> c) ->
  lastIndexFrom c s i last = last.
Proof.
  revert i last. induction s as [|x s IH]; intros i last H; cbn; [done|].
  destruct (Ascii.eqb_spec x c) as [->|_].
  - exfalso. apply (H c); [by left | done].
  - apply IH. intros y Hy. apply H. by right.
Qed.

Lemma lastIndexFrom_app (c : ascii) (stem rest : string) (i : nat) (last : Z) :
  (forall x, In x (list_ascii_of_string rest) -> x <> c) ->
  lastIndexFrom c (stem ++ String c rest) i last = Z.of_nat (i + String.length stem).
Proof.
  intros Hrest. revert i last. induction stem as [|x stem IH]; intros i last.
  - change (lastIndexFrom c rest (S i) (if Ascii.eqb c c then Z.of_nat i else last)
            = Z.of_nat (i + 0)).
    rewrite Ascii.eqb_refl, lastIndexFrom_none by done. f_equal. lia.
  - change (lastIndexFrom c (String.append stem (String c rest)) (S i)
              (if Ascii.eqb x c then Z.of_nat i else last)
            = Z.of_nat (i + S (String.length stem))).
    rewrite IH. f_equal. lia.
Qed.

Lemma lastIndexFrom_lower (s : string) (i : nat) (last : Z) :
  lastIndexFrom "." (JS.toLowerCase s) i last = lastIndexFrom "." s i last.
Proof.
  revert i last. induction s as [|x s IH]; intros i last; cbn; [done|].
  rewrite IH. f_equal.
  rewrite (chars_ext (fun x => Ascii.eqb (JS.lowerChar x) ".") (fun x => Ascii.eqb x "."));
    [done | by vm_compute].
Qed.

(** The extension that the page reads off a name whose lower-case form
    ends with a dot and characters other than dots. *)
Lemma fileExtension_suffix (name stem rest : string) :
  JS.toLowerCase name = String.append stem (String "." rest) ->
  (forall x, In x (list_ascii_of_string rest) -> x <> "."%char) ->
  substring (JS.toLowerCase name) (lastIndexOf name ".") = String "." rest.
Proof.
  intros Hname Hrest. unfold substring, lastIndexOf.
  rewrite <- lastIndexFrom_lower, Hname, lastIndexFrom_app by done.
  rewrite Nat2Z.id. cbn [Nat.add]. apply dropChars_app.
Qed.

Lemma allowedExtensions_dots (ext : string) :
  ext ∈ allowedExtensions ->
  exists rest, ext = String "." rest
               /\ forall x, In x (list_ascii_of_string rest) -> x <> "."%char.
Proof.
  unfold allowedExtensions. intros H.
  repeat (apply elem_of_cons in H as [->|H];
          [eexists; split; [reflexivity|];
           intros x Hx; cbn in Hx; intuition (subst; discriminate)|]).
  by apply elem_of_nil in H.
Qed.

(** X17. The candidate page posts a selected file exactly when the
    lower-case form of its name ends with one of the six extensions and
    its size is at most 16 MiB. The notice about OCR is shown for the
    three image extensions, and the job title that is posted is always
    "Software Engineer". The names are those of this development:
    strings of the characters up to [U+00FF], whose lower-case form has
    the length of the name. *)
Theorem handleFileSelect_posted (file : Picked) :
  ((exists notice title, handleFileSelect (Some file) = Posted notice title)
   <-> (exists ext, ext ∈ allowedExtensions
                    /\ endsWith (JS.toLowerCase (picked_name file)) ext)
       /\ picked_size file <= 16 * 1024 * 1024)
  /\ (forall notice title,
        handleFileSelect (Some file) = Posted notice title ->
        title = "Software Engineer"
        /\ (notice = true <->
            exists ext, ext ∈ [".jpg"; ".jpeg"; ".png"]
                        /\ endsWith (JS.toLowerCase (picked_name file)) ext)).
Proof.
  unfold handleFileSelect. cbv zeta.
  set (extension := substring (JS.toLowerCase (picked_name file))
                      (lastIndexOf (picked_name file) ".")).
  assert (Hext : forall ext, ext ∈ allowedExtensions ->
                   endsWith (JS.toLowerCase (picked_name file)) ext -> extension = ext).
  { intros ext Hin [stem Hstem].
    destruct (allowedExtensions_dots ext Hin) as (rest & -> & Hrest).
    by apply (fileExtension_suffix _ stem rest). }
  assert (Hends : endsWith (JS.toLowerCase (picked_name file)) extension)
    by apply dropChars_suffix.
  split.
  - unfold arrayIncludes. destruct (existsb _ allowedExtensions) eqn:E; cbn [negb].
    + apply existsb_eqb_elem in E.
      destruct (Nat.ltb_spec (16 * 1024 * 1024) (picked_size file)) as [Hlt|Hle].
      * split; [by intros (? & ? & ?)|]. intros [_ H]. lia.
      * split; [|by eauto]. intros _. split; [|done]. by exists extension.
    + split; [by intros (? & ? & ?)|]. intros [(ext & Hin & He) _].
      rewrite <- (Hext ext Hin He) in Hin. apply existsb_eqb_elem in Hin. congruence.
  - intros notice title. unfold arrayIncludes.
    destruct (existsb _ allowedExtensions) eqn:E; cbn [negb]; [|done].
    destruct (_ <? _)%nat; [done|]. intros [= <- <-]. split; [done|].
    split.
    + intros H. exists extension. split; [|done].
      apply orb_prop in H as [H|H]; [apply orb_prop in H as [H|H]|];
        apply String.eqb_eq in H; rewrite H; find_elem.
    + intros (ext & Hin & He). rewrite (Hext ext); [|unfold allowedExtensions|done].
      * repeat (apply elem_of_cons in Hin as [->|Hin]; [by vm_compute|]).
        by apply elem_of_nil in Hin.
      * repeat (apply elem_of_cons in Hin as [->|Hin]; [find_elem|]).
        by apply elem_of_nil in Hin.
Qed.

(** X18. After a successful login the login page navigates to the page of
    the role, and that page stays: for a candidate the candidate page,
    whose check of the authentication does not navigate away and whose
    routes are open to the session; for a recruiter the recruiter page
    likewise. With any other role the login leads to the recruiter page,
    which sends back to the login page. *)
Theorem landing_page_stays (B : Bcrypt) (U : Users) (email password : option string)
    (users : list Account) (session session' : Session) (role name : string)
    (userId : nat) :
  loginRoute B U email password users session = (LoginOk role name userId, session') ->
  let checked := Return (checkRoute session') in
  (role = "candidate" ->
     afterLogin role = HomePage /\ homeCheckAuth checked = None
     /\ guard candidateOnly session' = None)
  /\ (role = "recruiter" ->
        afterLogin role = RecruiterPage /\ recruiterCheckAuth checked = None
        /\ guard recruiterOnly session' = None)
  /\ (role <> "candidate" -> role <> "recruiter" ->
        afterLogin role = RecruiterPage /\ recruiterCheckAuth checked = Some LoginPage).
Proof.
  unfold loginRoute. destruct (missing email || missing password); [done|].
  destruct (findOneUser U _ users) as [[user|]|]; [|done..].
  destruct (bcrypt_compare B _ _) as [[]|]; [|done..].
  intros [= <- <- <- <-]. cbn.
  split; [by intros ->|]. split; [by intros ->|]. intros Hc Hr. unfold afterLogin.
  destruct (String.eqb_spec (account_role user) "candidate"); [done|].
  by destruct (String.eqb_spec (account_role user) "recruiter").
Qed.

Lemma landing_page_stays_witness :
  afterLogin "recruiter" = RecruiterPage
  /\ recruiterCheckAuth
       (Return (checkRoute (mkSession (Some 3) (Some "recruiter") (Some "bob")))) = None
  /\ guard recruiterOnly (mkSession (Some 3) (Some "recruiter") (Some "bob")) = None.
Proof.
  apply (landing_page_stays Accounts.plain Accounts.users (Some "bob@example.org")
           (Some "secret") [Accounts.bob] noSession
           (mkSession (Some 3) (Some "recruiter") (Some "bob")) "recruiter" "bob" 3);
    reflexivity.
Defined.

(** ** Equal scores *)

Section Difference64.
Local Open Scope Z_scope.

Lemma cond_Zopp_mul (s : bool) (x y : Z) : cond_Zopp s x * y = cond_Zopp s (x * y).
Proof. destruct s; cbn [cond_Zopp]; lia. Qed.

Lemma scaled_aligned (s : bool) (m : positive) (e ez : Z) :
  -1074 <= ez -> ez <= e ->
  cond_Zopp s (Z.pos (fst (shl_align m e ez))) * 2 ^ (ez + 1074)
  = scaled (S754_finite s m e).
Proof.
  intros H1 H2. rewrite shl_align_value by done. cbn [scaled].
  rewrite cond_Zopp_mul. f_equal. rewrite <- Z.mul_assoc. f_equal.
  rewrite <- Z.pow_add_r by lia. f_equal. lia.
Qed.

(** A difference that is positive after rounding comes from a first
    number above the second. *)
Lemma SFsub_positive_SFltb (a b : spec_float) :
  valid_binary a = true -> valid_binary b = true ->
  positiveSF (SF64sub a b) -> SFltb b a = true.
Proof.
  intros Va Vb.
  destruct a as [sa|sa| |sa ma ea], b as [sb|sb| |sb mb eb];
    try (by destruct sa, sb); try (by destruct sa); try (by destruct sb); try done.
  unfold SF64sub, SFsub. cbn [valid_binary] in Va, Vb. intros Hpos.
  apply binary_normalize_positive in Hpos.
  pose proof (bounded_digits _ _ Va) as (_ & Hea & _).
  pose proof (bounded_digits _ _ Vb) as (_ & Heb & _).
  set (ez := Z.min ea eb) in *.
  pose proof (scaled_aligned sa ma ea ez ltac:(lia) ltac:(lia)) as Ha.
  pose proof (scaled_aligned sb mb eb ez ltac:(lia) ltac:(lia)) as Hb.
  pose proof (Z.pow_pos_nonneg 2 (ez + 1074) ltac:(lia) ltac:(lia)) as Hp.
  assert (Hlt : scaled (S754_finite sb mb eb) < scaled (S754_finite sa ma ea)).
  { rewrite <- Ha, <- Hb. nia. }
  unfold SFltb. rewrite SFcompare_scaled by done.
  by apply Z.compare_lt_iff in Hlt as ->.
Qed.
End Difference64.

(** The comparator of the ranking asks for [b] before [a] exactly when
    the score of [a] is below that of [b]. *)
Lemma sub_positive_ltb (x y : float) : (0 <? x - y)%float = (y <? x)%float.
Proof.
  destruct (y <? x)%float eqn:E; [by apply ltb_sub_positive|].
  apply not_true_is_false. intros H. apply ltb_zero_positive in H.
  rewrite sub_spec in H. apply SFsub_positive_SFltb in H; [|apply Prim2SF_valid..].
  rewrite <- ltb_spec in H. congruence.
Qed.

Lemma eqb_scaled (x y : float) :
  isNaN x = false -> isNaN y = false ->
  (x =? y)%float = (scaled (Prim2SF x) =? scaled (Prim2SF y))%Z.
Proof.
  intros Hx Hy. rewrite FloatAxioms.eqb_spec, Z.eqb_compare. unfold SFeqb.
  by rewrite compare_scaled.
Qed.

Lemma StronglySorted_impl_elem {A} (R R' : A -> A -> Prop) (l : list A) :
  (forall a b, a ∈ l -> b ∈ l -> R a b -> R' a b) ->
  StronglySorted R l -> StronglySorted R' l.
Proof.
  intros H Hs. induction Hs as [|x l Hl IH Hx]; constructor.
  - apply IH. intros a b Ha Hb. apply H; by right.
  - apply Forall_forall. intros y Hy. apply H; [left | by right|].
    by apply (proj1 (Forall_forall _ _) Hx).
Qed.

(** X19. The ranking is stable. The comparator of the sort asks for an
    entry to come before another exactly when its score is the larger
    one; so, when no score is [NaN], every entry of the answer has a
    larger score than each entry after it, or an equal score and the
    earlier place among the resumes as they were fetched. *)
Theorem rankRoute_stable (N : Natural) (jobDescription : string) (resumes : list Resume)
    (ranked : list Ranked) (total : nat) :
  rankRoute N (Some jobDescription) (Return resumes) = RankOk ranked total ->
  Forall (fun r => isNaN (matchScore r) = false) ranked ->
  (forall a b, scoreBelow a b = (matchScore a <? matchScore b)%float)
  /\ StronglySorted (scoresBefore (map (rankedOf N jobDescription) resumes)) ranked.
Proof.
  unfold rankRoute.
  destruct (JS.falsy jobDescription || _); [done|].
  rewrite (mapM_returns _ (rankedOf N jobDescription)) by apply rankOne_returns.
  intros [= <- <-] Hnan.
  split; [intros a b; apply sub_positive_ltb|].
  set (fetched := map (rankedOf N jobDescription) resumes) in *.
  apply (StronglySorted_impl_elem
           (rankedBefore (fun r => scaled (Prim2SF (matchScore r))) (precedes fetched))).
  - intros a b Ha Hb Hab.
    apply (proj1 (Forall_forall _ _) Hnan) in Ha, Hb.
    unfold scoresBefore. rewrite ltb_scaled, eqb_scaled by done.
    destruct Hab as [Hab|[Hab Hpre]]; [left; by apply Z.ltb_lt|right].
    split; [by apply Z.eqb_eq | done].
  - apply (sort_ranked scoreBelow _ (fun r => isNaN (matchScore r) = false)).
    + intros y x Hy Hx. unfold scoreBelow. rewrite sub_positive_ltb. by apply ltb_scaled.
    + by rewrite <- (sort_Permutation scoreBelow).
Qed.

Lemma rankRoute_stable_witness :
  StronglySorted
    (scoresBefore
       (map (rankedOf Sample.wordTfIdf "react developer")
          [Sample.resumeOf 0 "java"; Sample.resumeOf 1 "react"; Sample.resumeOf 2 "sql"]))
    (map (rankedOf Sample.wordTfIdf "react developer")
       [Sample.resumeOf 1 "react"; Sample.resumeOf 0 "java"; Sample.resumeOf 2 "sql"]).
Proof.
  apply (rankRoute_stable Sample.wordTfIdf "react developer"
           [Sample.resumeOf 0 "java"; Sample.resumeOf 1 "react"; Sample.resumeOf 2 "sql"]
           _ 3).
  - by vm_compute.
  - repeat constructor; by vm_compute.
Defined.

(** ** Failed extraction *)

(** X20. When the extraction throws, the upload route stores nothing
    and answers by the format: for an image with the advice on OCR,
    whatever the error was; for a Word document with the message
    "Failed to extract text from Word document"; for a PDF with the
    message of the exception of the PDF parser itself; and for any other
    media type with "Unsupported file type". *)
Theorem uploadRoute_failure (X : Extractors) (S : Store) (user : User) (f : File)
    (jobTitle : option string) (db : list Resume) (e : error) :
  extractTextFromFile X (buffer f) (mimetype f) (originalname f) = Throw e ->
  uploadRoute X S user (Some f) jobTitle db
    = (if isImage (mimetype f) then OcrFailed else ExtractionFailed (message e), db)
  /\ (isPdf (mimetype f) = true -> pdfParse X (buffer f) = Throw e)
  /\ (isWord (mimetype f) = true ->
      message e = "Failed to extract text from Word document")
  /\ (supportedType (mimetype f) = false -> message e = "Unsupported file type").
Proof.
  intros H. split.
  - unfold uploadRoute. rewrite H. fold (isImage (mimetype f)).
    by destruct (isImage (mimetype f)).
  - rewrite extractTextFromFile_eq in H.
    unfold supportedType, selectedExtractor, extractionError in *.
    destruct (isPdf (mimetype f)) eqn:Hpdf.
    + assert (isWord (mimetype f) = false) as ->.
      { unfold isPdf, isWord in *. apply String.eqb_eq in Hpdf. by rewrite Hpdf. }
      cbn [orb] in H. destruct (pdfParse X (buffer f)); [done|].
      by injection H as ->.
    + destruct (isWord (mimetype f)).
      * cbn [orb] in H. destruct (mammothRawText X (buffer f)); [done|].
        by injection H as <-.
      * cbn [orb] in H. destruct (isImage (mimetype f)).
        -- destruct (tesseractRecognize X (buffer f)); [done|]. by injection H as <-.
        -- by injection H as <-.
Qed.

Lemma uploadRoute_failure_witness :
  uploadRoute Sample.plainExtractors Sample.listStore Sample.alice
    (Some (fileOf "image/png" "pixels")) None []
  = (OcrFailed, []).
Proof.
  apply (uploadRoute_failure Sample.plainExtractors Sample.listStore Sample.alice
           (fileOf "image/png" "pixels") None []
           (Error "Failed to extract text from image using OCR")).
  reflexivity.
Defined.

(** ** Runs of ten digits *)

Lemma in_run_Cat (a b : Regex.regex) (s m e : Regex.pos) :
  In m (Regex.run a s) -> In e (Regex.run b m) -> In e (Regex.run (Regex.Cat a b) s).
Proof. intros Hm He. cbn [Regex.run]. apply in_flat_map. by exists m. Qed.

Lemma in_run_Opt_skip (r : Regex.regex) (s : Regex.pos) : In s (Regex.run (Regex.Opt r) s).
Proof. cbn [Regex.run Regex.Opt]. apply in_or_app. right. by left. Qed.

Lemma in_run_Class (p : ascii -> bool) (c : ascii) (bef rest : list ascii) :
  p c = true ->
  In (Regex.mkPos (c :: bef) rest) (Regex.run (Regex.Class p) (Regex.mkPos bef (c :: rest))).
Proof. intros H. cbn. rewrite H. by left. Qed.

Lemma in_run_WordBoundary (s : Regex.pos) :
  xorb (Regex.wordAt (Regex.before s)) (Regex.wordAt (Regex.after s)) = true ->
  In s (Regex.run Regex.WordBoundary s).
Proof. intros H. cbn. rewrite H. by left. Qed.

Lemma in_run_Times (p : ascii -> bool) (d bef rest : list ascii) :
  forallb p d = true ->
  In (Regex.mkPos (rev d ++ bef) rest)
     (Regex.run (Regex.Times (length d) (Regex.Class p)) (Regex.mkPos bef (d ++ rest))).
Proof.
  revert bef. induction d as [|c d IH]; intros bef H; [by left|].
  cbn [forallb] in H. apply andb_prop in H as [Hc Hd].
  cbn [length Regex.Times rev app]. rewrite <- app_assoc.
  eapply in_run_Cat; [by apply in_run_Class | apply (IH (c :: bef) Hd)].
Qed.

(** A match somewhere in the subject is found by the search, or another
    one before it. *)
Lemma search_complete (r : Regex.regex) (u w bef : list ascii) (e : Regex.pos) :
  In e (Regex.run r (Regex.mkPos (rev u ++ bef) w)) ->
  Regex.search r bef (u ++ w) <> None.
Proof.
  revert bef. induction u as [|c u IH]; intros bef H.
  - cbn [rev app] in H. cbn [app].
    destruct (Regex.run r (Regex.mkPos bef w)) as [|e' l] eqn:E; [destruct H|].
    destruct w as [|x w]; cbn [Regex.search]; by rewrite E.
  - cbn [app Regex.search].
    destruct (Regex.run r (Regex.mkPos bef (c :: u ++ w))) as [|e' l]; [|done].
    apply IH. cbn [rev] in H. by rewrite <- app_assoc in H.
Qed.

Lemma digit_wordChar (c : ascii) : JS.isDigit c = true -> JS.isWordChar c = true.
Proof. unfold JS.isWordChar. intros ->. by rewrite orb_true_r. Qed.

(** The phone pattern matches ten digits that stand alone. *)
Lemma phoneRegex_tenDigits (u d v : list ascii) :
  length d = 10 -> forallb JS.isDigit d = true ->
  Regex.wordAt (rev u) = false -> Regex.wordAt v = false ->
  In (Regex.mkPos (rev d ++ rev u) v)
     (Regex.run phoneRegex (Regex.mkPos (rev u) (d ++ v))).
Proof.
  intros Hlen Hd Hu Hv.
  do 11 (destruct d as [|? d]; try discriminate Hlen). clear Hlen.
  cbn [forallb] in Hd.
  repeat match type of Hd with _ && _ = true => apply andb_prop in Hd as [? Hd] end.
  unfold phoneRegex.
  eapply in_run_Cat.
  { apply in_run_WordBoundary. cbn [Regex.before Regex.after app Regex.wordAt].
    rewrite Hu. by rewrite digit_wordChar. }
  eapply in_run_Cat; [apply in_run_Opt_skip|].
  eapply in_run_Cat; [apply in_run_Opt_skip|].
  eapply in_run_Cat.
  { apply (in_run_Times JS.isDigit [a; a0; a1]). cbn. by rewrite H, H0, H1. }
  eapply in_run_Cat; [apply in_run_Opt_skip|].
  eapply in_run_Cat; [apply in_run_Opt_skip|].
  eapply in_run_Cat.
  { apply (in_run_Times JS.isDigit [a2; a3; a4]). cbn. by rewrite H2, H3, H4. }
  eapply in_run_Cat; [apply in_run_Opt_skip|].
  eapply in_run_Cat.
  { apply (in_run_Times JS.isDigit [a5; a6; a7; a8]). cbn. by rewrite H5, H6, H7, H8. }
  apply in_run_WordBoundary. cbn [Regex.before Regex.after app rev Regex.wordAt].
  rewrite Hv. by rewrite digit_wordChar.
Qed.

(** X21. Every text in which ten digits stand alone, with no letter,
    digit or underscore next to them, has a phone: the phone rule of the
    ATS score applies, the score is at least 55, and the phone of the
    contact information is not ['N/A']. *)
Theorem ten_digits_are_a_phone (text : string) :
  tenDigitsAlone text ->
  hasPhone (signals text) = true
  /\ (55 <= atsScore text)%Z
  /\ phone (extractContactInfo text) <> "N/A".
Proof.
  intros (u & d & v & Htext & Hlen & Hd & Hu & Hv).
  assert (Hp : hasPhone (signals text) = true).
  { cbn [signals hasPhone]. unfold Regex.test, Regex.exec. rewrite Htext.
    pose proof (phoneRegex_tenDigits u d v Hlen Hd Hu Hv) as Hin.
    rewrite <- (app_nil_r (rev u)) in Hin at 2.
    apply search_complete in Hin. by destruct (Regex.search _ _ _). }
  split; [done|]. split.
  - rewrite atsScore_sum. pose proof (actionVerbBonus_range text).
    unfold signalBonuses, bonus. rewrite Hp.
    destruct (hasEmail _), (hasSummary _), (hasExperience _), (hasEducation _),
      (hasSkills _), (hasNumbers _); lia.
  - cbn [extractContactInfo phone].
    pose proof (orNA_firstMatch phoneRegex text phoneRegex_nonempty) as H.
    destruct (Regex.firstMatch phoneRegex text) as [m|].
    + destruct H as (-> & _ & _ & w & -> & Hw).
      apply phoneRegex_shaped in Hw as ([Hw _] & _). intros HNA. rewrite HNA in Hw.
      vm_compute in Hw. lia.
    + destruct H as [_ H]. cbn [signals hasPhone] in Hp. congruence.
Qed.

Lemma ten_digits_are_a_phone_witness :
  (55 <= atsScore "Order no. 4081726395 of last year")%Z.
Proof.
  apply (ten_digits_are_a_phone "Order no. 4081726395 of last year").
  exists (list_ascii_of_string "Order no. "), (list_ascii_of_string "4081726395"),
    (list_ascii_of_string " of last year").
  by vm_compute.
Defined.
